(** * md-lite-js: the markdown parser of [src/parsing.ts]

    A shallow embedding of the class [MarkdownParser] and of the exported
    function [parse], followed by the properties of the parser that the
    specification of the repository states.

    Strings are JavaScript strings, that is sequences of UTF-16 code units;
    the parser works on the array [chars = [...input]] of code points, each
    of them a string of one or two code units.  The cursor [index] is the
    only mutable field of the class: a method is a function from the index
    before the call to an outcome and the index after it.  A thrown
    [MismatchError] is an outcome of its own, and leaves the index where the
    throwing statement found it. *)

From Stdlib Require Import Strings.Ascii Strings.String.
From Stdlib Require Import NArith Arith Bool List Lia.
Import ListNotations.
Local Open Scope list_scope.

(* ================================================================= *)
(** ** JavaScript strings *)

(** A string is the list of its UTF-16 code units. *)
Definition jsstring := list N.

(** The string written as an ASCII literal in the source. *)
Definition js (s : string) : jsstring :=
  map N_of_ascii (list_ascii_of_string s).

Definition CR : jsstring := [13%N].
Definition LF : jsstring := [10%N].
Definition BACKSLASH : jsstring := [92%N].

(** [a === b] on two strings. *)
Fixpoint str_eqb (a b : jsstring) : bool :=
  match a, b with
  | [], [] => true
  | x :: a', y :: b' => N.eqb x y && str_eqb a' b'
  | _, _ => false
  end.

(** [x === s] where [x] may be [undefined] (an array read out of range). *)
Definition strictEq (x : option jsstring) (s : jsstring) : bool :=
  match x with
  | Some y => str_eqb y s
  | None => false
  end.

(** [text += x]: string concatenation converts [undefined] to its name. *)
Definition str_of (x : option jsstring) : jsstring :=
  match x with
  | Some y => y
  | None => js "undefined"
  end.

Definition isHighSurrogate (u : N) : bool :=
  (N.leb 55296 u && N.leb u 56319)%N.

Definition isLowSurrogate (u : N) : bool :=
  (N.leb 56320 u && N.leb u 57343)%N.

Definition isSurrogate (u : N) : bool :=
  isHighSurrogate u || isLowSurrogate u.

(** [[...input]]: the string iterator yields code points; a high surrogate
    followed by a low surrogate is one element, any other code unit is an
    element of its own. *)
Fixpoint spread (input : jsstring) : list jsstring :=
  match input with
  | [] => []
  | u :: rest =>
      match rest with
      | v :: rest' =>
          if isHighSurrogate u && isLowSurrogate v
          then [u; v] :: spread rest'
          else [u] :: spread rest
      | [] => [[u]]
      end
  end.

(** The code units removed by [String.prototype.trim]: white space and line
    terminators. *)
Definition isTrimmed (u : N) : bool :=
  existsb (N.eqb u)
    [9; 10; 11; 12; 13; 32; 160; 5760; 8232; 8233; 8239; 8287; 12288; 65279]%N
  || (N.leb 8192 u && N.leb u 8202)%N.

Fixpoint trimStart (s : jsstring) : jsstring :=
  match s with
  | u :: s' => if isTrimmed u then trimStart s' else s
  | [] => []
  end.

Definition trim (s : jsstring) : jsstring :=
  rev (trimStart (rev (trimStart s))).

(* ================================================================= *)
(** ** The syntax tree *)

Set Warnings "-register-all".

(** The node type of [./ast], as the object literals of the parser build
    it: [fragment] and [paragraph] hold an array of children, [italic],
    [bold], [strike] and [link] hold one node. *)
Inductive MarkdownNode : Type :=
| Fragment (children : list MarkdownNode)
| Paragraph (children : list MarkdownNode)
| Text (content : jsstring)
| Italic (children : MarkdownNode)
| Bold (children : MarkdownNode)
| Strike (children : MarkdownNode)
| Code (content : jsstring)
| Image (src alt : jsstring)
| Link (href : jsstring) (children : MarkdownNode).

(** [node?.type === 'paragraph'], also for the [undefined] read from an
    empty array. *)
Definition isParagraph (n : option MarkdownNode) : bool :=
  match n with
  | Some (Paragraph _) => true
  | _ => false
  end.

(** [children[children.length - 1]]. *)
Definition lastChild (children : list MarkdownNode) : option MarkdownNode :=
  nth_error children (length children - 1).

(** [paragraph.children.push(...nodes)] where [paragraph] is the last
    element of [children]: the paragraph is an object shared with the array,
    so the push is seen through the array. *)
Definition pushIntoLast (children : list MarkdownNode) (nodes : list MarkdownNode)
  : list MarkdownNode :=
  match lastChild children with
  | Some (Paragraph cs) => removelast children ++ [Paragraph (cs ++ nodes)]
  | _ => children
  end.

(** The statements
[[
    let parent = root.children[root.children.length - 1];
    if (parent?.type !== 'paragraph') { parent = root; }
]]
    followed by pushes of [nodes] to [parent.children]. *)
Definition pushToParent (root : list MarkdownNode) (nodes : list MarkdownNode)
  : list MarkdownNode :=
  if isParagraph (lastChild root) then pushIntoLast root nodes
  else root ++ nodes.

(* ================================================================= *)
(** ** Outcomes of a method call *)

Inductive outcome (A : Type) : Type :=
| Return (a : A)        (* the call returns [a] *)
| Throw                 (* the call throws a [MismatchError] *)
| OutOfFuel.            (* the model ran out of fuel: nothing is known *)

Arguments Return {A} a.
Arguments Throw {A}.
Arguments OutOfFuel {A}.

(** A method of the parser: the index before the call gives the outcome and
    the index after the call. *)
Definition M (A : Type) : Type := nat -> outcome A * nat.

Definition ret {A} (a : A) : M A := fun i => (Return a, i).

Definition throw {A} : M A := fun i => (Throw, i).

Definition bind {A B} (c : M A) (k : A -> M B) : M B :=
  fun i =>
    match c i with
    | (Return a, i') => k a i'
    | (Throw, i') => (Throw, i')
    | (OutOfFuel, i') => (OutOfFuel, i')
    end.

Notation "x <- c ;; k" := (bind c (fun x => k))
  (at level 61, c at next level, right associativity).
Notation "c ;;; k" := (bind c (fun _ => k))
  (at level 61, right associativity).

(* ================================================================= *)
(** ** The class [MarkdownParser] *)

Definition NEWLINE : list jsstring := [CR ++ LF; CR; LF].

Definition NEW_PARAGRAPH : list jsstring :=
  flat_map (fun prefix => map (fun suffix => prefix ++ suffix) NEWLINE) NEWLINE.

Section Parser.

(** [private readonly chars: string[]] *)
Variable chars : list jsstring.

(** [get done] *)
Definition done (index : nat) : bool := length chars <=? index.

(** [get current]: [undefined] when the index is out of range. *)
Definition current (index : nat) : option jsstring := nth_error chars index.

(** [getSlice(start, end)] *)
Definition getSlice (start end_ : nat) : jsstring :=
  concat (firstn (end_ - start) (skipn start chars)).

(** [lookAhead(length)] *)
Definition lookAhead (length : nat) (index : nat) : option jsstring :=
  if length =? 1 then current index
  else Some (getSlice index (index + length)).

(** [matches(...lookahead)] *)
Definition matches (lookahead : list jsstring) (index : nat) : bool :=
  existsb (fun substring => strictEq (lookAhead (length substring) index) substring)
          lookahead.

(** [advance(length)] *)
Definition advance (length : nat) : M unit :=
  fun index => (Return tt, index + length).

(** [seek(index)] *)
Definition seek (index : nat) : M unit :=
  fun _ => (Return tt, index).

(** Reading a getter or calling a method that leaves the index alone. *)
Definition get {A} (f : nat -> A) : M A :=
  fun index => (Return (f index), index).

(** Calling a method that always returns. *)
Definition call {A} (f : nat -> A * nat) : M A :=
  fun index => let '(a, index') := f index in (Return a, index').

(** [match(...lookahead)]: the first candidate found at the index is
    consumed; a [MismatchError] is thrown when there is none. *)
Fixpoint match_ (lookahead : list jsstring) : M unit :=
  match lookahead with
  | [] => throw
  | substring :: rest =>
      fun index =>
        if strictEq (lookAhead (length substring) index) substring
        then advance (length substring) index
        else match_ rest index
  end.

(** The loop of [parseText]; [fuel] bounds the number of iterations. *)
Fixpoint parseText_loop (fuel : nat) (end_ text : jsstring) (index : nat)
  : jsstring * nat :=
  match fuel with
  | 0 => (text, index)
  | S fuel' =>
      if done index then (text, index)
      else if strictEq (current index) BACKSLASH && (index + 1 <? length chars)
      then
        let index1 := index + 1 in
        let text1 := text ++ str_of (current index1) in
        parseText_loop fuel' end_ text1 (index1 + 1)
      else if str_eqb end_ [] || matches [end_] index || matches NEWLINE index
      then (text, index)
      else parseText_loop fuel' end_ (text ++ str_of (current index)) (index + 1)
  end.

(** [parseText(end)].  Every iteration advances the index, so the loop runs
    at most [length - index] times (lemma [parseText_loop_fuel]). *)
Definition parseText (end_ : jsstring) (index : nat) : jsstring * nat :=
  parseText_loop (length chars - index) end_ [] index.

(** [while (NEWLINE.includes(this.current)) this.advance()] *)
Fixpoint skipNewlines_loop (fuel : nat) (index : nat) : nat :=
  match fuel with
  | 0 => index
  | S fuel' =>
      if existsb (strictEq (current index)) NEWLINE
      then skipNewlines_loop fuel' (index + 1)
      else index
  end.

Definition skipNewlines (index : nat) : nat :=
  skipNewlines_loop (length chars - index) index.

(** Lines 59 to 84 of [parseNext], the promotion to paragraphs at a blank
    line: the children so far become one paragraph unless the last of them
    is a paragraph already, the pending text is flushed into that paragraph,
    and a new empty paragraph is opened. *)
Definition promote (root : list MarkdownNode) (text : jsstring)
  : list MarkdownNode * jsstring :=
  if negb (str_eqb text []) || (0 <? length root) then
    let root1 :=
      if isParagraph (lastChild root) then root else [Paragraph root] in
    let root2 :=
      if negb (str_eqb text []) then pushIntoLast root1 [Text text] else root1 in
    let text2 := if negb (str_eqb text []) then [] else text in
    (root2 ++ [Paragraph []], text2)
  else (root, text).

(** Lines 130 to 153 of [parseNext], after the loop: the pending text is
    flushed, an empty last paragraph is popped, and a fragment of one child
    is replaced by that child. *)
Definition flush (root : list MarkdownNode) (text : jsstring)
  : list MarkdownNode :=
  if negb (str_eqb text []) then pushToParent root [Text text] else root.

Definition popEmptyParagraph (root : list MarkdownNode) : list MarkdownNode :=
  match lastChild root with
  | Some (Paragraph []) => removelast root
  | _ => root
  end.

Definition collapse (root : list MarkdownNode) : MarkdownNode :=
  if length root =? 1 then
    match nth_error root 0 with
    | Some child => child
    | None => Fragment root
    end
  else Fragment root.

Definition finish (root : list MarkdownNode) (text : jsstring) : MarkdownNode :=
  collapse (popEmptyParagraph (flush root text)).

(** [parseCurrent()], with the method [parseNext] it calls for the nested
    content as a parameter. *)
Definition parseCurrent_ (parseNext : jsstring -> M MarkdownNode)
  : M (option MarkdownNode) :=
  char <- get (lookAhead 1) ;;
  if strictEq char (js "*") || strictEq char (js "_") then
    isDouble <- get (matches [js "**"]) ;;
    let delimiter := if isDouble : bool then js "**" else str_of char in
    advance (length delimiter) ;;;
    children <- parseNext delimiter ;;
    match_ [delimiter] ;;;
    ret (Some (if length delimiter =? 1 then Italic children else Bold children))
  else if strictEq char (js "~") then
    match_ [js "~~"] ;;;
    children <- parseNext (js "~~") ;;
    match_ [js "~~"] ;;;
    ret (Some (Strike children))
  else if strictEq char (js "`") then
    fenced <- get (matches [js "```"]) ;;
    if fenced : bool then ret None
    else
      isDouble <- get (matches [js "``"]) ;;
      let delimiter := if isDouble : bool then js "``" else js "`" in
      match_ [delimiter] ;;;
      scanned <- call (parseText delimiter) ;;
      let content := trim scanned in
      fenced' <- get (matches [js "```"]) ;;
      if fenced' : bool then ret None
      else
        match_ [delimiter] ;;;
        ret (Some (Code content))
  else if strictEq char (js "!") then
    advance 1 ;;;
    match_ [js "["] ;;;
    alt <- call (parseText (js "]")) ;;
    match_ [js "]("] ;;;
    src <- call (parseText (js ")")) ;;
    match_ [js ")"] ;;;
    ret (Some (Image src alt))
  else if strictEq char (js "[") then
    advance 1 ;;;
    label <- parseNext (js "]") ;;
    match_ [js "]("] ;;;
    href <- call (parseText (js ")")) ;;
    match_ [js ")"] ;;;
    ret (Some (Link href label))
  else ret None.

(** What one iteration of the loop of [parseNext] does to the loop. *)
Inductive iterationOutcome : Type :=
| Break (index : nat)
    (* the loop is left, by its condition or by [break] *)
| Continue (root : list MarkdownNode) (text : jsstring) (index : nat)
    (* the next iteration starts with these values of the variables *)
| Exhausted (index : nat).
    (* a nested call ran out of fuel *)

(** The condition and the body of the [while] loop of [parseNext(end)]
    (lines 41 to 128), from the values of [root.children] and [text] at the
    start of the iteration; [parseCurrent] is the method called at line 94. *)
Definition iteration (parseCurrent : M (option MarkdownNode)) (end_ : jsstring)
    (root : list MarkdownNode) (text : jsstring) (index0 : nat)
  : iterationOutcome :=
  if done index0 then Break index0
  else
    let '(escapedText, index1) := parseText [] index0 in
    if negb (str_eqb escapedText []) then
      Continue root (text ++ escapedText) index1
    else if negb (str_eqb end_ [])
            && (matches [end_] index1 || matches NEWLINE index1)
    then Break index1
    else if matches NEW_PARAGRAPH index1 then
      let index2 := skipNewlines index1 in
      let '(root', text') := promote root text in
      Continue root' text' index2
    else
      let index := index1 in
      match parseCurrent index1 with
      | (OutOfFuel, index3) => Exhausted index3
      | (Return (Some node), index3) =>
          let pending := if negb (str_eqb text []) then [Text text] else [] in
          Continue (pushToParent root (pending ++ [node])) [] index3
      | (_, _) =>
          (* [node === null]: no match, or a [MismatchError] was caught;
             [seek(index)], and the current code point becomes text *)
          Continue root (text ++ str_of (current index)) (index + 1)
      end.

(** The loop of [parseNext(end)]; it returns the variables [root.children]
    and [text] as they are when the loop is left.  [fuel] bounds the
    iterations of the loop and the depth of the nested calls together. *)
Fixpoint parseNext_loop (fuel : nat) (end_ : jsstring)
    (root : list MarkdownNode) (text : jsstring) (index : nat)
  : outcome (list MarkdownNode * jsstring) * nat :=
  match fuel with
  | 0 => (OutOfFuel, index)
  | S fuel' =>
      let parseNext := fun (end' : jsstring) (i : nat) =>
        match parseNext_loop fuel' end' [] [] i with
        | (Return (root', text'), i') => (Return (finish root' text'), i')
        | (Throw, i') => (Throw, i')
        | (OutOfFuel, i') => (OutOfFuel, i')
        end in
      match iteration (parseCurrent_ parseNext) end_ root text index with
      | Break index' => (Return (root, text), index')
      | Continue root' text' index' => parseNext_loop fuel' end_ root' text' index'
      | Exhausted index' => (OutOfFuel, index')
      end
  end.

(** [parseNext(end)] *)
Definition parseNext (fuel : nat) (end_ : jsstring) : M MarkdownNode :=
  fun index =>
    match parseNext_loop fuel end_ [] [] index with
    | (Return (root, text), index') => (Return (finish root text), index')
    | (Throw, index') => (Throw, index')
    | (OutOfFuel, index') => (OutOfFuel, index')
    end.

(** [parseCurrent()] *)
Definition parseCurrent (fuel : nat) : M (option MarkdownNode) :=
  parseCurrent_ (parseNext fuel).

End Parser.

(** [MarkdownParser.parse(input)] and the exported [parse(markdown)]: a new
    parser over the code points of the input, and [parseNext()] with the
    default terminator [''].  The fuel is one more than the number of code
    points, which is enough for the call to return. *)
Definition parse (markdown : jsstring) : outcome MarkdownNode :=
  let chars := spread markdown in
  fst (parseNext chars (S (length chars)) [] 0).

(** The code points of a well-formed [chars] array: one code unit, or a
    surrogate pair. *)
Definition isCodePoint (c : jsstring) : bool :=
  match c with
  | [_] => true
  | [h; l] => isHighSurrogate h && isLowSurrogate l
  | _ => false
  end.

Definition wf_chars (chars : list jsstring) : Prop :=
  forallb isCodePoint chars = true.

(* ================================================================= *)
(** ** Predicates on trees *)

(** No paragraph anywhere in the tree. *)
Fixpoint noParagraph (n : MarkdownNode) : bool :=
  match n with
  | Fragment cs => forallb noParagraph cs
  | Paragraph _ => false
  | Text _ | Code _ | Image _ _ => true
  | Italic c | Bold c | Strike c | Link _ c => noParagraph c
  end.

(** A paragraph with no paragraph below it. *)
Definition flatParagraph (n : MarkdownNode) : bool :=
  match n with
  | Paragraph cs => forallb noParagraph cs
  | _ => false
  end.

(** The nodes that [parseCurrent] builds. *)
Definition isInline (n : MarkdownNode) : bool :=
  match n with
  | Italic _ | Bold _ | Strike _ | Code _ | Image _ _ | Link _ _ => true
  | _ => false
  end.

Definition isFragment (n : MarkdownNode) : bool :=
  match n with
  | Fragment _ => true
  | _ => false
  end.

(** Paragraphs are direct children of the root and nowhere else. *)
Definition paragraphsBelowRootOnly (n : MarkdownNode) : bool :=
  match n with
  | Fragment cs => forallb (fun c => noParagraph c || flatParagraph c) cs
  | _ => noParagraph n
  end.

(** Paragraphs are direct children of the root fragment, or the root is
    the only paragraph. *)
Definition paragraphsAtTopOnly (n : MarkdownNode) : bool :=
  match n with
  | Fragment cs => forallb (fun c => noParagraph c || flatParagraph c) cs
  | Paragraph cs => forallb noParagraph cs
  | _ => noParagraph n
  end.

(** The children of a root while [parseNext] runs: no paragraph among
    them or below them, or paragraphs only, none with a paragraph below it. *)
Definition allFlat (root : list MarkdownNode) : Prop :=
  forallb noParagraph root = true.

Definition allParagraphs (root : list MarkdownNode) : Prop :=
  forallb flatParagraph root = true.

Definition topOk (root : list MarkdownNode) : Prop :=
  allFlat root \/ allParagraphs root.

Definition noFragment (root : list MarkdownNode) : Prop :=
  forallb (fun c => negb (isFragment c)) root = true.

(** Emphasis somewhere in the tree. *)
Fixpoint hasEmphasis (n : MarkdownNode) : bool :=
  match n with
  | Fragment cs | Paragraph cs => existsb hasEmphasis cs
  | Text _ | Code _ | Image _ _ => false
  | Italic _ | Bold _ => true
  | Strike c | Link _ c => hasEmphasis c
  end.

(** [text] starts with [s], code unit by code unit. *)
Fixpoint startsWith (text s : jsstring) {struct s} : bool :=
  match s with
  | [] => true
  | u :: s' =>
      match text with
      | [] => false
      | x :: text' => N.eqb x u && startsWith text' s'
      end
  end.

(** The candidate [s] is found literally at the index: the input from the
    index on starts with [s]. *)
Definition literallyAt (chars : list jsstring) (s : jsstring) (index : nat) : bool :=
  startsWith (concat (skipn index chars)) s.

(** A string without surrogates, as all the literals of the parser are. *)
Definition noSurrogate (s : jsstring) : bool :=
  forallb (fun u => negb (isSurrogate u)) s.

(** The reading of the specification in which a blank line promotes the
    children to paragraphs in a nested call as it does at top level: with a
    terminator too, the iteration at a blank line is the one that promotes
    and skips the newlines. *)
Definition nestedBlankLinePromotes : Prop :=
  forall (chars : list jsstring) (pc : M (option MarkdownNode))
         (end_ : jsstring) (root : list MarkdownNode) (text : jsstring)
         (index : nat),
    wf_chars chars ->
    end_ <> [] ->
    matches chars NEW_PARAGRAPH index = true ->
    iteration chars pc end_ root text index
    = let '(root', text') := promote root text in
      Continue root' text' (skipNewlines chars index).

(** The code units at which the loop of [parseNext] does something else
    than to take the current code point as text: the backslash, the first
    code units of the inline markup, and the newlines. *)
Definition MARKUP : list N := [92; 42; 95; 126; 96; 33; 91; 13; 10]%N.

(** The code units at which [parseText] does something else than to take
    the current code point, leaving the terminator aside: the backslash and
    the newlines. *)
Definition SCANNED : list N := [92; 13; 10]%N.

(** A string without any of the code units [forbidden]. *)
Definition avoids (forbidden : list N) (s : jsstring) : bool :=
  forallb (fun u => negb (existsb (N.eqb u) forbidden)) s.

(** A code point whose first code unit is none of the code units
    [forbidden]. *)
Definition startsClear (forbidden : list N) (c : jsstring) : bool :=
  match c with
  | [] => false
  | u :: _ => negb (existsb (N.eqb u) forbidden)
  end.

(** Every code unit of [wanted] is one of [forbidden]. *)
Definition covers (forbidden wanted : list N) : bool :=
  forallb (fun u => existsb (N.eqb u) forbidden) wanted.

(** The terminator, if there is one, starts with one of [forbidden]. *)
Definition endCovered (forbidden : list N) (end_ : jsstring) : bool :=
  match end_ with
  | [] => true
  | u :: _ => existsb (N.eqb u) forbidden
  end.

(** The string in which a backslash is put before every code point of the
    string [s]. *)
Definition escapeAll (s : jsstring) : jsstring :=
  concat (map (fun c => BACKSLASH ++ c) (spread s)).

(** A string of carriage returns and line feeds. *)
Definition isNewlines (s : jsstring) : bool :=
  forallb (fun u => N.eqb u 13 || N.eqb u 10) s.

(** No text node of the tree has the empty string as its content. *)
Fixpoint noEmptyText (n : MarkdownNode) : bool :=
  match n with
  | Fragment cs | Paragraph cs => forallb noEmptyText cs
  | Text content => negb (str_eqb content [])
  | Code _ | Image _ _ => true
  | Italic c | Bold c | Strike c | Link _ c => noEmptyText c
  end.

(** Fragments are collapsed everywhere in the tree: no fragment has exactly
    one child, and no child of a fragment or of a paragraph is a fragment. *)
Fixpoint collapsed (n : MarkdownNode) : bool :=
  match n with
  | Fragment cs =>
      negb (length cs =? 1)
      && forallb (fun c => negb (isFragment c) && collapsed c) cs
  | Paragraph cs => forallb (fun c => negb (isFragment c) && collapsed c) cs
  | Text _ | Code _ | Image _ _ => true
  | Italic c | Bold c | Strike c | Link _ c => collapsed c
  end.

(** A paragraph without children. *)
Definition isEmptyParagraph (n : MarkdownNode) : bool :=
  match n with
  | Paragraph [] => true
  | _ => false
  end.

(** No paragraph of the tree is without children. *)
Fixpoint noEmptyParagraph (n : MarkdownNode) : bool :=
  match n with
  | Fragment cs => forallb noEmptyParagraph cs
  | Paragraph cs => negb (length cs =? 0) && forallb noEmptyParagraph cs
  | Text _ | Code _ | Image _ _ => true
  | Italic c | Bold c | Strike c | Link _ c => noEmptyParagraph c
  end.

(** The state of the loop of [parseNext] between two iterations, as far as
    empty paragraphs go: only the last child of the root can be an empty
    paragraph, and when it is one and no text is pending, the cursor is not
    at a newline. *)
Definition paragraphsFilled (chars : list jsstring)
    (root : list MarkdownNode) (text : jsstring) (i : nat) : Prop :=
  forallb (fun c => negb (isEmptyParagraph c)) (removelast root) = true
  /\ forall c, lastChild root = Some c -> isEmptyParagraph c = true ->
       text = [] ->
       existsb (strictEq (current chars i)) NEWLINE = false.

(** The children without a last child that is an empty paragraph, read off
    the list from its end. *)
Definition withoutTrailingEmptyParagraph (children : list MarkdownNode)
  : list MarkdownNode :=
  match rev children with
  | Paragraph [] :: before => rev before
  | _ => children
  end.

(** The root for a list of children: the only child, or the fragment of
    the children. *)
Definition collapsedRoot (children : list MarkdownNode) : MarkdownNode :=
  match children with
  | [child] => child
  | _ => Fragment children
  end.

(** The last child of a fragment is an empty paragraph, or the node is an
    empty paragraph itself. *)
Definition endsWithEmptyParagraph (n : MarkdownNode) : bool :=
  match n with
  | Fragment children =>
      match rev children with
      | c :: _ => isEmptyParagraph c
      | [] => false
      end
  | _ => isEmptyParagraph n
  end.

(* ================================================================= *)
(** ** Strings and code points *)

Lemma str_eqb_eq (a b : jsstring) : str_eqb a b = true <-> a = b.
Proof.
  revert b; induction a as [|x a IH]; intros [|y b]; simpl; split;
    try congruence; try reflexivity.
  - intros H. apply andb_true_iff in H as [Hxy Hab].
    apply N.eqb_eq in Hxy. apply IH in Hab. congruence.
  - intros H. injection H as -> ->.
    rewrite N.eqb_refl. simpl. now apply IH.
Qed.

Lemma str_eqb_refl (a : jsstring) : str_eqb a a = true.
Proof. now apply str_eqb_eq. Qed.

Lemma str_eqb_neq (a b : jsstring) : str_eqb a b = false <-> a <> b.
Proof.
  split.
  - intros H E. apply str_eqb_eq in E. congruence.
  - intros H. destruct (str_eqb a b) eqn:E; [|reflexivity].
    apply str_eqb_eq in E. contradiction.
Qed.

Lemma strictEq_eq (x : option jsstring) (s : jsstring) :
  strictEq x s = true <-> x = Some s.
Proof.
  destruct x as [y|]; simpl.
  - rewrite str_eqb_eq. split; congruence.
  - split; congruence.
Qed.

Lemma spread_wf_bounded (n : nat) :
  forall input, length input <= n -> wf_chars (spread input).
Proof.
  unfold wf_chars.
  induction n as [|n IH]; intros [|u [|v rest]] Hlen; simpl in *;
    try reflexivity; try lia.
  destruct (isHighSurrogate u && isLowSurrogate v) eqn:E.
  - cbn [forallb isCodePoint]. rewrite E. apply IH. lia.
  - cbn [forallb isCodePoint]. apply (IH (v :: rest)). simpl. lia.
Qed.

Lemma spread_wf (input : jsstring) : wf_chars (spread input).
Proof. now apply (spread_wf_bounded (length input)). Qed.

Lemma nth_error_of_skipn {A} (l : list A) :
  forall i c rest, skipn i l = c :: rest -> nth_error l i = Some c.
Proof.
  induction l as [|x l IH]; intros [|i] c rest H; simpl in *;
    try discriminate.
  - now injection H as -> _.
  - now apply (IH i c rest).
Qed.

Lemma skipn_of_nth_error {A} (l : list A) :
  forall i c, nth_error l i = Some c -> skipn i l = c :: skipn (S i) l.
Proof.
  induction l as [|x l IH]; intros [|i] c H; simpl in *; try discriminate.
  - now injection H as ->.
  - now apply IH.
Qed.

Lemma wf_chars_nth (chars : list jsstring) (i : nat) (c : jsstring) :
  wf_chars chars -> nth_error chars i = Some c -> isCodePoint c = true.
Proof.
  unfold wf_chars. intros Hwf Hnth.
  rewrite forallb_forall in Hwf. apply Hwf.
  now apply nth_error_In with i.
Qed.

Lemma high_is_surrogate (u : N) : isHighSurrogate u = true -> isSurrogate u = true.
Proof. unfold isSurrogate. now intros ->. Qed.

(** A code point that starts with a code unit outside the surrogate range
    is that code unit alone. *)
Lemma codePoint_head (u : N) (c : jsstring) :
  isCodePoint (u :: c) = true -> isSurrogate u = false -> c = [].
Proof.
  destruct c as [|l [|x c]]; simpl; try easy.
  intros H Hu. apply andb_true_iff in H as [H _].
  apply high_is_surrogate in H. congruence.
Qed.

Section ParserFacts.

Variable chars : list jsstring.
Hypothesis chars_wf : wf_chars chars.

(** When the slice at the index starts with a code unit that is not a
    surrogate, the current code point is that code unit. *)
Lemma getSlice_head (i n : nat) (u : N) (s : jsstring) :
  getSlice chars i (i + n) = u :: s ->
  isSurrogate u = false ->
  current chars i = Some [u].
Proof.
  unfold getSlice, current. intros H Hu.
  destruct (skipn i chars) as [|c rest] eqn:E.
  - rewrite firstn_nil in H. discriminate.
  - pose proof (nth_error_of_skipn _ _ _ _ E) as Hnth.
    rewrite Hnth. f_equal.
    pose proof (wf_chars_nth _ _ _ chars_wf Hnth) as Hc.
    destruct (i + n - i) as [|k]; simpl in H; [discriminate|].
    destruct c as [|x c]; [discriminate|].
    simpl in H. injection H as -> _.
    now rewrite (codePoint_head _ _ Hc Hu).
Qed.

(* ----------------------------------------------------------------- *)
(** *** The cursor *)

Lemma done_false (i : nat) : done chars i = false <-> i < length chars.
Proof. unfold done. now rewrite Nat.leb_gt. Qed.

Lemma done_true (i : nat) : done chars i = true <-> length chars <= i.
Proof. unfold done. now rewrite Nat.leb_le. Qed.

Lemma current_done (i : nat) : done chars i = true -> current chars i = None.
Proof. rewrite done_true. unfold current. now rewrite nth_error_None. Qed.

(** [match] either throws and leaves the index alone, or returns after it
    has advanced by the length of one of the candidates. *)
Lemma match_inv (lookahead : list jsstring) (i : nat) :
  match_ chars lookahead i = (Throw, i)
  \/ exists s, In s lookahead /\ match_ chars lookahead i = (Return tt, i + length s).
Proof.
  induction lookahead as [|s rest IH]; simpl.
  - now left.
  - destruct (strictEq _ s).
    + right. exists s. split; [now left | reflexivity].
    + destruct IH as [IH | (s' & Hin & IH)]; [now left|].
      right. exists s'. split; [now right | assumption].
Qed.

(* ----------------------------------------------------------------- *)
(** *** [parseText] *)

Lemma parseText_loop_mono (fuel : nat) :
  forall end_ text i, i <= snd (parseText_loop chars fuel end_ text i).
Proof.
  induction fuel as [|fuel IH]; intros end_ text i; simpl; [lia|].
  destruct (done chars i); simpl; [lia|].
  destruct (_ && _).
  - specialize (IH end_ (text ++ str_of (current chars (i + 1))) (i + 1 + 1)). lia.
  - destruct (_ || _); simpl; [lia|].
    specialize (IH end_ (text ++ str_of (current chars i)) (i + 1)). lia.
Qed.

(** The loop leaves the text alone when it leaves the index alone. *)
Lemma parseText_loop_still (fuel : nat) (end_ text : jsstring) (i : nat) :
  snd (parseText_loop chars fuel end_ text i) = i ->
  fst (parseText_loop chars fuel end_ text i) = text.
Proof.
  destruct fuel as [|fuel]; simpl; [reflexivity|].
  destruct (done chars i); simpl; [reflexivity|].
  destruct (_ && _).
  - pose proof (parseText_loop_mono fuel end_
                  (text ++ str_of (current chars (i + 1))) (i + 1 + 1)). lia.
  - destruct (_ || _); simpl; [reflexivity|].
    pose proof (parseText_loop_mono fuel end_
                  (text ++ str_of (current chars i)) (i + 1)). lia.
Qed.

(** The number of code points left is fuel enough for the loop: more fuel
    changes nothing. *)
Lemma parseText_loop_fuel (fuel1 : nat) :
  forall fuel2 end_ text i,
    length chars - i <= fuel1 -> length chars - i <= fuel2 ->
    parseText_loop chars fuel1 end_ text i = parseText_loop chars fuel2 end_ text i.
Proof.
  induction fuel1 as [|fuel1 IH]; intros [|fuel2] end_ text i H1 H2; simpl;
    try reflexivity.
  - assert (done chars i = true) as -> by (apply done_true; lia). reflexivity.
  - assert (done chars i = true) as -> by (apply done_true; lia). reflexivity.
  - destruct (done chars i) eqn:Hd; [reflexivity|].
    apply done_false in Hd.
    destruct (_ && _).
    + apply IH; lia.
    + destruct (_ || _); [reflexivity|]. apply IH; lia.
Qed.

Lemma parseText_mono (end_ : jsstring) (i : nat) :
  i <= snd (parseText chars end_ i).
Proof. apply parseText_loop_mono. Qed.

Lemma parseText_still (end_ : jsstring) (i : nat) :
  snd (parseText chars end_ i) = i -> fst (parseText chars end_ i) = [].
Proof. apply parseText_loop_still. Qed.

(** One iteration of [parseText] at an escape: the backslash and the code
    point after it are consumed, and that code point is appended as it is. *)
Lemma parseText_loop_escape (fuel : nat) (end_ text : jsstring) (i : nat) :
  current chars i = Some BACKSLASH ->
  i + 1 < length chars ->
  parseText_loop chars (S fuel) end_ text i
  = parseText_loop chars fuel end_ (text ++ str_of (current chars (i + 1))) (i + 2).
Proof.
  intros Hcur Hnext. simpl.
  assert (done chars i = false) as -> by (apply done_false; lia).
  rewrite Hcur. simpl.
  assert ((i + 1 <? length chars) = true) as -> by now apply Nat.ltb_lt.
  now replace (i + 1 + 1) with (i + 2) by lia.
Qed.

(** The text is an accumulator: what the loop returns is the text it was
    given followed by what it scanned. *)
Lemma parseText_loop_acc (fuel : nat) :
  forall end_ text i,
    parseText_loop chars fuel end_ text i
    = (text ++ fst (parseText_loop chars fuel end_ [] i),
       snd (parseText_loop chars fuel end_ [] i)).
Proof.
  induction fuel as [|fuel IH]; intros end_ text i; simpl.
  - now rewrite app_nil_r.
  - destruct (done chars i); simpl; [now rewrite app_nil_r|].
    destruct (_ && _).
    + rewrite (IH end_ (text ++ _)), (IH end_ (str_of _)). simpl.
      now rewrite app_assoc.
    + destruct (_ || _); simpl; [now rewrite app_nil_r|].
      rewrite (IH end_ (text ++ _)), (IH end_ (str_of _)). simpl.
      now rewrite app_assoc.
Qed.

(** With the empty terminator [parseText] stops at the first code point
    that is not escaped. *)
Lemma parseText_empty_stop (i : nat) :
  (strictEq (current chars i) BACKSLASH && (i + 1 <? length chars)) = false ->
  parseText chars [] i = ([], i).
Proof.
  intros H. unfold parseText.
  destruct (length chars - i) as [|fuel]; simpl; [reflexivity|].
  destruct (done chars i); [reflexivity|].
  now rewrite H.
Qed.

(* ----------------------------------------------------------------- *)
(** *** Newlines *)

Lemma skipNewlines_loop_mono (fuel : nat) :
  forall i, i <= skipNewlines_loop chars fuel i.
Proof.
  induction fuel as [|fuel IH]; intros i; cbn [skipNewlines_loop]; [lia|].
  destruct (existsb (strictEq (current chars i)) NEWLINE); [|lia].
  specialize (IH (i + 1)). lia.
Qed.

Lemma skipNewlines_progress (i : nat) :
  existsb (strictEq (current chars i)) NEWLINE = true ->
  i < skipNewlines chars i.
Proof.
  intros H. unfold skipNewlines.
  destruct (done chars i) eqn:Hd.
  - apply current_done in Hd. rewrite Hd in H. discriminate.
  - apply done_false in Hd.
    destruct (length chars - i) as [|fuel] eqn:E; [lia|].
    cbn [skipNewlines_loop]. rewrite H. pose proof (skipNewlines_loop_mono fuel (i + 1)). lia.
Qed.

(** The loop over the newlines is left where the condition of the [while]
    fails: the fuel it is given is enough. *)
Lemma skipNewlines_loop_exit (fuel : nat) :
  forall i, length chars - i <= fuel ->
    existsb (strictEq (current chars (skipNewlines_loop chars fuel i))) NEWLINE
    = false.
Proof.
  induction fuel as [|fuel IH]; intros i H; cbn [skipNewlines_loop].
  - rewrite current_done; [reflexivity | apply done_true; lia].
  - destruct (existsb (strictEq (current chars i)) NEWLINE) eqn:E; [|assumption].
    apply IH. lia.
Qed.

Lemma skipNewlines_exit (i : nat) :
  existsb (strictEq (current chars (skipNewlines chars i))) NEWLINE = false.
Proof. apply skipNewlines_loop_exit. lia. Qed.

(** A blank line starts with a carriage return or a line feed. *)
Lemma new_paragraph_current (i : nat) :
  matches chars NEW_PARAGRAPH i = true ->
  current chars i = Some CR \/ current chars i = Some LF.
Proof.
  unfold matches. rewrite existsb_exists.
  intros (p & Hin & Hp). apply strictEq_eq in Hp.
  cbv in Hin.
  repeat (destruct Hin as [<- | Hin];
          [ cbn in Hp; injection Hp as Hp;
            first [ left; now apply (getSlice_head i _ 13%N _ Hp)
                  | right; now apply (getSlice_head i _ 10%N _ Hp) ] | ]).
  contradiction.
Qed.

Lemma current_newline (i : nat) :
  current chars i = Some CR \/ current chars i = Some LF ->
  existsb (strictEq (current chars i)) NEWLINE = true
  /\ matches chars NEWLINE i = true.
Proof.
  unfold matches, lookAhead.
  intros [H | H]; cbn; rewrite H; (split; [reflexivity|]);
    now destruct (str_eqb (getSlice chars i (i + 2)) (13%N :: LF)).
Qed.

End ParserFacts.

Section ParseCurrentFacts.

Variable chars : list jsstring.

Lemma match_one (s : jsstring) (j : nat) :
  match_ chars [s] j
  = if strictEq (lookAhead chars (length s) j) s
    then (Return tt, j + length s) else (Throw, j).
Proof. reflexivity. Qed.

(** The opening delimiter of an emphasis is one or two code units. *)
Lemma emphasis_delimiter (i : nat) :
  (strictEq (lookAhead chars 1 i) (js "*")
   || strictEq (lookAhead chars 1 i) (js "_")) = true ->
  let delimiter :=
    if matches chars [js "**"] i then js "**" else str_of (lookAhead chars 1 i) in
  delimiter = js "**" \/ delimiter = js "*" \/ delimiter = js "_".
Proof.
  intros H. apply orb_true_iff in H.
  destruct (matches chars [js "**"] i); [now left | right].
  destruct H as [H | H]; apply strictEq_eq in H; rewrite H; auto.
Qed.

(** What a call of [parseCurrent] can have done when it is over: every
    node it returns was built after the index advanced, and the nodes with
    nested content hold what a call of [parseNext] with a terminator
    returned further on in the input. *)
Lemma parseCurrent_inv (pn : jsstring -> M MarkdownNode) (i : nat)
    (o : outcome (option MarkdownNode)) (i' : nat) :
  parseCurrent_ chars pn i = (o, i') ->
  match o with
  | Return None => True
  | Throw => True
  | OutOfFuel => exists e j j', e <> [] /\ i < j /\ pn e j = (OutOfFuel, j')
  | Return (Some n) =>
      (i < i' /\ ((exists c, n = Code c) \/ (exists s a, n = Image s a)))
      \/ exists e j m j',
           e <> [] /\ i < j /\ pn e j = (Return m, j') /\ j' <= i'
           /\ (n = Italic m \/ n = Bold m \/ n = Strike m
               \/ exists h, n = Link h m)
  end.
Proof.
  unfold parseCurrent_, bind, get, ret, call, advance. intros H.
  destruct (strictEq (lookAhead chars 1 i) (js "*")
            || strictEq (lookAhead chars 1 i) (js "_")) eqn:Hemph.
  { (* '*' and '_' *)
    cbv beta in H.
    pose proof (emphasis_delimiter i Hemph) as Hd. cbv zeta in Hd.
    set (delimiter := if matches chars [js "**"] i then js "**"
                      else str_of (lookAhead chars 1 i)) in *.
    assert (delimiter <> [] /\ 1 <= length delimiter) as [Hne Hlen]
      by (destruct Hd as [-> | [-> | ->]]; split; cbn; (discriminate || lia)).
    destruct (pn delimiter (i + length delimiter)) as [[m| |] j'] eqn:Hpn.
    - rewrite match_one in H.
      destruct (strictEq _ delimiter); injection H as <- <-; [|exact I].
      right. exists delimiter, (i + length delimiter), m, j'.
      repeat split; try assumption; try lia.
      destruct (length delimiter =? 1); auto.
    - injection H as <- <-. exact I.
    - injection H as <- <-.
      exists delimiter, (i + length delimiter), j'.
      repeat split; try assumption; lia. }
  destruct (strictEq (lookAhead chars 1 i) (js "~")).
  { (* '~' *)
    cbv beta in H. rewrite match_one in H.
    destruct (strictEq _ (js "~~")); [|injection H as <- <-; exact I].
    destruct (pn (js "~~") (i + length (js "~~"))) as [[m| |] j'] eqn:Hpn.
    - rewrite match_one in H.
      destruct (strictEq _ (js "~~")); injection H as <- <-; [|exact I].
      right. exists (js "~~"), (i + length (js "~~")), m, j'.
      repeat split; try assumption; cbn; try lia; try discriminate. auto.
    - injection H as <- <-. exact I.
    - injection H as <- <-.
      exists (js "~~"), (i + length (js "~~")), j'.
      repeat split; try assumption; cbn; try lia; discriminate. }
  destruct (strictEq (lookAhead chars 1 i) (js "`")).
  { (* '`' *)
    cbv beta in H.
    destruct (matches chars [js "```"] i); [injection H as <- <-; exact I|].
    cbv beta in H.
    set (delimiter := if matches chars [js "``"] i then js "``" else js "`") in *.
    assert (1 <= length delimiter) as Hlen
      by (unfold delimiter; destruct (matches chars [js "``"] i); cbn; lia).
    rewrite match_one in H.
    destruct (strictEq _ delimiter); [|injection H as <- <-; exact I].
    pose proof (parseText_mono chars delimiter (i + length delimiter)) as Hmono.
    destruct (parseText chars delimiter (i + length delimiter)) as [scanned j].
    simpl in Hmono.
    destruct (matches chars [js "```"] j); [injection H as <- <-; exact I|].
    cbv beta in H. rewrite match_one in H.
    destruct (strictEq _ delimiter); injection H as <- <-; [|exact I].
    left. split; [lia|]. left. now exists (trim scanned). }
  destruct (strictEq (lookAhead chars 1 i) (js "!")).
  { (* '!' *)
    cbv beta in H. rewrite match_one in H.
    destruct (strictEq _ (js "[")); [|injection H as <- <-; exact I].
    pose proof (parseText_mono chars (js "]") (i + 1 + length (js "["))) as Hm1.
    destruct (parseText chars (js "]") (i + 1 + length (js "["))) as [alt j1].
    simpl in Hm1. rewrite match_one in H.
    destruct (strictEq _ (js "](")); [|injection H as <- <-; exact I].
    pose proof (parseText_mono chars (js ")") (j1 + length (js "]("))) as Hm2.
    destruct (parseText chars (js ")") (j1 + length (js "]("))) as [src j2].
    simpl in Hm2. rewrite match_one in H.
    destruct (strictEq _ (js ")")); injection H as <- <-; [|exact I].
    left. split; [cbn in *; lia|]. right. now exists src, alt. }
  destruct (strictEq (lookAhead chars 1 i) (js "[")).
  { (* '[' *)
    cbv beta in H.
    destruct (pn (js "]") (i + 1)) as [[m| |] j'] eqn:Hpn.
    - rewrite match_one in H.
      destruct (strictEq _ (js "](")); [|injection H as <- <-; exact I].
      pose proof (parseText_mono chars (js ")") (j' + length (js "]("))) as Hm.
      destruct (parseText chars (js ")") (j' + length (js "]("))) as [href j2].
      simpl in Hm. rewrite match_one in H.
      destruct (strictEq _ (js ")")); injection H as <- <-; [|exact I].
      right. exists (js "]"), (i + 1), m, j'.
      repeat split; try assumption; cbn in *; try lia; try discriminate.
      right. right. right. now exists href.
    - injection H as <- <-. exact I.
    - injection H as <- <-. exists (js "]"), (i + 1), j'.
      repeat split; try assumption; try lia. discriminate. }
  injection H as <- <-. exact I.
Qed.

End ParseCurrentFacts.

Section LoopFacts.

Variable chars : list jsstring.
Hypothesis chars_wf : wf_chars chars.

Lemma parseNext_loop_S (fuel : nat) (end_ : jsstring)
    (root : list MarkdownNode) (text : jsstring) (i : nat) :
  parseNext_loop chars (S fuel) end_ root text i
  = match iteration chars (parseCurrent chars fuel) end_ root text i with
    | Break j => (Return (root, text), j)
    | Continue root' text' j => parseNext_loop chars fuel end_ root' text' j
    | Exhausted j => (OutOfFuel, j)
    end.
Proof. reflexivity. Qed.

(** The three ways an iteration goes on to the next one: with the children
    as they were and more pending text, after the promotion to paragraphs at
    a blank line (which happens only without a terminator, because a newline
    ends a nested call), or after a node of [parseCurrent] was pushed. *)
Lemma iteration_inv (pc : M (option MarkdownNode)) (end_ : jsstring)
    (root : list MarkdownNode) (text : jsstring) (i : nat) :
  match iteration chars pc end_ root text i with
  | Break j => i <= j
  | Exhausted j =>
      done chars i = false /\ exists i1, i <= i1 /\ pc i1 = (OutOfFuel, j)
  | Continue root' text' j =>
      done chars i = false
      /\ ((root' = root /\ i < j)
          \/ (end_ = [] /\ (root', text') = promote root text /\ i < j)
          \/ (exists n i1,
                i <= i1 /\ pc i1 = (Return (Some n), j)
                /\ root' = pushToParent root
                     ((if negb (str_eqb text []) then [Text text] else []) ++ [n])
                /\ text' = []))
  end.
Proof.
  unfold iteration.
  destruct (done chars i) eqn:Hdone; [lia|].
  pose proof (parseText_mono chars [] i) as Hmono.
  pose proof (parseText_still chars [] i) as Hstill.
  destruct (parseText chars [] i) as [escapedText i1]. simpl in Hmono, Hstill.
  destruct (negb (str_eqb escapedText [])) eqn:Hesc.
  { split; [reflexivity|]. left. split; [reflexivity|].
    destruct (Nat.eq_dec i1 i) as [E|E]; [|lia].
    rewrite (Hstill E) in Hesc. discriminate. }
  destruct (negb (str_eqb end_ [])
            && (matches chars [end_] i1 || matches chars NEWLINE i1)) eqn:Hstop;
    [lia|].
  destruct (matches chars NEW_PARAGRAPH i1) eqn:Hpar.
  { pose proof (new_paragraph_current chars chars_wf i1 Hpar) as Hcur.
    apply current_newline in Hcur as [Hnl Hm].
    apply skipNewlines_progress in Hnl.
    destruct (promote root text) as [root' text'].
    split; [reflexivity|]. right. left. repeat split; [|lia].
    rewrite Hm, orb_true_r, andb_true_r in Hstop.
    apply negb_false_iff, str_eqb_eq in Hstop. assumption. }
  destruct (pc i1) as [[[n|]| |] j] eqn:Hpc.
  - split; [reflexivity|]. right. right. exists n, i1. auto.
  - split; [reflexivity|]. left. split; [reflexivity | lia].
  - split; [reflexivity|]. left. split; [reflexivity | lia].
  - split; [reflexivity|]. exists i1. auto.
Qed.

(** A total [parseNext] makes [parseCurrent] advance when it returns a
    node, and keeps it from running out of fuel. *)
Lemma parseCurrent_progress (fuel : nat) (i : nat) :
  (forall e j, i < j ->
     exists m j', parseNext chars fuel e j = (Return m, j') /\ j <= j') ->
  match parseCurrent chars fuel i with
  | (Return (Some _), j) => i < j
  | (OutOfFuel, _) => False
  | _ => True
  end.
Proof.
  intros Hpn. unfold parseCurrent.
  destruct (parseCurrent_ chars (parseNext chars fuel) i) as [o j] eqn:E.
  apply parseCurrent_inv in E.
  destruct o as [[n|]| |]; try exact I.
  - destruct E as [[Hlt _] | (e & j1 & m & j' & _ & Hlt & Hcall & Hle & _)];
      [assumption|].
    destruct (Hpn e j1 Hlt) as (m' & j'' & Hcall' & Hle').
    rewrite Hcall in Hcall'. injection Hcall' as _ <-. lia.
  - destruct E as (e & j1 & j' & _ & Hlt & Hcall).
    destruct (Hpn e j1 Hlt) as (m' & j'' & Hcall' & _).
    rewrite Hcall in Hcall'. discriminate.
Qed.

(** The loop of [parseNext] is left, and neither by an exception nor for
    lack of fuel, when the fuel is more than the number of code points left. *)
Lemma parseNext_loop_total (fuel : nat) :
  forall end_ root text i,
    length chars - i < fuel ->
    exists root' text' j,
      parseNext_loop chars fuel end_ root text i = (Return (root', text'), j)
      /\ i <= j.
Proof.
  induction fuel as [|fuel IH]; intros end_ root text i Hfuel; [lia|].
  assert (Hpn : forall e j, length chars - j < fuel ->
            exists m j', parseNext chars fuel e j = (Return m, j') /\ j <= j').
  { intros e j Hj. unfold parseNext.
    destruct (IH e [] [] j Hj) as (r & t & j' & -> & Hle).
    now exists (finish r t), j'. }
  rewrite parseNext_loop_S.
  pose proof (iteration_inv (parseCurrent chars fuel) end_ root text i) as Hit.
  destruct (iteration chars (parseCurrent chars fuel) end_ root text i)
    as [j | root' text' j | j].
  - now exists root, text, j.
  - destruct Hit as [Hdone Hit]. apply done_false in Hdone.
    assert (i < j) as Hlt.
    { destruct Hit as [[_ H] | [(_ & _ & H) | (n & i1 & Hle & Hpc & _)]];
        try assumption.
      pose proof (parseCurrent_progress fuel i1) as Hprog.
      rewrite Hpc in Hprog. enough (i1 < j) by lia.
      apply Hprog. intros e j1 Hj1. apply Hpn. lia. }
    destruct (IH end_ root' text' j) as (r & t & j' & E & Hle); [lia|].
    exists r, t, j'. split; [assumption | lia].
  - destruct Hit as [Hdone (i1 & Hle & Hpc)]. apply done_false in Hdone.
    pose proof (parseCurrent_progress fuel i1) as Hprog.
    rewrite Hpc in Hprog. exfalso. apply Hprog.
    intros e j1 Hj1. apply Hpn. lia.
Qed.

Lemma parseNext_total (fuel : nat) (end_ : jsstring) (i : nat) :
  length chars - i < fuel ->
  exists node j, parseNext chars fuel end_ i = (Return node, j) /\ i <= j.
Proof.
  intros Hfuel. unfold parseNext.
  destruct (parseNext_loop_total fuel end_ [] [] i Hfuel) as (r & t & j & -> & Hle).
  now exists (finish r t), j.
Qed.

End LoopFacts.

(* ================================================================= *)
(** ** The children of the root *)

Lemma snoc_cases {A} (l : list A) :
  l = [] \/ exists init c, l = init ++ [c].
Proof.
  destruct l as [|x l]; [now left | right].
  destruct (exists_last (l := x :: l)) as (init & c & E); [discriminate|].
  now exists init, c.
Qed.

Lemma lastChild_nil : lastChild [] = None.
Proof. reflexivity. Qed.

Lemma lastChild_snoc (init : list MarkdownNode) (c : MarkdownNode) :
  lastChild (init ++ [c]) = Some c.
Proof.
  unfold lastChild. rewrite length_app. simpl.
  replace (length init + 1 - 1) with (length init) by lia.
  rewrite nth_error_app2 by lia. now rewrite Nat.sub_diag.
Qed.

Lemma pushToParent_nil (nodes : list MarkdownNode) :
  pushToParent [] nodes = nodes.
Proof. reflexivity. Qed.

Lemma pushToParent_snoc (init : list MarkdownNode) (c : MarkdownNode)
    (nodes : list MarkdownNode) :
  pushToParent (init ++ [c]) nodes
  = match c with
    | Paragraph cs => init ++ [Paragraph (cs ++ nodes)]
    | _ => (init ++ [c]) ++ nodes
    end.
Proof.
  unfold pushToParent, pushIntoLast. rewrite lastChild_snoc.
  destruct c; simpl; try reflexivity.
  now rewrite removelast_last.
Qed.

Lemma popEmptyParagraph_snoc (init : list MarkdownNode) (c : MarkdownNode) :
  popEmptyParagraph (init ++ [c])
  = match c with
    | Paragraph [] => init
    | _ => init ++ [c]
    end.
Proof.
  unfold popEmptyParagraph. rewrite lastChild_snoc.
  destruct c as [| [|] | | | | | | |]; try reflexivity.
  apply removelast_last.
Qed.

Lemma promote_nil (text : jsstring) :
  promote [] text
  = if negb (str_eqb text []) then ([Paragraph [Text text]; Paragraph []], [])
    else ([], text).
Proof. unfold promote. simpl. now destruct (negb (str_eqb text [])). Qed.

Lemma promote_snoc (init : list MarkdownNode) (c : MarkdownNode) (text : jsstring) :
  promote (init ++ [c]) text
  = let pending := if negb (str_eqb text []) then [Text text] else [] in
    (match c with
     | Paragraph cs => init ++ [Paragraph (cs ++ pending); Paragraph []]
     | _ => [Paragraph ((init ++ [c]) ++ pending); Paragraph []]
     end, []).
Proof.
  unfold promote, pushIntoLast.
  assert ((0 <? length (init ++ [c])) = true) as ->
    by (apply Nat.ltb_lt; rewrite length_app; simpl; lia).
  rewrite orb_true_r, lastChild_snoc.
  destruct (negb (str_eqb text [])) eqn:E; destruct c; simpl;
    rewrite ?lastChild_snoc, ?removelast_last, ?app_nil_r, <- ?app_assoc;
    try reflexivity;
    try (apply negb_false_iff, str_eqb_eq in E; now subst).
Qed.


Lemma allFlat_push (root nodes : list MarkdownNode) :
  allFlat root -> allFlat nodes -> allFlat (pushToParent root nodes).
Proof.
  unfold allFlat. intros Hroot Hnodes.
  destruct (snoc_cases root) as [-> | (init & c & ->)]; [assumption|].
  rewrite pushToParent_snoc.
  rewrite forallb_app in Hroot. apply andb_true_iff in Hroot as [Hinit Hc].
  cbn [forallb] in Hc. rewrite andb_true_r in Hc.
  destruct c; try discriminate;
    rewrite !forallb_app, Hinit, Hnodes; cbn [forallb]; now rewrite Hc.
Qed.

Lemma topOk_push (root nodes : list MarkdownNode) :
  topOk root -> allFlat nodes -> topOk (pushToParent root nodes).
Proof.
  intros [Hflat | Hpar] Hnodes; [left; now apply allFlat_push|].
  destruct (snoc_cases root) as [-> | (init & c & ->)]; [now left | right].
  unfold allParagraphs, allFlat in *.
  rewrite pushToParent_snoc.
  rewrite forallb_app in Hpar. apply andb_true_iff in Hpar as [Hinit Hc].
  simpl in Hc. rewrite andb_true_r in Hc.
  destruct c; try discriminate.
  rewrite forallb_app, Hinit. simpl in *.
  now rewrite forallb_app, Hc, Hnodes.
Qed.

Lemma pending_allFlat (text : jsstring) (nodes : list MarkdownNode) :
  allFlat nodes ->
  allFlat ((if negb (str_eqb text []) then [Text text] else []) ++ nodes).
Proof. now destruct (negb (str_eqb text [])). Qed.

Lemma topOk_promote (root : list MarkdownNode) (text : jsstring) :
  topOk root -> topOk (fst (promote root text)).
Proof.
  intros Hroot.
  destruct (snoc_cases root) as [-> | (init & c & ->)].
  - rewrite promote_nil. destruct (negb (str_eqb text [])); [now right | now left].
  - rewrite promote_snoc. cbv zeta. cbn [fst]. right.
    pose proof (pending_allFlat text [] eq_refl) as Hpend.
    rewrite app_nil_r in Hpend.
    set (pending := if negb (str_eqb text []) then [Text text] else []) in *.
    unfold topOk, allParagraphs, allFlat in *.
    destruct Hroot as [Hflat | Hpar].
    + assert (flatParagraph (Paragraph ((init ++ [c]) ++ pending)) = true) as Hp
        by (cbn [flatParagraph]; now rewrite forallb_app, Hflat, Hpend).
      rewrite forallb_app in Hflat. apply andb_true_iff in Hflat as [_ Hc].
      cbn [forallb] in Hc. rewrite andb_true_r in Hc.
      destruct c; try discriminate; cbn [forallb]; now rewrite Hp.
    + rewrite forallb_app in Hpar. apply andb_true_iff in Hpar as [Hinit Hc].
      simpl in Hc. rewrite andb_true_r in Hc.
      destruct c; try discriminate.
      rewrite forallb_app, Hinit. simpl in *.
      now rewrite forallb_app, Hc, Hpend.
Qed.

Lemma noFragment_push (root nodes : list MarkdownNode) :
  noFragment root -> noFragment nodes -> noFragment (pushToParent root nodes).
Proof.
  unfold noFragment. intros Hroot Hnodes.
  destruct (snoc_cases root) as [-> | (init & c & ->)]; [assumption|].
  rewrite pushToParent_snoc.
  rewrite forallb_app in Hroot. apply andb_true_iff in Hroot as [Hinit Hc].
  destruct c; try discriminate;
    rewrite !forallb_app, Hinit, ?Hnodes; reflexivity.
Qed.

Lemma noFragment_promote (root : list MarkdownNode) (text : jsstring) :
  noFragment root -> noFragment (fst (promote root text)).
Proof.
  unfold noFragment. intros Hroot.
  destruct (snoc_cases root) as [-> | (init & c & ->)].
  - rewrite promote_nil. now destruct (negb (str_eqb text [])).
  - rewrite promote_snoc. cbv zeta. cbn [fst].
    rewrite forallb_app in Hroot. apply andb_true_iff in Hroot as [Hinit _].
    destruct c; try reflexivity.
    now rewrite forallb_app, Hinit.
Qed.

Lemma forallb_removelast {A} (f : A -> bool) (l : list A) :
  forallb f l = true -> forallb f (removelast l) = true.
Proof.
  destruct (snoc_cases l) as [-> | (init & c & ->)]; [auto|].
  rewrite removelast_last, forallb_app. intros H.
  now apply andb_true_iff in H.
Qed.

Lemma forallb_popEmptyParagraph (f : MarkdownNode -> bool) (root : list MarkdownNode) :
  forallb f root = true -> forallb f (popEmptyParagraph root) = true.
Proof.
  intros H. unfold popEmptyParagraph.
  destruct (lastChild root) as [[| [|] | | | | | | |]|]; try assumption.
  now apply forallb_removelast.
Qed.

Lemma collapse_cases (root : list MarkdownNode) :
  (exists c, root = [c] /\ collapse root = c)
  \/ (length root <> 1 /\ collapse root = Fragment root).
Proof.
  unfold collapse. destruct root as [|c [|c' root]]; simpl.
  - right. split; [lia | reflexivity].
  - left. now exists c.
  - right. split; [lia | reflexivity].
Qed.

Lemma flush_allFlat (root : list MarkdownNode) (text : jsstring) :
  allFlat root -> allFlat (flush root text).
Proof.
  intros H. unfold flush. destruct (negb (str_eqb text [])); [|assumption].
  now apply allFlat_push.
Qed.

Lemma flush_topOk (root : list MarkdownNode) (text : jsstring) :
  topOk root -> topOk (flush root text).
Proof.
  intros H. unfold flush. destruct (negb (str_eqb text [])); [|assumption].
  now apply topOk_push.
Qed.

Lemma flush_noFragment (root : list MarkdownNode) (text : jsstring) :
  noFragment root -> noFragment (flush root text).
Proof.
  intros H. unfold flush. destruct (negb (str_eqb text [])); [|assumption].
  now apply noFragment_push.
Qed.

(** What [parseNext] returns from children without a paragraph has no
    paragraph. *)
Lemma finish_allFlat (root : list MarkdownNode) (text : jsstring) :
  allFlat root -> noParagraph (finish root text) = true.
Proof.
  intros H. unfold finish.
  apply (flush_allFlat _ text), forallb_popEmptyParagraph in H.
  destruct (collapse_cases (popEmptyParagraph (flush root text)))
    as [(c & E & ->) | (_ & ->)].
  - rewrite E in H. simpl in H. now rewrite andb_true_r in H.
  - exact H.
Qed.

Lemma noParagraph_atTop (n : MarkdownNode) :
  noParagraph n = true -> paragraphsAtTopOnly n = true.
Proof.
  destruct n; simpl; try easy.
  intros H. rewrite forallb_forall in *. intros c Hc.
  now rewrite (H c Hc).
Qed.

Lemma finish_topOk (root : list MarkdownNode) (text : jsstring) :
  topOk root -> paragraphsAtTopOnly (finish root text) = true.
Proof.
  intros H. unfold finish. apply (flush_topOk _ text) in H.
  set (cs := popEmptyParagraph (flush root text)).
  assert (topOk cs) as Hcs
    by (destruct H as [H | H]; [left | right];
        now apply forallb_popEmptyParagraph).
  destruct (collapse_cases cs) as [(c & E & ->) | (_ & ->)].
  - rewrite E in Hcs. unfold topOk, allFlat, allParagraphs in Hcs. simpl in Hcs.
    rewrite !andb_true_r in Hcs. destruct Hcs as [Hc | Hc].
    + now apply noParagraph_atTop.
    + now destruct c.
  - simpl. rewrite forallb_forall. intros c Hc.
    destruct Hcs as [Hcs | Hcs]; unfold allFlat, allParagraphs in Hcs;
      rewrite forallb_forall in Hcs; rewrite (Hcs c Hc);
      [reflexivity | apply orb_true_r].
Qed.

Lemma finish_noFragment (root : list MarkdownNode) (text : jsstring) :
  noFragment root ->
  forall cs, finish root text = Fragment cs -> length cs <> 1.
Proof.
  intros H cs. unfold finish.
  apply (flush_noFragment _ text), forallb_popEmptyParagraph in H.
  destruct (collapse_cases (popEmptyParagraph (flush root text)))
    as [(c & E & ->) | (Hlen & ->)].
  - rewrite E in H. simpl in H. intros ->. discriminate.
  - now intros [= <-].
Qed.

(* ================================================================= *)
(** ** Invariants of the loop of [parseNext] *)

Section LoopInvariants.

Variable chars : list jsstring.
Hypothesis chars_wf : wf_chars chars.

(** An invariant of the children of the root: it is kept by the promotion
    to paragraphs, when the loop can reach it, and by the push of a node
    that [parseCurrent] returned. *)
Lemma parseNext_loop_invariant
    (Inv : list MarkdownNode -> Prop) (P : MarkdownNode -> Prop)
    (end_ : jsstring) :
  (end_ = [] -> forall root text, Inv root -> Inv (fst (promote root text))) ->
  (forall root text n, Inv root -> P n ->
     Inv (pushToParent root
            ((if negb (str_eqb text []) then [Text text] else []) ++ [n]))) ->
  forall fuel,
    (forall f i n j, f < fuel ->
       parseCurrent chars f i = (Return (Some n), j) -> P n) ->
    forall root text i root' text' j,
      Inv root ->
      parseNext_loop chars fuel end_ root text i = (Return (root', text'), j) ->
      Inv root'.
Proof.
  intros Hpromote Hpush.
  induction fuel as [|fuel IH]; intros Hpc root text i root' text' j Hinv E;
    [discriminate|].
  rewrite parseNext_loop_S in E.
  pose proof (iteration_inv chars chars_wf (parseCurrent chars fuel)
                end_ root text i) as Hit.
  destruct (iteration chars (parseCurrent chars fuel) end_ root text i)
    as [j0 | root1 text1 j0 | j0]; [| |discriminate].
  - now injection E as <- _ _.
  - apply (IH (fun f i0 n j1 Hf => Hpc f i0 n j1 (Nat.lt_lt_succ_r _ _ Hf))
              root1 text1 j0 root' text' j); [|assumption].
    destruct Hit as [_ [[-> _] | [(He & Hp & _) | (n & i1 & _ & Hn & -> & _)]]].
    + assumption.
    + replace root1 with (fst (promote root text)) by now rewrite <- Hp.
      now apply Hpromote.
    + apply Hpush; [assumption|].
      now apply (Hpc fuel i1 n j0 (Nat.lt_succ_diag_r fuel)).
Qed.

(** The nodes of [parseCurrent] are inline nodes, and they hold no
    paragraph when the nested calls of [parseNext] return none. *)
Lemma parseCurrent_node (fuel : nat) (i : nat) (n : MarkdownNode) (j : nat) :
  (forall e j1 m j', e <> [] ->
     parseNext chars fuel e j1 = (Return m, j') -> noParagraph m = true) ->
  parseCurrent chars fuel i = (Return (Some n), j) ->
  noParagraph n = true /\ isInline n = true.
Proof.
  intros Hpn E. apply parseCurrent_inv in E.
  destruct E as [(_ & [(c & ->) | (s & a & ->)])
                | (e & j1 & m & j' & He & _ & Hcall & _ & Hn)];
    try (split; reflexivity).
  apply (Hpn e j1 m j' He) in Hcall.
  destruct Hn as [-> | [-> | [-> | (h & ->)]]]; now split.
Qed.

(** A call of [parseNext] with a terminator returns children without a
    paragraph below them: a newline ends the call before the blank line is
    looked for. *)
Lemma nested_allFlat (fuel : nat) :
  forall end_ root text i root' text' j,
    end_ <> [] ->
    allFlat root ->
    parseNext_loop chars fuel end_ root text i = (Return (root', text'), j) ->
    allFlat root'.
Proof.
  induction fuel as [fuel IH] using lt_wf_ind.
  intros end_ root text i root' text' j Hend Hroot E.
  apply (parseNext_loop_invariant allFlat
           (fun n => noParagraph n = true /\ isInline n = true) end_)
    with (fuel := fuel) (root := root) (text := text) (i := i)
         (text' := text') (j := j); try assumption.
  - intros ->. contradiction.
  - intros r t n Hr [Hn _]. apply allFlat_push; [assumption|].
    apply pending_allFlat. unfold allFlat. simpl. now rewrite Hn.
  - intros f i0 n j0 Hf. apply parseCurrent_node.
    intros e j1 m j' He. unfold parseNext.
    destruct (parseNext_loop chars f e [] [] j1) as [[[r t]| |] j2] eqn:El;
      try discriminate.
    intros [= <- _]. apply finish_allFlat.
    now apply (IH f Hf e [] [] j1 r t j2).
Qed.

Lemma parseNext_noParagraph (fuel : nat) (end_ : jsstring) (i : nat)
    (node : MarkdownNode) (j : nat) :
  end_ <> [] ->
  parseNext chars fuel end_ i = (Return node, j) ->
  noParagraph node = true.
Proof.
  intros Hend. unfold parseNext.
  destruct (parseNext_loop chars fuel end_ [] [] i) as [[[r t]| |] j2] eqn:El;
    try discriminate.
  intros [= <- _]. apply finish_allFlat.
  now apply (nested_allFlat fuel end_ [] [] i r t j2).
Qed.

Lemma parseCurrent_inline (fuel : nat) (i : nat) (n : MarkdownNode) (j : nat) :
  parseCurrent chars fuel i = (Return (Some n), j) ->
  noParagraph n = true /\ isInline n = true.
Proof.
  apply parseCurrent_node. intros e j1 m j'. apply parseNext_noParagraph.
Qed.

(** The children of a root are without paragraphs, or they are paragraphs
    that hold none. *)
Lemma parseNext_loop_topOk (fuel : nat) (end_ : jsstring)
    (root : list MarkdownNode) (text : jsstring) (i : nat)
    (root' : list MarkdownNode) (text' : jsstring) (j : nat) :
  topOk root ->
  parseNext_loop chars fuel end_ root text i = (Return (root', text'), j) ->
  topOk root'.
Proof.
  apply (parseNext_loop_invariant topOk
           (fun n => noParagraph n = true /\ isInline n = true) end_).
  - intros _ r t. apply topOk_promote.
  - intros r t n Hr [Hn _]. apply topOk_push; [assumption|].
    apply pending_allFlat. unfold allFlat. simpl. now rewrite Hn.
  - intros f i0 n j0 _. apply parseCurrent_inline.
Qed.

(** No child of a root is a fragment. *)
Lemma parseNext_loop_noFragment (fuel : nat) (end_ : jsstring)
    (root : list MarkdownNode) (text : jsstring) (i : nat)
    (root' : list MarkdownNode) (text' : jsstring) (j : nat) :
  noFragment root ->
  parseNext_loop chars fuel end_ root text i = (Return (root', text'), j) ->
  noFragment root'.
Proof.
  apply (parseNext_loop_invariant noFragment
           (fun n => noParagraph n = true /\ isInline n = true) end_).
  - intros _ r t. apply noFragment_promote.
  - intros r t n Hr [_ Hn]. apply noFragment_push; [assumption|].
    unfold noFragment.
    destruct (negb (str_eqb t [])); destruct n; try discriminate; reflexivity.
  - intros f i0 n j0 _. apply parseCurrent_inline.
Qed.

End LoopInvariants.

(* ================================================================= *)
(** ** More fuel changes nothing *)

Section Fuel.

Variable chars : list jsstring.

Lemma parseCurrent_ext (pn1 pn2 : jsstring -> M MarkdownNode) (i : nat) :
  (forall e j, fst (pn1 e j) <> OutOfFuel -> pn2 e j = pn1 e j) ->
  fst (parseCurrent_ chars pn1 i) <> OutOfFuel ->
  parseCurrent_ chars pn2 i = parseCurrent_ chars pn1 i.
Proof.
  intros Hext. unfold parseCurrent_, bind, get, advance.
  destruct (strictEq (lookAhead chars 1 i) (js "*")
            || strictEq (lookAhead chars 1 i) (js "_")).
  { cbv beta.
    set (delimiter := if matches chars [js "**"] i then js "**"
                      else str_of (lookAhead chars 1 i)).
    specialize (Hext delimiter (i + length delimiter)).
    destruct (pn1 delimiter (i + length delimiter)) as [[m| |] j] eqn:E;
      intros Hne; try (rewrite Hext by discriminate; reflexivity).
    now contradiction Hne. }
  destruct (strictEq (lookAhead chars 1 i) (js "~")).
  { cbv beta. destruct (match_ chars [js "~~"] i) as [[[]| |] j0]; try reflexivity.
    specialize (Hext (js "~~") j0).
    destruct (pn1 (js "~~") j0) as [[m| |] j] eqn:E;
      intros Hne; try (rewrite Hext by discriminate; reflexivity).
    now contradiction Hne. }
  destruct (strictEq (lookAhead chars 1 i) (js "`")); [reflexivity|].
  destruct (strictEq (lookAhead chars 1 i) (js "!")); [reflexivity|].
  destruct (strictEq (lookAhead chars 1 i) (js "[")); [|reflexivity].
  cbv beta. specialize (Hext (js "]") (i + 1)).
  destruct (pn1 (js "]") (i + 1)) as [[m| |] j] eqn:E;
    intros Hne; try (rewrite Hext by discriminate; reflexivity).
  now contradiction Hne.
Qed.

Lemma iteration_ext (pc1 pc2 : M (option MarkdownNode)) (end_ : jsstring)
    (root : list MarkdownNode) (text : jsstring) (i : nat) :
  (forall j, fst (pc1 j) <> OutOfFuel -> pc2 j = pc1 j) ->
  (forall j, iteration chars pc1 end_ root text i <> Exhausted j) ->
  iteration chars pc2 end_ root text i = iteration chars pc1 end_ root text i.
Proof.
  intros Hext. unfold iteration.
  destruct (done chars i); [reflexivity|].
  destruct (parseText chars [] i) as [escapedText i1].
  destruct (negb (str_eqb escapedText [])); [reflexivity|].
  destruct (negb (str_eqb end_ []) && _); [reflexivity|].
  destruct (matches chars NEW_PARAGRAPH i1); [reflexivity|].
  specialize (Hext i1).
  destruct (pc1 i1) as [[[n|]| |] j] eqn:E; intros Hne;
    try (rewrite Hext by discriminate; reflexivity).
  now contradiction (Hne j).
Qed.

Lemma parseNext_loop_fuel_S (fuel : nat) :
  forall end_ root text i,
    fst (parseNext_loop chars fuel end_ root text i) <> OutOfFuel ->
    parseNext_loop chars (S fuel) end_ root text i
    = parseNext_loop chars fuel end_ root text i.
Proof.
  induction fuel as [|fuel IH]; intros end_ root text i Hne;
    [now contradiction Hne|].
  rewrite (parseNext_loop_S chars (S fuel)), (parseNext_loop_S chars fuel).
  rewrite (parseNext_loop_S chars fuel) in Hne.
  rewrite (iteration_ext (parseCurrent chars fuel) (parseCurrent chars (S fuel))).
  - destruct (iteration chars (parseCurrent chars fuel) end_ root text i);
      try reflexivity.
    now apply IH.
  - intros j. apply parseCurrent_ext. intros e j1. unfold parseNext.
    intros Hcall. rewrite IH; [reflexivity|].
    now destruct (parseNext_loop chars fuel e [] [] j1) as [[[r t]| |] j2].
  - intros j E. rewrite E in Hne. now contradiction Hne.
Qed.

Lemma parseNext_loop_fuel_le (fuel fuel' : nat) (end_ : jsstring)
    (root : list MarkdownNode) (text : jsstring) (i : nat) :
  fuel <= fuel' ->
  fst (parseNext_loop chars fuel end_ root text i) <> OutOfFuel ->
  parseNext_loop chars fuel' end_ root text i
  = parseNext_loop chars fuel end_ root text i.
Proof.
  intros Hle Hne. induction Hle as [|fuel' Hle IH]; [reflexivity|].
  rewrite parseNext_loop_fuel_S; [assumption|]. now rewrite IH.
Qed.

Lemma parseNext_fuel_le (fuel fuel' : nat) (end_ : jsstring) (i : nat)
    (node : MarkdownNode) (j : nat) :
  fuel <= fuel' ->
  parseNext chars fuel end_ i = (Return node, j) ->
  parseNext chars fuel' end_ i = (Return node, j).
Proof.
  unfold parseNext. intros Hle E.
  rewrite (parseNext_loop_fuel_le fuel fuel'); [assumption.. |].
  now destruct (parseNext_loop chars fuel end_ [] [] i) as [[[r t]| |] j2].
Qed.

End Fuel.

(* ================================================================= *)
(** ** Literal matches *)

Lemma high_not_plain (h u : N) :
  isHighSurrogate h = true -> isSurrogate u = false -> N.eqb h u = false.
Proof.
  intros Hh Hu. destruct (N.eqb h u) eqn:E; [|reflexivity].
  apply N.eqb_eq in E. subst u.
  apply high_is_surrogate in Hh. congruence.
Qed.

(** The first code points of a well-formed array, as many as [s] has code
    units, spell [s] exactly when the text of the array starts with [s]:
    a surrogate pair never begins a string without surrogates. *)
Lemma slice_startsWith (s : jsstring) :
  forall l : list jsstring,
    wf_chars l -> noSurrogate s = true ->
    str_eqb (concat (firstn (length s) l)) s = startsWith (concat l) s.
Proof.
  unfold wf_chars, noSurrogate.
  induction s as [|u s IH]; intros l Hl Hs; [reflexivity|].
  simpl in Hs. apply andb_true_iff in Hs as [Hu Hs].
  apply negb_true_iff in Hu.
  destruct l as [|c l]; [reflexivity|].
  simpl in Hl. apply andb_true_iff in Hl as [Hc Hl].
  destruct c as [|x [|y [|z c]]]; try discriminate; simpl.
  - now rewrite (IH l Hl Hs).
  - apply andb_true_iff in Hc as [Hx _].
    now rewrite (high_not_plain x u Hx Hu).
Qed.

Lemma wf_chars_skipn (chars : list jsstring) (i : nat) :
  wf_chars chars -> wf_chars (skipn i chars).
Proof.
  unfold wf_chars. rewrite !forallb_forall. intros H c Hc.
  apply H. rewrite <- (firstn_skipn i chars). apply in_or_app. now right.
Qed.

(** The test of [matches] and [match] is the literal match of a candidate
    without surrogates. *)
Lemma lookAhead_literal (chars : list jsstring) (s : jsstring) (i : nat) :
  wf_chars chars -> noSurrogate s = true ->
  strictEq (lookAhead chars (length s) i) s = literallyAt chars s i.
Proof.
  intros Hwf Hs. unfold lookAhead, literallyAt.
  rewrite <- (slice_startsWith s (skipn i chars) (wf_chars_skipn _ i Hwf) Hs).
  destruct (length s =? 1) eqn:Hlen.
  - apply Nat.eqb_eq in Hlen. rewrite Hlen. unfold current.
    destruct (nth_error chars i) as [c|] eqn:Hnth.
    + rewrite (skipn_of_nth_error _ _ _ Hnth). simpl.
      now rewrite app_nil_r.
    + apply nth_error_None in Hnth. rewrite skipn_all2 by assumption.
      destruct s as [|u [|v s]]; try discriminate. reflexivity.
  - unfold getSlice, strictEq.
    now replace (i + length s - i) with (length s) by lia.
Qed.

(* ================================================================= *)
(** ** Iterations at a code point that is not escaped *)

Section IterationFacts.

Variable chars : list jsstring.

Lemma current_some_done (i : nat) (c : jsstring) :
  current chars i = Some c -> done chars i = false.
Proof.
  intros H. destruct (done chars i) eqn:E; [|reflexivity].
  apply current_done in E. congruence.
Qed.

(** Where no escape starts, the scan for escapes consumes nothing and the
    iteration goes on to its tests. *)
Lemma iteration_unescaped (pc : M (option MarkdownNode)) (end_ : jsstring)
    (root : list MarkdownNode) (text : jsstring) (i : nat) (c : jsstring) :
  current chars i = Some c ->
  str_eqb c BACKSLASH = false ->
  iteration chars pc end_ root text i
  = if negb (str_eqb end_ [])
       && (matches chars [end_] i || matches chars NEWLINE i)
    then Break i
    else if matches chars NEW_PARAGRAPH i then
      let '(root', text') := promote root text in
      Continue root' text' (skipNewlines chars i)
    else
      match pc i with
      | (OutOfFuel, j) => Exhausted j
      | (Return (Some node), j) =>
          Continue (pushToParent root
                      ((if negb (str_eqb text []) then [Text text] else [])
                       ++ [node])) [] j
      | (_, _) => Continue root (text ++ c) (i + 1)
      end.
Proof.
  intros Hcur Hc. unfold iteration.
  rewrite (current_some_done i c Hcur).
  rewrite parseText_empty_stop by (rewrite Hcur; simpl; now rewrite Hc).
  cbn [str_eqb negb]. now rewrite Hcur.
Qed.

(** The current code point at an escape and after it. *)
Lemma current_middle (pre post : list jsstring) (c : jsstring) :
  nth_error (pre ++ c :: post) (length pre) = Some c.
Proof. rewrite nth_error_app2 by lia. now rewrite Nat.sub_diag. Qed.

End IterationFacts.

(** At top level a blank line promotes the children to paragraphs. *)
Lemma top_level_promotes (chars : list jsstring) (pc : M (option MarkdownNode))
    (root : list MarkdownNode) (text : jsstring) (i : nat) :
  wf_chars chars ->
  matches chars NEW_PARAGRAPH i = true ->
  iteration chars pc [] root text i
  = let '(root', text') := promote root text in
    Continue root' text' (skipNewlines chars i).
Proof.
  intros Hwf Hpar.
  destruct (new_paragraph_current chars Hwf i Hpar) as [Hcur | Hcur];
    rewrite (iteration_unescaped chars pc [] root text i _ Hcur eq_refl);
    now rewrite Hpar.
Qed.

(** With a terminator the iteration at a newline leaves the loop. *)
Lemma nested_newline_breaks (chars : list jsstring) (pc : M (option MarkdownNode))
    (end_ : jsstring) (root : list MarkdownNode) (text : jsstring) (i : nat) :
  wf_chars chars ->
  end_ <> [] ->
  matches chars NEW_PARAGRAPH i = true ->
  iteration chars pc end_ root text i = Break i.
Proof.
  intros Hwf Hend Hpar.
  apply str_eqb_neq in Hend.
  pose proof (new_paragraph_current chars Hwf i Hpar) as Hcur.
  destruct (current_newline chars i Hcur) as [_ Hnl].
  destruct Hcur as [Hcur | Hcur];
    rewrite (iteration_unescaped chars pc end_ root text i _ Hcur eq_refl);
    now rewrite Hend, Hnl, orb_true_r.
Qed.

Lemma parseNext_loop_never_throws (chars : list jsstring) (fuel : nat) :
  forall end_ root text i,
    fst (parseNext_loop chars fuel end_ root text i) <> Throw.
Proof.
  induction fuel as [|fuel IH]; intros end_ root text i; [discriminate|].
  rewrite parseNext_loop_S.
  destruct (iteration chars (parseCurrent chars fuel) end_ root text i);
    try discriminate.
  apply IH.
Qed.

Lemma parseNext_never_throws (chars : list jsstring) (fuel : nat)
    (end_ : jsstring) (i : nat) :
  fst (parseNext chars fuel end_ i) <> Throw.
Proof.
  unfold parseNext.
  pose proof (parseNext_loop_never_throws chars fuel end_ [] [] i) as H.
  destruct (parseNext_loop chars fuel end_ [] [] i) as [[[r t]| |] j];
    try discriminate.
  now contradiction H.
Qed.

(* ================================================================= *)
(** ** The properties of the specification *)

(** C1.  [parse] is total: for every input string the call returns a node.
    The fuel of the model is enough, and any larger amount of fuel gives the
    same node.  A [MismatchError] never leaves [parseNext], whatever its
    terminator and the index it starts from, so none reaches the caller of
    [parse]. *)
Theorem parse_total (markdown : jsstring) :
  (exists node,
      parse markdown = Return node
      /\ forall extra,
           fst (parseNext (spread markdown)
                  (S (length (spread markdown)) + extra) [] 0)
           = Return node)
  /\ (forall fuel end_ index,
        fst (parseNext (spread markdown) fuel end_ index) <> Throw).
Proof.
  split; [|intros; apply parseNext_never_throws].
  unfold parse.
  destruct (parseNext_total (spread markdown) (spread_wf markdown)
              (S (length (spread markdown))) [] 0) as (node & j & E & _); [lia|].
  exists node. rewrite E. split; [reflexivity|].
  intros extra.
  rewrite (parseNext_fuel_le (spread markdown) (S (length (spread markdown)))
             (S (length (spread markdown)) + extra) [] 0 node j);
    [reflexivity | lia | assumption].
Qed.

(** Malformed markup is text: the inputs that the specification names. *)
Lemma parse_malformed_examples :
  parse (js "[") = Return (Text (js "["))
  /\ parse (js "[x](y") = Return (Text (js "[x](y"))
  /\ parse (js "`a") = Return (Text (js "`a"))
  /\ parse (js "**a") = Return (Text (js "**a"))
  /\ parse (js "~~a") = Return (Text (js "~~a"))
  /\ parse (js "![a](b") = Return (Text (js "![a](b")).
Proof. repeat split; reflexivity. Qed.

(** C9.  [match] throws a [MismatchError] exactly when none of its
    candidates is found literally at the index.  When it throws the index is
    unchanged; when it returns, the index has advanced by the length of the
    first candidate that is found, the candidates before it being absent.
    The candidates are strings without surrogates, as every literal that the
    parser passes to [match] is. *)
Theorem match_spec (chars : list jsstring) (lookahead : list jsstring) (i : nat) :
  wf_chars chars ->
  forallb noSurrogate lookahead = true ->
  (fst (match_ chars lookahead i) = Throw
   <-> forallb (fun s => negb (literallyAt chars s i)) lookahead = true)
  /\ match match_ chars lookahead i with
     | (Throw, j) => j = i
     | (Return _, j) =>
         exists before s after,
           lookahead = before ++ s :: after
           /\ forallb (fun s' => negb (literallyAt chars s' i)) before = true
           /\ literallyAt chars s i = true
           /\ j = i + length s
     | (OutOfFuel, _) => False
     end.
Proof.
  intros Hwf. induction lookahead as [|s rest IH]; intros Hplain.
  - simpl. split; [split; reflexivity | reflexivity].
  - simpl in Hplain. apply andb_true_iff in Hplain as [Hs Hrest].
    specialize (IH Hrest). cbn [match_ forallb].
    rewrite (lookAhead_literal chars s i Hwf Hs).
    destruct (literallyAt chars s i) eqn:Hlit.
    + split; [split; discriminate|].
      exists [], s, rest. now repeat split.
    + destruct IH as [IHiff IH]. split; [exact IHiff|].
      destruct (match_ chars rest i) as [[[]| |] j]; try assumption.
      destruct IH as (before & s' & after & -> & Hbefore & Hs' & ->).
      exists (s :: before), s', after. repeat split; try assumption.
      simpl. now rewrite Hlit.
Qed.

Lemma match_spec_witness :
  let chars := spread (js "](x") in
  let lookahead := [js ")"; js "]("] in
  wf_chars chars
  /\ forallb noSurrogate lookahead = true
  /\ (fst (match_ chars lookahead 0) = Throw
      <-> forallb (fun s => negb (literallyAt chars s 0)) lookahead = true)
  /\ match match_ chars lookahead 0 with
     | (Throw, j) => j = 0
     | (Return _, j) =>
         exists before s after,
           lookahead = before ++ s :: after
           /\ forallb (fun s' => negb (literallyAt chars s' 0)) before = true
           /\ literallyAt chars s 0 = true
           /\ j = 0 + length s
     | (OutOfFuel, _) => False
     end.
Proof.
  split; [reflexivity|]. split; [reflexivity|].
  apply (match_spec (spread (js "](x")) [js ")"; js "]("] 0); reflexivity.
Defined.

(** Why the candidates of [match] are taken without surrogates: it takes
    as many code points as the candidate has code units, so a candidate
    that is one surrogate pair is compared with two code points. *)
Lemma match_surrogate_candidate :
  let smiley := [55357; 56832]%N in
  let chars := spread (smiley ++ js "a") in
  literallyAt chars smiley 0 = true
  /\ match_ chars [smiley] 0 = (Throw, 0).
Proof. split; reflexivity. Qed.

(** C2, as the code has it.  In a call of [parseNext] with a terminator, a
    blank line is never promoted to a paragraph break: the iteration that
    finds a newline at the index leaves the loop without consuming it, and
    the node that the call returns has no paragraph at any depth. *)
Theorem nested_blank_line_stops (chars : list jsstring) (fuel : nat)
    (end_ : jsstring) (root : list MarkdownNode) (text : jsstring)
    (blank start : nat) (node : MarkdownNode) (stop : nat) :
  wf_chars chars ->
  end_ <> [] ->
  matches chars NEW_PARAGRAPH blank = true ->
  parseNext chars fuel end_ start = (Return node, stop) ->
  iteration chars (parseCurrent chars fuel) end_ root text blank = Break blank
  /\ noParagraph node = true.
Proof.
  intros Hwf Hend Hblank Hcall. split.
  - now apply nested_newline_breaks.
  - now apply (parseNext_noParagraph chars Hwf fuel end_ start node stop).
Qed.

Lemma nested_blank_line_stops_witness :
  let chars := spread (js "[a" ++ LF ++ LF ++ js "b](c)") in
  wf_chars chars
  /\ js "]" <> []
  /\ matches chars NEW_PARAGRAPH 2 = true
  /\ parseNext chars 9 (js "]") 1 = (Return (Text (js "a")), 2)
  /\ iteration chars (parseCurrent chars 9) (js "]") [] (js "a") 2 = Break 2
  /\ noParagraph (Text (js "a")) = true.
Proof.
  split; [reflexivity|]. split; [discriminate|].
  split; [reflexivity|]. split; [reflexivity|].
  apply (nested_blank_line_stops
           (spread (js "[a" ++ LF ++ LF ++ js "b](c)")) 9 (js "]") [] (js "a")
           2 1 (Text (js "a")) 2);
    [reflexivity | discriminate | reflexivity | reflexivity].
Defined.

(** C2, as the specification states it, fails: inside the label of
    [[a\n\nb](c)] the iteration at the blank line leaves the loop, where
    the same iteration without a terminator promotes; the call for the label
    returns the text [a] and stops before the blank line, and the paragraphs
    of the result are those of the top level. *)
Lemma nested_blank_line_counterexample :
  let chars := spread (js "[a" ++ LF ++ LF ++ js "b](c)") in
  iteration chars (parseCurrent chars 9) (js "]") [] (js "a") 2 = Break 2
  /\ iteration chars (parseCurrent chars 9) [] [] (js "a") 2
     = Continue [Paragraph [Text (js "a")]; Paragraph []] [] 4
  /\ parseNext chars 9 (js "]") 1 = (Return (Text (js "a")), 2)
  /\ parse (js "[a" ++ LF ++ LF ++ js "b](c)")
     = Return (Fragment [Paragraph [Text (js "[a")];
                         Paragraph [Text (js "b](c)")]])
  /\ ~ nestedBlankLinePromotes.
Proof.
  cbv zeta. repeat split; try reflexivity.
  intros H.
  specialize (H (spread (js "[a" ++ LF ++ LF ++ js "b](c)"))
                (parseCurrent (spread (js "[a" ++ LF ++ LF ++ js "b](c)")) 9)
                (js "]") [] (js "a") 2 eq_refl).
  assert (js "]" <> []) as Hend by discriminate.
  specialize (H Hend eq_refl). vm_compute in H. discriminate.
Qed.

(** C3, as the specification states it, fails: [parse("*a**")] is not the
    literal text ["*a**"], and the tree it returns holds an italic node. *)
Lemma mismatched_emphasis_counterexample :
  parse (js "*a**") <> Return (Text (js "*a**"))
  /\ exists node, parse (js "*a**") = Return node /\ hasEmphasis node = true.
Proof.
  split; [discriminate|].
  exists (Fragment [Italic (Text (js "a")); Text (js "*")]).
  split; reflexivity.
Qed.

(** C3, as the code has it.  A run that a single ["*"] opens is closed by
    the first ["*"] at which the nested call stops, whatever follows that
    asterisk: [parseCurrent] returns the italic node and leaves the index
    after it.  So in [parse("*a**")] the first of the two closing asterisks
    closes the run: the result is a fragment of an italic node around the
    text ["a"] and of the literal text ["*"], and only that last asterisk,
    which opens a run that nothing closes, degrades to text. *)
Theorem emphasis_closed_by_first_delimiter (chars : list jsstring)
    (pn : jsstring -> M MarkdownNode) (i : nat) (content : MarkdownNode)
    (j : nat) :
  current chars i = Some (js "*") ->
  matches chars [js "**"] i = false ->
  pn (js "*") (i + 1) = (Return content, j) ->
  current chars j = Some (js "*") ->
  parseCurrent_ chars pn i = (Return (Some (Italic content)), j + 1)
  /\ parse (js "*a**") = Return (Fragment [Italic (Text (js "a")); Text (js "*")]).
Proof.
  intros Hopen Hsingle Hcall Hclose. split; [|reflexivity].
  unfold parseCurrent_, bind, get, ret, advance.
  assert (lookAhead chars 1 i = Some (js "*")) as -> by exact Hopen.
  change (strictEq (Some (js "*")) (js "*")) with true. cbn [orb].
  rewrite Hsingle. cbn [str_of].
  change (length (js "*")) with 1. rewrite Hcall, match_one.
  change (length (js "*")) with 1.
  assert (lookAhead chars 1 j = Some (js "*")) as -> by exact Hclose.
  reflexivity.
Qed.

Lemma emphasis_closed_by_first_delimiter_witness :
  let chars := spread (js "*a**") in
  current chars 0 = Some (js "*")
  /\ matches chars [js "**"] 0 = false
  /\ parseNext chars 4 (js "*") (0 + 1) = (Return (Text (js "a")), 2)
  /\ current chars 2 = Some (js "*")
  /\ parseCurrent_ chars (parseNext chars 4) 0
     = (Return (Some (Italic (Text (js "a")))), 2 + 1)
  /\ parse (js "*a**") = Return (Fragment [Italic (Text (js "a")); Text (js "*")]).
Proof.
  split; [reflexivity|]. split; [reflexivity|].
  split; [reflexivity|]. split; [reflexivity|].
  apply (emphasis_closed_by_first_delimiter (spread (js "*a**"))
           (parseNext (spread (js "*a**")) 4) 0 (Text (js "a")) 2);
    reflexivity.
Defined.

(** C4, as the specification states it, fails: [parse("a\n\n")] returns a
    paragraph as the root, which is no child of the root. *)
Lemma paragraph_root_counterexample :
  parse (js "a" ++ LF ++ LF) = Return (Paragraph [Text (js "a")])
  /\ paragraphsBelowRootOnly (Paragraph [Text (js "a")]) = false.
Proof. split; reflexivity. Qed.

(** C4, as the code has it.  In every tree that [parse] returns, no
    paragraph is inside another paragraph or inside an italic, bold, strike
    or link node: the paragraphs are direct children of the fragment that
    is returned, or the only paragraph of the document is returned as the
    root itself, the fragment of one child being replaced by that child. *)
Theorem paragraphs_at_top_only (markdown : jsstring) :
  exists node,
    parse markdown = Return node /\ paragraphsAtTopOnly node = true.
Proof.
  unfold parse.
  pose proof (spread_wf markdown) as Hwf.
  destruct (parseNext_loop_total (spread markdown) Hwf
              (S (length (spread markdown))) [] [] [] 0)
    as (root & text & j & E & _); [lia|].
  unfold parseNext. rewrite E.
  exists (finish root text). split; [reflexivity|].
  apply finish_topOk.
  assert (topOk []) as Hnil by (left; reflexivity).
  apply (parseNext_loop_topOk (spread markdown) Hwf _ _ _ _ _ _ _ _ Hnil E).
Qed.

(** C5.  [parse("a\n\nb")] returns a fragment of two paragraphs, the first
    with the text ["a"] and the second with the text ["b"], and so does the
    input with any two newlines, each of them ["\r\n"], ["\r"] or ["\n"],
    in the place of the blank line. *)
Theorem paragraph_splitting (first second : jsstring) :
  In first NEWLINE ->
  In second NEWLINE ->
  parse (js "a" ++ first ++ second ++ js "b")
  = Return (Fragment [Paragraph [Text (js "a")]; Paragraph [Text (js "b")]])
  /\ parse (js "a" ++ LF ++ LF ++ js "b")
     = Return (Fragment [Paragraph [Text (js "a")]; Paragraph [Text (js "b")]]).
Proof.
  intros Hfirst Hsecond. split; [|reflexivity].
  cbv in Hfirst, Hsecond.
  destruct Hfirst as [<- | [<- | [<- | []]]];
    destruct Hsecond as [<- | [<- | [<- | []]]]; reflexivity.
Qed.

Lemma paragraph_splitting_witness :
  In (CR ++ LF) NEWLINE
  /\ In CR NEWLINE
  /\ parse (js "a" ++ (CR ++ LF) ++ CR ++ js "b")
     = Return (Fragment [Paragraph [Text (js "a")]; Paragraph [Text (js "b")]])
  /\ parse (js "a" ++ LF ++ LF ++ js "b")
     = Return (Fragment [Paragraph [Text (js "a")]; Paragraph [Text (js "b")]]).
Proof.
  split; [now left|]. split; [right; now left|].
  apply (paragraph_splitting (CR ++ LF) CR); [now left | right; now left].
Defined.

(** C7.  Wherever a backslash is followed by a code point, [parseText]
    consumes both and appends the code point as it is, whatever the
    terminator and whatever the code point (a delimiter, the terminator or a
    newline); in the loop of [parseNext] the iteration that starts there
    adds the code point to the pending text and does nothing else.  So
    [parse("\\*a\\*")] is the text node ["*a*"]. *)
Theorem escape_fidelity (before after : list jsstring) (u : N) (c : jsstring)
    (end_ : jsstring) (pc : M (option MarkdownNode))
    (root : list MarkdownNode) (text : jsstring) :
  let chars := before ++ BACKSLASH :: (u :: c) :: after in
  let i := length before in
  parseText chars end_ i
  = ((u :: c) ++ fst (parseText chars end_ (i + 2)),
     snd (parseText chars end_ (i + 2)))
  /\ (exists more j,
         i + 2 <= j
         /\ iteration chars pc end_ root text i
            = Continue root (text ++ (u :: c) ++ more) j)
  /\ parse (js "\*a\*") = Return (Text (js "*a*")).
Proof.
  intros chars i.
  assert (current chars i = Some BACKSLASH) as Hcur
    by apply current_middle.
  assert (current chars (i + 1) = Some (u :: c)) as Hnext.
  { unfold current, chars, i.
    replace (before ++ BACKSLASH :: (u :: c) :: after)
      with ((before ++ [BACKSLASH]) ++ (u :: c) :: after)
      by now rewrite <- app_assoc.
    replace (length before + 1) with (length (before ++ [BACKSLASH]))
      by (rewrite length_app; reflexivity).
    apply current_middle. }
  assert (length chars = i + 2 + length after) as Hlen
    by (unfold chars, i; rewrite length_app; simpl; lia).
  assert (forall e, parseText chars e i
                    = ((u :: c) ++ fst (parseText chars e (i + 2)),
                       snd (parseText chars e (i + 2)))) as Hscan.
  { intros e. unfold parseText.
    replace (length chars - i) with (S (S (length after))) by lia.
    rewrite parseText_loop_escape by (assumption || lia).
    rewrite Hnext, parseText_loop_acc. cbn [str_of app].
    now rewrite (parseText_loop_fuel chars (S (length after))
                   (length chars - (i + 2))) by lia. }
  split; [apply Hscan|]. split; [|reflexivity].
  exists (fst (parseText chars [] (i + 2))), (snd (parseText chars [] (i + 2))).
  split; [apply parseText_mono|].
  unfold iteration.
  assert (done chars i = false) as -> by (apply done_false; lia).
  now rewrite Hscan.
Qed.

(** C8.  At a backtick, [parseCurrent] declines, returning [null], when
    three backticks are at the index, and also when three backticks are at
    the index where the scan of the content of the span stops.
    [parse("```a```")] has no code node: it is the text of the input. *)
Theorem fenced_code_declines (chars : list jsstring)
    (pn : jsstring -> M MarkdownNode) (i : nat) :
  current chars i = Some (js "`") ->
  let delimiter := if matches chars [js "``"] i then js "``" else js "`" in
  let j := snd (parseText chars delimiter (i + length delimiter)) in
  (matches chars [js "```"] i || matches chars [js "```"] j) = true ->
  (exists k, parseCurrent_ chars pn i = (Return None, k))
  /\ parse (js "```a```") = Return (Text (js "```a```")).
Proof.
  intros Hcur delimiter j Hfence. split; [|reflexivity].
  unfold parseCurrent_, bind, get, ret, call.
  assert (lookAhead chars 1 i = Some (js "`")) as -> by exact Hcur.
  cbn [strictEq]. cbn -[matches match_ parseText js].
  change (str_eqb (js "`") (js "*")) with false.
  change (str_eqb (js "`") (js "_")) with false.
  change (str_eqb (js "`") (js "~")) with false.
  change (str_eqb (js "`") (js "`")) with true.
  cbn [orb].
  destruct (matches chars [js "```"] i) eqn:Hopen; [now exists i|].
  cbn [orb] in Hfence. fold delimiter.
  assert (match_ chars [delimiter] i = (Return tt, i + length delimiter)) as ->.
  { rewrite match_one. unfold delimiter.
    destruct (matches chars [js "``"] i) eqn:Hdouble.
    - unfold matches in Hdouble. simpl in Hdouble.
      rewrite orb_false_r in Hdouble. simpl. now rewrite Hdouble.
    - change (length (js "`")) with 1.
      assert (lookAhead chars 1 i = Some (js "`")) as -> by exact Hcur.
      reflexivity. }
  subst j.
  destruct (parseText chars delimiter (i + length delimiter)) as [scanned j] eqn:E.
  cbn [snd] in Hfence. rewrite Hfence. now exists j.
Qed.

Lemma fenced_code_declines_witness :
  let chars := spread (js "```a```") in
  current chars 1 = Some (js "`")
  /\ (matches chars [js "```"] 1 || matches chars [js "```"] 4) = true
  /\ (exists k, parseCurrent_ chars (parseNext chars 7) 1 = (Return None, k))
  /\ parse (js "```a```") = Return (Text (js "```a```")).
Proof.
  split; [reflexivity|]. split; [reflexivity|].
  apply (fenced_code_declines (spread (js "```a```"))
           (parseNext (spread (js "```a```")) 7) 1); reflexivity.
Defined.

(** Without a terminator, a carriage return or a line feed at which no
    entry of [NEW_PARAGRAPH] is found is a literal character: the iteration
    appends it to the pending text and advances by one.  [parse("a\nb")] is
    one text node with the content ["a\nb"], the newline kept as it is, and
    there is no node for a line break. *)
Lemma single_newline_is_text (chars : list jsstring)
    (pn : jsstring -> M MarkdownNode)
    (root : list MarkdownNode) (text : jsstring) (i : nat) (newline : jsstring) :
  current chars i = Some newline ->
  newline = CR \/ newline = LF ->
  matches chars NEW_PARAGRAPH i = false ->
  iteration chars (parseCurrent_ chars pn) [] root text i
  = Continue root (text ++ newline) (i + 1)
  /\ parse (js "a" ++ LF ++ js "b") = Return (Text (js "a" ++ LF ++ js "b"))
  /\ parse (js "a" ++ CR ++ js "b") = Return (Text (js "a" ++ CR ++ js "b")).
Proof.
  intros Hcur Hnl Hpar. split; [|split; reflexivity].
  assert (str_eqb newline BACKSLASH = false) as Hbs
    by (destruct Hnl as [-> | ->]; reflexivity).
  rewrite (iteration_unescaped chars _ [] root text i newline Hcur Hbs).
  rewrite Hpar. cbn [str_eqb negb andb].
  assert (parseCurrent_ chars pn i = (Return None, i)) as ->; [|reflexivity].
  unfold parseCurrent_, bind, get, ret.
  assert (lookAhead chars 1 i = Some newline) as -> by exact Hcur.
  destruct Hnl as [-> | ->]; reflexivity.
Qed.

Lemma single_newline_is_text_witness :
  let chars := spread (js "a" ++ LF ++ js "b") in
  current chars 1 = Some LF
  /\ (LF = CR \/ LF = LF)
  /\ matches chars NEW_PARAGRAPH 1 = false
  /\ iteration chars (parseCurrent_ chars (parseNext chars 3)) [] [] (js "a") 1
     = Continue [] (js "a" ++ LF) 2
  /\ parse (js "a" ++ LF ++ js "b") = Return (Text (js "a" ++ LF ++ js "b"))
  /\ parse (js "a" ++ CR ++ js "b") = Return (Text (js "a" ++ CR ++ js "b")).
Proof.
  split; [reflexivity|]. split; [now right|]. split; [reflexivity|].
  apply (single_newline_is_text (spread (js "a" ++ LF ++ js "b"))
           (parseNext (spread (js "a" ++ LF ++ js "b")) 3) [] (js "a") 1 LF);
    [reflexivity | now right | reflexivity].
Defined.

(** A carriage return followed by a line feed is in the table of the blank
    lines, as the newline ["\r"] before the newline ["\n"]: the one line
    break ["\r\n"] between two texts splits them into two paragraphs. *)
Lemma crlf_is_a_blank_line :
  In (CR ++ LF) NEW_PARAGRAPH
  /\ parse (js "a" ++ CR ++ LF ++ js "b")
     = Return (Fragment [Paragraph [Text (js "a")]; Paragraph [Text (js "b")]]).
Proof. split; [cbv; tauto | reflexivity]. Qed.

(* ================================================================= *)
(** ** The code points of a string *)

Lemma spread_cons2 (u v : N) (s : jsstring) :
  spread (u :: v :: s)
  = if isHighSurrogate u && isLowSurrogate v
    then [u; v] :: spread s else [u] :: spread (v :: s).
Proof. reflexivity. Qed.

Lemma spread_cons_plain (u : N) (s : jsstring) :
  isHighSurrogate u = false -> spread (u :: s) = [u] :: spread s.
Proof. intros Hu. destruct s as [|v s]; simpl; [reflexivity | now rewrite Hu]. Qed.

(** The code points of a string without surrogates and of what follows it
    are those of the string, then those of what follows. *)
Lemma spread_app_plain (a t : jsstring) :
  noSurrogate a = true -> spread (a ++ t) = spread a ++ spread t.
Proof.
  unfold noSurrogate. induction a as [|u a IH]; intros Ha; [reflexivity|].
  simpl in Ha. apply andb_true_iff in Ha as [Hu Ha].
  apply negb_true_iff in Hu. unfold isSurrogate in Hu.
  apply orb_false_iff in Hu as [Hu _].
  rewrite <- app_comm_cons, !spread_cons_plain by assumption.
  now rewrite IH.
Qed.

(** A string is cut into code points before a code unit that is not a low
    surrogate. *)
Lemma spread_app_bounded (n : nat) :
  forall s v t,
    length s <= n -> isLowSurrogate v = false ->
    spread (s ++ v :: t) = spread s ++ spread (v :: t).
Proof.
  induction n as [|n IH]; intros [|u [|w s]] v t Hlen Hv; simpl in Hlen;
    try lia; try reflexivity.
  - change (spread ([u] ++ v :: t))
      with (if isHighSurrogate u && isLowSurrogate v
            then [u; v] :: spread t else [u] :: spread (v :: t)).
    now rewrite Hv, andb_false_r.
  - change (spread ((u :: w :: s) ++ v :: t))
      with (if isHighSurrogate u && isLowSurrogate w
            then [u; w] :: spread (s ++ v :: t)
            else [u] :: spread ((w :: s) ++ v :: t)).
    change (spread (u :: w :: s))
      with (if isHighSurrogate u && isLowSurrogate w
            then [u; w] :: spread s else [u] :: spread (w :: s)).
    destruct (isHighSurrogate u && isLowSurrogate w).
    + rewrite (IH s v t) by (assumption || lia). reflexivity.
    + rewrite (IH (w :: s) v t) by (assumption || (simpl; lia)). reflexivity.
Qed.

Lemma spread_app_before (s : jsstring) (v : N) (t : jsstring) :
  isLowSurrogate v = false ->
  spread (s ++ v :: t) = spread s ++ spread (v :: t).
Proof. now apply (spread_app_bounded (length s)). Qed.

(** A string without surrogates inside a string keeps its code points
    apart from those before it and after it. *)
Lemma spread_middle (s a t : jsstring) :
  a <> [] -> noSurrogate a = true ->
  spread (s ++ a ++ t) = spread s ++ spread a ++ spread t.
Proof.
  intros Hne Ha. destruct a as [|v a]; [contradiction|].
  rewrite <- app_comm_cons, spread_app_before.
  - now rewrite app_comm_cons, spread_app_plain.
  - simpl in Ha. apply andb_true_iff in Ha as [Hv _].
    apply negb_true_iff in Hv. unfold isSurrogate in Hv.
    now apply orb_false_iff in Hv.
Qed.

Lemma spread_concat_bounded (n : nat) :
  forall s, length s <= n -> concat (spread s) = s.
Proof.
  induction n as [|n IH]; intros [|u [|v s]] Hlen; simpl in Hlen;
    try lia; try reflexivity.
  rewrite spread_cons2. destruct (isHighSurrogate u && isLowSurrogate v).
  - cbn [concat app]. rewrite IH by lia. reflexivity.
  - cbn [concat app]. rewrite (IH (v :: s)) by (simpl; lia). reflexivity.
Qed.

Lemma spread_heads_bounded (forbidden : list N) (n : nat) :
  forall s, length s <= n -> avoids forbidden s = true ->
    forallb (startsClear forbidden) (spread s) = true.
Proof.
  unfold avoids.
  induction n as [|n IH]; intros [|u [|v s]] Hlen Hs; simpl in Hlen;
    try lia; try reflexivity.
  - simpl in *. now rewrite andb_true_r in *.
  - cbn [forallb] in Hs. apply andb_true_iff in Hs as [Hu Hs].
    rewrite spread_cons2. destruct (isHighSurrogate u && isLowSurrogate v).
    + cbn [forallb startsClear]. rewrite Hu. cbn [andb].
      apply IH; [lia|]. cbn [forallb] in Hs. now apply andb_true_iff in Hs.
    + cbn [forallb startsClear]. rewrite Hu. cbn [andb].
      apply (IH (v :: s)); [simpl; lia | assumption].
Qed.

(** The code points of a string that avoids some code units start with
    none of them. *)
Lemma spread_heads (forbidden : list N) (s : jsstring) :
  avoids forbidden s = true ->
  forallb (startsClear forbidden) (spread s) = true.
Proof. now apply (spread_heads_bounded forbidden (length s)). Qed.

Lemma spread_nonempty (s : jsstring) : s <> [] -> spread s <> [].
Proof.
  destruct s as [|u [|v s]]; [contradiction | discriminate |].
  intros _. rewrite spread_cons2.
  now destruct (isHighSurrogate u && isLowSurrogate v).
Qed.

(* ================================================================= *)
(** ** Runs of code points that are text *)

Lemma startsClear_neq (forbidden : list N) (x : N) (c : jsstring) (y : N) :
  startsClear forbidden (x :: c) = true ->
  existsb (N.eqb y) forbidden = true ->
  N.eqb x y = false.
Proof.
  simpl. intros Hx Hy. destruct (N.eqb x y) eqn:E; [|reflexivity].
  apply N.eqb_eq in E. subst y. rewrite Hy in Hx. discriminate.
Qed.

Lemma startsClear_covers (forbidden wanted : list N) (c : jsstring) :
  covers forbidden wanted = true ->
  startsClear forbidden c = true ->
  startsClear wanted c = true.
Proof.
  unfold covers. intros Hcov Hc. destruct c as [|x c]; [discriminate|].
  simpl. apply negb_true_iff.
  destruct (existsb (N.eqb x) wanted) eqn:E; [|reflexivity].
  apply existsb_exists in E as (y & Hin & Hxy). apply N.eqb_eq in Hxy. subst y.
  rewrite forallb_forall in Hcov. specialize (Hcov x Hin).
  simpl in Hc. rewrite Hcov in Hc. discriminate.
Qed.

Section Runs.

Variable chars : list jsstring.

(** A candidate is not at the index when its first code unit is not that
    of the current code point. *)
Lemma lookAhead_clear (forbidden : list N) (i : nat) (c : jsstring)
    (u : N) (s : jsstring) :
  current chars i = Some c ->
  startsClear forbidden c = true ->
  existsb (N.eqb u) forbidden = true ->
  strictEq (lookAhead chars (length (u :: s)) i) (u :: s) = false.
Proof.
  intros Hcur Hc Hu. destruct c as [|x c]; [discriminate|].
  pose proof (startsClear_neq forbidden x c u Hc Hu) as Hxu.
  unfold lookAhead. destruct (length (u :: s) =? 1).
  - rewrite Hcur. simpl. now rewrite Hxu.
  - unfold getSlice, current in *.
    rewrite (skipn_of_nth_error _ _ _ Hcur).
    replace (i + length (u :: s) - i) with (S (length s)) by (simpl; lia).
    simpl. now rewrite Hxu.
Qed.

Lemma matches_clear (forbidden : list N) (lookahead : list jsstring)
    (i : nat) (c : jsstring) :
  current chars i = Some c ->
  startsClear forbidden c = true ->
  forallb (fun s => negb (str_eqb s []) && endCovered forbidden s) lookahead = true ->
  matches chars lookahead i = false.
Proof.
  intros Hcur Hc. unfold matches.
  induction lookahead as [|s rest IH]; intros Hl; [reflexivity|].
  cbn [forallb existsb] in *. apply andb_true_iff in Hl as [Hs Hrest].
  apply andb_true_iff in Hs as [Hne Hs].
  destruct s as [|u s]; [discriminate|].
  rewrite (lookAhead_clear forbidden i c u s Hcur Hc Hs). now apply IH.
Qed.

(** [parseCurrent] declines at a code point that starts no markup. *)
Lemma parseCurrent_clear (pn : jsstring -> M MarkdownNode) (i : nat) (c : jsstring) :
  current chars i = Some c ->
  startsClear [42; 95; 126; 96; 33; 91]%N c = true ->
  parseCurrent_ chars pn i = (Return None, i).
Proof.
  intros Hcur Hc. destruct c as [|x c]; [discriminate|].
  unfold parseCurrent_, bind, get, ret.
  assert (lookAhead chars 1 i = Some (x :: c)) as -> by exact Hcur.
  assert (forall y, existsb (N.eqb y) [42; 95; 126; 96; 33; 91]%N = true ->
                    strictEq (Some (x :: c)) [y] = false) as Hno.
  { intros y Hy. simpl.
    now rewrite (startsClear_neq _ x c y Hc Hy). }
  change (js "*") with [42%N]. change (js "_") with [95%N].
  change (js "~") with [126%N]. change (js "`") with [96%N].
  change (js "!") with [33%N]. change (js "[") with [91%N].
  now rewrite !Hno by reflexivity.
Qed.

(** At a code point that starts with none of the code units of the markup
    or of the terminator, an iteration of the loop of [parseNext] adds the
    code point to the pending text and advances by one. *)
Lemma iteration_clear (forbidden : list N) (pn : jsstring -> M MarkdownNode)
    (end_ : jsstring) (root : list MarkdownNode) (text : jsstring)
    (i : nat) (c : jsstring) :
  covers forbidden MARKUP = true ->
  endCovered forbidden end_ = true ->
  current chars i = Some c ->
  startsClear forbidden c = true ->
  iteration chars (parseCurrent_ chars pn) end_ root text i
  = Continue root (text ++ c) (i + 1).
Proof.
  intros Hcov Hend Hcur Hc.
  pose proof (startsClear_covers forbidden MARKUP c Hcov Hc) as Hm.
  assert (str_eqb c BACKSLASH = false) as Hbs.
  { destruct c as [|x c]; [discriminate|]. simpl.
    now rewrite (startsClear_neq MARKUP x c 92%N Hm eq_refl). }
  rewrite (iteration_unescaped chars _ end_ root text i c Hcur Hbs).
  assert (matches chars NEWLINE i = false) as ->
    by (apply (matches_clear MARKUP NEWLINE i c Hcur Hm); reflexivity).
  assert (matches chars NEW_PARAGRAPH i = false) as ->
    by (apply (matches_clear MARKUP NEW_PARAGRAPH i c Hcur Hm); reflexivity).
  assert (negb (str_eqb end_ []) && (matches chars [end_] i || false) = false) as ->.
  { destruct end_ as [|u e]; [reflexivity|].
    match goal with
    | |- context [matches chars ?l i] =>
        assert (matches chars l i = false) as ->; [|reflexivity]
    end.
    apply (matches_clear forbidden _ i c Hcur Hc).
    simpl in *. now rewrite Hend. }
  rewrite (parseCurrent_clear pn i c Hcur); [reflexivity|].
  apply (startsClear_covers MARKUP); [reflexivity | assumption].
Qed.

End Runs.

(** A run of such code points becomes pending text, one iteration and one
    unit of fuel for each. *)
Lemma parseNext_loop_run (forbidden : list N) (end_ : jsstring)
    (run before after : list jsstring) :
  covers forbidden MARKUP = true ->
  endCovered forbidden end_ = true ->
  forallb (startsClear forbidden) run = true ->
  forall fuel root text,
    parseNext_loop (before ++ run ++ after) (length run + fuel) end_ root text
                   (length before)
    = parseNext_loop (before ++ run ++ after) fuel end_ root
                     (text ++ concat run) (length before + length run).
Proof.
  intros Hcov Hend. revert before.
  induction run as [|c run IH]; intros before Hrun fuel root text.
  - simpl. now rewrite app_nil_r, Nat.add_0_r.
  - cbn [forallb] in Hrun. apply andb_true_iff in Hrun as [Hc Hrun].
    cbn [length Nat.add]. rewrite parseNext_loop_S. unfold parseCurrent.
    rewrite (iteration_clear _ forbidden _ end_ root text (length before) c
               Hcov Hend); [|apply current_middle | assumption].
    specialize (IH (before ++ [c]) Hrun fuel root (text ++ c)).
    rewrite <- !app_assoc in IH. cbn [app] in IH.
    rewrite length_app in IH. cbn [length] in IH.
    cbn [concat].
    replace (length before + S (length run))
      with (length before + 1 + length run) by lia.
    exact IH.
Qed.

(** [parseText] takes a run of code points that start with neither a
    backslash, nor a newline, nor the first code unit of the terminator. *)
Lemma parseText_loop_run (forbidden : list N) (end_ : jsstring)
    (run before after : list jsstring) :
  covers forbidden SCANNED = true ->
  end_ <> [] ->
  endCovered forbidden end_ = true ->
  forallb (startsClear forbidden) run = true ->
  forall fuel text,
    parseText_loop (before ++ run ++ after) (length run + fuel) end_ text
                   (length before)
    = parseText_loop (before ++ run ++ after) fuel end_
                     (text ++ concat run) (length before + length run).
Proof.
  intros Hcov Hne Hend. revert before.
  induction run as [|c run IH]; intros before Hrun fuel text.
  - simpl. now rewrite app_nil_r, Nat.add_0_r.
  - cbn [forallb] in Hrun. apply andb_true_iff in Hrun as [Hc Hrun].
    pose proof (startsClear_covers forbidden SCANNED c Hcov Hc) as Hs.
    set (chars := before ++ (c :: run) ++ after).
    assert (current chars (length before) = Some c) as Hcur
      by apply current_middle.
    cbn [length Nat.add parseText_loop].
    rewrite (current_some_done chars _ c Hcur), Hcur.
    assert (strictEq (Some c) BACKSLASH = false) as ->.
    { destruct c as [|x c]; [discriminate|]. simpl.
      now rewrite (startsClear_neq SCANNED x c 92%N Hs eq_refl). }
    cbn [andb].
    assert (matches chars NEWLINE (length before) = false) as ->
      by (apply (matches_clear chars SCANNED NEWLINE _ c Hcur Hs); reflexivity).
    assert (matches chars [end_] (length before) = false) as ->.
    { destruct end_ as [|u e]; [contradiction|].
      apply (matches_clear chars forbidden [u :: e] _ c Hcur Hc).
      simpl in *. now rewrite Hend. }
    apply str_eqb_neq in Hne. rewrite Hne. cbn [orb str_of].
    specialize (IH (before ++ [c]) Hrun fuel (text ++ c)).
    unfold chars. rewrite <- !app_assoc in IH. cbn [app] in IH.
    rewrite length_app in IH. cbn [length] in IH.
    cbn [concat].
    replace (length before + S (length run))
      with (length before + 1 + length run) by lia.
    exact IH.
Qed.

(* ================================================================= *)
(** ** Where the loops stop *)

Section Stops.

Variable chars : list jsstring.

Lemma parseNext_loop_done (fuel : nat) (end_ : jsstring)
    (root : list MarkdownNode) (text : jsstring) (i : nat) :
  done chars i = true ->
  parseNext_loop chars (S fuel) end_ root text i = (Return (root, text), i).
Proof.
  intros Hdone. rewrite parseNext_loop_S. unfold iteration. now rewrite Hdone.
Qed.

(** The loop of a nested call is left at the terminator, if no backslash
    is there. *)
Lemma parseNext_loop_end (fuel : nat) (end_ : jsstring)
    (root : list MarkdownNode) (text : jsstring) (i : nat) (c : jsstring) :
  current chars i = Some c ->
  str_eqb c BACKSLASH = false ->
  end_ <> [] ->
  matches chars [end_] i = true ->
  parseNext_loop chars (S fuel) end_ root text i = (Return (root, text), i).
Proof.
  intros Hcur Hc Hne Hend. rewrite parseNext_loop_S.
  rewrite (iteration_unescaped chars _ end_ root text i c Hcur Hc).
  apply str_eqb_neq in Hne. now rewrite Hne, Hend.
Qed.

Lemma parseText_loop_end (fuel : nat) (end_ text : jsstring) (i : nat)
    (c : jsstring) :
  current chars i = Some c ->
  str_eqb c BACKSLASH = false ->
  matches chars [end_] i = true ->
  parseText_loop chars fuel end_ text i = (text, i).
Proof.
  intros Hcur Hc Hend. destruct fuel as [|fuel]; [reflexivity|].
  cbn [parseText_loop].
  rewrite (current_some_done chars i c Hcur), Hcur. cbn [strictEq].
  now rewrite Hc, Hend, orb_true_r.
Qed.

Lemma parseText_loop_done (fuel : nat) (end_ text : jsstring) (i : nat) :
  done chars i = true ->
  parseText_loop chars fuel end_ text i = (text, i).
Proof.
  intros Hdone. destruct fuel as [|fuel]; [reflexivity|].
  cbn [parseText_loop]. now rewrite Hdone.
Qed.

Hypothesis chars_wf : wf_chars chars.

(** [matches] on candidates without surrogates: one of them is found
    literally at the index. *)
Lemma matches_literal (lookahead : list jsstring) (i : nat) :
  forallb noSurrogate lookahead = true ->
  matches chars lookahead i
  = existsb (fun s => literallyAt chars s i) lookahead.
Proof.
  unfold matches. induction lookahead as [|s rest IH]; intros Hl; [reflexivity|].
  cbn [forallb existsb] in *. apply andb_true_iff in Hl as [Hs Hrest].
  now rewrite (lookAhead_literal chars s i chars_wf Hs), IH.
Qed.

Lemma match_one_literal (s : jsstring) (i : nat) :
  noSurrogate s = true ->
  literallyAt chars s i = true ->
  match_ chars [s] i = (Return tt, i + length s).
Proof.
  intros Hs Hlit. rewrite match_one.
  now rewrite (lookAhead_literal chars s i chars_wf Hs), Hlit.
Qed.

End Stops.

Lemma literallyAt_middle (before rest : list jsstring) (s : jsstring) :
  literallyAt (before ++ rest) s (length before) = startsWith (concat rest) s.
Proof.
  unfold literallyAt. rewrite skipn_app, skipn_all, Nat.sub_diag. reflexivity.
Qed.

Lemma done_end (chars : list jsstring) : done chars (length chars) = true.
Proof. apply done_true. lia. Qed.

Lemma wf_chars_app (a b : list jsstring) :
  wf_chars a -> wf_chars b -> wf_chars (a ++ b).
Proof. unfold wf_chars. intros Ha Hb. now rewrite forallb_app, Ha, Hb. Qed.

Lemma startsWith_cons (x : N) (text : jsstring) (u : N) (s : jsstring) :
  startsWith (x :: text) (u :: s) = N.eqb x u && startsWith text s.
Proof. reflexivity. Qed.

Lemma startsWith_clear (forbidden : list N) (c : jsstring) (rest : jsstring)
    (u : N) (s : jsstring) :
  startsClear forbidden c = true ->
  existsb (N.eqb u) forbidden = true ->
  startsWith (c ++ rest) (u :: s) = false.
Proof.
  intros Hc Hu. destruct c as [|x c]; [discriminate|]. simpl.
  now rewrite (startsClear_neq forbidden x c u Hc Hu).
Qed.

Lemma finish_text (text : jsstring) : text <> [] -> finish [] text = Text text.
Proof.
  intros Hne. unfold finish, flush. apply str_eqb_neq in Hne.
  now rewrite Hne.
Qed.

Lemma finish_inline (node : MarkdownNode) :
  isInline node = true -> finish [node] [] = node.
Proof. now destruct node. Qed.

(* ================================================================= *)
(** ** Text without markup *)

(** X1.  A string that is not empty and has no backslash, no newline and
    none of the characters that start markup is parsed to one text node
    with the string as its content. *)
Theorem plain_text_is_text (s : jsstring) :
  s <> [] ->
  avoids MARKUP s = true ->
  parse s = Return (Text s).
Proof.
  intros Hne Hs. unfold parse, parseNext.
  pose proof (parseNext_loop_run MARKUP [] (spread s) [] [] eq_refl eq_refl
                (spread_heads MARKUP s Hs) 1 [] []) as Hrun.
  rewrite app_nil_r in Hrun. cbn [app length Nat.add] in Hrun.
  rewrite Nat.add_1_r in Hrun. rewrite Hrun.
  rewrite parseNext_loop_done by apply done_end.
  rewrite (spread_concat_bounded (length s) s (le_n _)).
  cbn [fst]. now rewrite finish_text.
Qed.

Lemma plain_text_is_text_witness :
  js "hello, world" <> []
  /\ avoids MARKUP (js "hello, world") = true
  /\ parse (js "hello, world") = Return (Text (js "hello, world")).
Proof.
  split; [discriminate|]. split; [reflexivity|].
  apply plain_text_is_text; [discriminate | reflexivity].
Defined.

(* ================================================================= *)
(** ** Documents of one inline node *)

(** A nested call over a run of text code points that the terminator
    follows returns the text of the run and stops at the terminator. *)
Lemma parseNext_run (forbidden : list N) (end_ : jsstring)
    (run before after : list jsstring) (fuel : nat) (c : jsstring) :
  let chars := before ++ run ++ after in
  let stop := length before + length run in
  covers forbidden MARKUP = true ->
  end_ <> [] ->
  endCovered forbidden end_ = true ->
  forallb (startsClear forbidden) run = true ->
  current chars stop = Some c ->
  str_eqb c BACKSLASH = false ->
  matches chars [end_] stop = true ->
  parseNext chars (length run + S fuel) end_ (length before)
  = (Return (finish [] (concat run)), stop).
Proof.
  intros chars stop Hcov Hne Hend Hrun Hcur Hc Hstop. unfold parseNext.
  rewrite (parseNext_loop_run forbidden end_ run before after Hcov Hend Hrun).
  fold chars. fold stop.
  now rewrite (parseNext_loop_end chars fuel end_ [] _ stop c Hcur Hc Hne Hstop).
Qed.

(** [parseText] over a run of code points that the terminator follows
    returns the text of the run and stops at the terminator. *)
Lemma parseText_run (forbidden : list N) (end_ : jsstring)
    (run before after : list jsstring) (c : jsstring) :
  let chars := before ++ run ++ after in
  let stop := length before + length run in
  covers forbidden SCANNED = true ->
  end_ <> [] ->
  endCovered forbidden end_ = true ->
  forallb (startsClear forbidden) run = true ->
  current chars stop = Some c ->
  str_eqb c BACKSLASH = false ->
  matches chars [end_] stop = true ->
  parseText chars end_ (length before) = (concat run, stop).
Proof.
  intros chars stop Hcov Hne Hend Hrun Hcur Hc Hstop. unfold parseText.
  assert (length chars - length before = length run + length after) as ->
    by (unfold chars; rewrite !length_app; lia).
  rewrite (parseText_loop_run forbidden end_ run before after Hcov Hne Hend Hrun).
  fold chars. fold stop.
  now rewrite (parseText_loop_end chars _ end_ _ stop c Hcur Hc Hstop).
Qed.

(** When [parseCurrent] builds a node from the whole input, [parse]
    returns that node. *)
Lemma parse_single_node (markdown : jsstring) (c : jsstring) (node : MarkdownNode) :
  let chars := spread markdown in
  current chars 0 = Some c ->
  startsClear SCANNED c = true ->
  parseCurrent chars (length chars) 0 = (Return (Some node), length chars) ->
  isInline node = true ->
  parse markdown = Return node.
Proof.
  intros chars Hcur Hc Hnode Hinline. unfold parse, parseNext. fold chars.
  rewrite parseNext_loop_S.
  assert (str_eqb c BACKSLASH = false) as Hbs.
  { destruct c as [|x c]; [discriminate|]. simpl.
    now rewrite (startsClear_neq SCANNED x c 92%N Hc eq_refl). }
  rewrite (iteration_unescaped chars _ [] [] [] 0 c Hcur Hbs).
  assert (matches chars NEW_PARAGRAPH 0 = false) as ->
    by (apply (matches_clear chars SCANNED NEW_PARAGRAPH 0 c Hcur Hc);
        reflexivity).
  cbn [str_eqb negb andb]. rewrite Hnode. cbn [str_eqb negb app].
  pose proof (current_some_done chars 0 c Hcur) as Hlen.
  apply done_false in Hlen.
  destruct (length chars) as [|n] eqn:E; [lia|].
  rewrite parseNext_loop_done by (rewrite <- E; apply done_end).
  cbn [fst]. rewrite pushToParent_nil. f_equal. now apply finish_inline.
Qed.

Lemma current_first (c : jsstring) (rest : list jsstring) :
  current (c :: rest) 0 = Some c.
Proof. reflexivity. Qed.

Lemma spread_run_text (s : jsstring) : concat (spread s) = s.
Proof. apply (spread_concat_bounded (length s)). lia. Qed.

(** The text behind a run of clear code points and what follows it does
    not start with a candidate that starts with a forbidden code unit. *)
Lemma startsWith_run (forbidden : list N) (run : list jsstring)
    (rest : jsstring) (u : N) (s : jsstring) :
  run <> [] ->
  forallb (startsClear forbidden) run = true ->
  existsb (N.eqb u) forbidden = true ->
  startsWith (concat run ++ rest) (u :: s) = false.
Proof.
  intros Hne Hrun Hu. destruct run as [|c run]; [contradiction|].
  cbn [forallb] in Hrun. apply andb_true_iff in Hrun as [Hc _].
  cbn [concat]. rewrite <- app_assoc.
  now apply (startsWith_clear forbidden).
Qed.

Lemma matches_at (before rest : list jsstring) (s : jsstring) :
  wf_chars (before ++ rest) ->
  noSurrogate s = true ->
  matches (before ++ rest) [s] (length before) = startsWith (concat rest) s.
Proof.
  intros Hwf Hs.
  rewrite (matches_literal _ Hwf [s]) by (simpl; now rewrite Hs).
  simpl. now rewrite orb_false_r, literallyAt_middle.
Qed.

Lemma matches_start (chars : list jsstring) (s : jsstring) :
  wf_chars chars ->
  noSurrogate s = true ->
  matches chars [s] 0 = startsWith (concat chars) s.
Proof. exact (matches_at [] chars s). Qed.

Lemma current_at (before : list jsstring) (c : jsstring) (after : list jsstring) :
  current (before ++ c :: after) (length before) = Some c.
Proof. apply current_middle. Qed.

Lemma current_after (before mid : list jsstring) (c : jsstring)
    (after : list jsstring) :
  current (before ++ mid ++ c :: after) (length before + length mid) = Some c.
Proof. rewrite app_assoc, <- length_app. apply current_at. Qed.

Lemma matches_current (chars : list jsstring) (i : nat) (u : N) :
  current chars i = Some [u] -> matches chars [[u]] i = true.
Proof.
  intros Hcur. unfold matches, lookAhead. simpl. rewrite Hcur. simpl.
  now rewrite N.eqb_refl.
Qed.

(** X2.  A text without markup between two asterisks, or between two
    underscores, is an italic node around the text. *)
Theorem italic_run (u : N) (s : jsstring) :
  u = 42%N \/ u = 95%N ->
  s <> [] ->
  avoids MARKUP s = true ->
  parse ([u] ++ s ++ [u]) = Return (Italic (Text s)).
Proof.
  intros Hu Hne Hs.
  assert (isSurrogate u = false /\ startsClear SCANNED [u] = true
          /\ existsb (N.eqb u) MARKUP = true
          /\ (strictEq (Some [u]) (js "*") || strictEq (Some [u]) (js "_")) = true
          /\ N.eqb u 92 = false)
    as (Hplain & Hclear & Hmark & Hchar & Hbs)
    by (destruct Hu as [-> | ->]; repeat split; reflexivity).
  assert (spread ([u] ++ s ++ [u])
          = ([[u]] : list jsstring) ++ spread s ++ [[u]]) as Hchars.
  { change ([u] ++ s ++ [u]) with ([] ++ [u] ++ s ++ [u]).
    rewrite (spread_middle [] [u] (s ++ [u])) by
      (discriminate || (simpl; now rewrite Hplain)).
    rewrite spread_app_before
      by (unfold isSurrogate in Hplain; now apply orb_false_iff in Hplain).
    reflexivity. }
  pose proof (spread_wf ([u] ++ s ++ [u])) as Hwf.
  pose proof (spread_heads MARKUP s Hs) as Hrun.
  pose proof (spread_nonempty s Hne) as Hrne.
  apply (parse_single_node _ [u]); rewrite Hchars in *;
    try reflexivity; try assumption.
  set (run := spread s) in *.
  set (chars := ([[u]] : list jsstring) ++ run ++ [[u]]) in *.
  assert (length chars = length run + 2) as Hlen
    by (unfold chars; rewrite !length_app; simpl; lia).
  assert (current chars (1 + length run) = Some [u]) as Hclose.
  { unfold chars. rewrite app_assoc.
    replace (1 + length run) with (length ([[u]] ++ run))
      by (rewrite length_app; reflexivity).
    apply current_at. }
  unfold parseCurrent, parseCurrent_, bind, get, ret, advance.
  assert (lookAhead chars 1 0 = Some [u]) as -> by reflexivity.
  rewrite Hchar.
  assert (matches chars [js "**"] 0 = false) as ->.
  { rewrite (matches_start chars (js "**") Hwf eq_refl).
    unfold chars. cbn [concat app]. rewrite concat_app.
    change (js "**") with [42%N; 42%N]. rewrite startsWith_cons.
    destruct (N.eqb u 42); [|reflexivity]. cbn [andb].
    now apply (startsWith_run MARKUP). }
  cbn [str_of length Nat.add].
  rewrite Hlen.
  assert (parseNext chars (length run + 2) [u] 1
          = (Return (Text s), 1 + length run)) as ->.
  { rewrite <- (finish_text s Hne), <- (spread_run_text s). fold run.
    apply (parseNext_run MARKUP [u] run [[u]] [[u]] 1 [u]);
      try reflexivity; try assumption; try discriminate.
    - simpl. now rewrite Hbs.
    - now apply matches_current. }
  rewrite match_one. cbn [length].
  assert (lookAhead chars 1 (1 + length run) = Some [u]) as -> by exact Hclose.
  cbn [strictEq]. rewrite str_eqb_refl.
  change (1 =? 1) with true. cbv iota. f_equal. lia.
Qed.

Lemma italic_run_witness :
  (95%N = 42%N \/ 95%N = 95%N)
  /\ js "so it goes" <> []
  /\ avoids MARKUP (js "so it goes") = true
  /\ parse ([95%N] ++ js "so it goes" ++ [95%N])
     = Return (Italic (Text (js "so it goes"))).
Proof.
  split; [now right|]. split; [discriminate|]. split; [reflexivity|].
  apply (italic_run 95 (js "so it goes")); [now right | discriminate | reflexivity].
Defined.

Lemma match_of_matches (chars : list jsstring) (s : jsstring) (i : nat) :
  matches chars [s] i = true ->
  match_ chars [s] i = (Return tt, i + length s).
Proof.
  unfold matches. cbn [existsb]. rewrite orb_false_r. intros H.
  rewrite match_one. now rewrite H.
Qed.

(** The code points of a text between an opening and a closing delimiter
    of two ASCII characters, and what the parser finds at the closing
    delimiter. *)
Lemma double_delimited (u : N) (s : jsstring) :
  isSurrogate u = false ->
  N.eqb u 92 = false ->
  let run := spread s in
  let chars := ([[u]; [u]] : list jsstring) ++ run ++ [[u]; [u]] in
  spread ([u; u] ++ s ++ [u; u]) = chars
  /\ length chars = length run + 4
  /\ wf_chars chars
  /\ current chars 0 = Some [u]
  /\ matches chars [([u; u] : jsstring)] 0 = true
  /\ (exists c, current chars (2 + length run) = Some c
                /\ str_eqb c BACKSLASH = false)
  /\ matches chars [([u; u] : jsstring)] (2 + length run) = true.
Proof.
  intros Hplain Hbs run chars.
  assert (noSurrogate [u; u] = true) as Hdelim
    by (simpl; now rewrite Hplain).
  assert (spread ([u; u] ++ s ++ [u; u]) = chars) as Hchars.
  { change ([u; u] ++ s ++ [u; u]) with ([] ++ [u; u] ++ s ++ [u; u]).
    rewrite (spread_middle [] [u; u] (s ++ [u; u])) by (discriminate || assumption).
    rewrite spread_app_before
      by (unfold isSurrogate in Hplain; now apply orb_false_iff in Hplain).
    assert (isHighSurrogate u = false) as Hhigh
      by (unfold isSurrogate in Hplain; now apply orb_false_iff in Hplain).
    rewrite !(spread_cons_plain u [u] Hhigh). reflexivity. }
  assert (wf_chars chars) as Hwf by (rewrite <- Hchars; apply spread_wf).
  assert (chars = (([[u]; [u]] : list jsstring) ++ run) ++ [[u]; [u]]) as Hassoc
    by (unfold chars; now rewrite app_assoc).
  assert (length ((([[u]; [u]] : list jsstring)) ++ run) = 2 + length run) as Hlen
    by (rewrite length_app; reflexivity).
  repeat split; try assumption; try reflexivity.
  - unfold chars. rewrite !length_app. simpl. lia.
  - rewrite (matches_start chars [u; u] Hwf Hdelim).
    unfold chars. simpl. now rewrite N.eqb_refl.
  - exists [u]. split; [|simpl; now rewrite Hbs].
    rewrite Hassoc, <- Hlen. apply current_at.
  - rewrite Hassoc in Hwf |- *. rewrite <- Hlen.
    rewrite (matches_at _ _ [u; u] Hwf Hdelim). simpl. now rewrite N.eqb_refl.
Qed.

(** X3.  A text without markup between two pairs of asterisks is a bold
    node around the text. *)
Theorem bold_run (s : jsstring) :
  s <> [] ->
  avoids MARKUP s = true ->
  parse (js "**" ++ s ++ js "**") = Return (Bold (Text s)).
Proof.
  intros Hne Hs.
  destruct (double_delimited 42 s eq_refl eq_refl)
    as (Hchars & Hlen & Hwf & Hopen & Hdouble & (c & Hclose & Hc) & Hend).
  pose proof (spread_heads MARKUP s Hs) as Hrun.
  change [42%N; 42%N] with (js "**") in *.
  apply (parse_single_node _ [42%N]); rewrite ?Hchars;
    try reflexivity; try assumption.
  set (run := spread s) in *.
  set (chars := ([[42%N]; [42%N]] : list jsstring) ++ run ++ [[42%N]; [42%N]]) in *.
  unfold parseCurrent, parseCurrent_, bind, get, ret, advance.
  assert (lookAhead chars 1 0 = Some [42%N]) as -> by exact Hopen.
  change (strictEq (Some [42%N]) (js "*")) with true. cbn [orb].
  rewrite Hdouble, Hlen. change (length (js "**")) with 2. cbn [Nat.add].
  assert (parseNext chars (length run + 4) (js "**") 2
          = (Return (Text s), 2 + length run)) as ->.
  { rewrite <- (finish_text s Hne), <- (spread_run_text s). fold run.
    apply (parseNext_run MARKUP (js "**") run [[42%N]; [42%N]] [[42%N]; [42%N]]
             3 c);
      try reflexivity; try assumption; try discriminate. }
  rewrite (match_of_matches chars (js "**") _ Hend).
  change (length (js "**") =? 1) with false. cbv iota.
  f_equal. change (length (js "**")) with 2. lia.
Qed.

Lemma bold_run_witness :
  js "note well" <> []
  /\ avoids MARKUP (js "note well") = true
  /\ parse (js "**" ++ js "note well" ++ js "**")
     = Return (Bold (Text (js "note well"))).
Proof.
  split; [discriminate|]. split; [reflexivity|].
  apply (bold_run (js "note well")); [discriminate | reflexivity].
Defined.

(** X4.  A text without markup between two pairs of tildes is a strike
    node around the text. *)
Theorem strike_run (s : jsstring) :
  s <> [] ->
  avoids MARKUP s = true ->
  parse (js "~~" ++ s ++ js "~~") = Return (Strike (Text s)).
Proof.
  intros Hne Hs.
  destruct (double_delimited 126 s eq_refl eq_refl)
    as (Hchars & Hlen & Hwf & Hopen & Hdouble & (c & Hclose & Hc) & Hend).
  pose proof (spread_heads MARKUP s Hs) as Hrun.
  change [126%N; 126%N] with (js "~~") in *.
  apply (parse_single_node _ [126%N]); rewrite ?Hchars;
    try reflexivity; try assumption.
  set (run := spread s) in *.
  set (chars := ([[126%N]; [126%N]] : list jsstring) ++ run ++ [[126%N]; [126%N]]) in *.
  unfold parseCurrent, parseCurrent_, bind, get, ret, advance.
  assert (lookAhead chars 1 0 = Some [126%N]) as -> by exact Hopen.
  change (strictEq (Some [126%N]) (js "*")) with false.
  change (strictEq (Some [126%N]) (js "_")) with false.
  change (strictEq (Some [126%N]) (js "~")) with true. cbn [orb].
  rewrite (match_of_matches chars (js "~~") _ Hdouble), Hlen.
  change (length (js "~~")) with 2. cbn [Nat.add].
  assert (parseNext chars (length run + 4) (js "~~") 2
          = (Return (Text s), 2 + length run)) as ->.
  { rewrite <- (finish_text s Hne), <- (spread_run_text s). fold run.
    apply (parseNext_run MARKUP (js "~~") run [[126%N]; [126%N]]
             [[126%N]; [126%N]] 3 c);
      try reflexivity; try assumption; try discriminate. }
  rewrite (match_of_matches chars (js "~~") _ Hend).
  f_equal. change (length (js "~~")) with 2. lia.
Qed.

Lemma strike_run_witness :
  js "no longer" <> []
  /\ avoids MARKUP (js "no longer") = true
  /\ parse (js "~~" ++ js "no longer" ++ js "~~")
     = Return (Strike (Text (js "no longer"))).
Proof.
  split; [discriminate|]. split; [reflexivity|].
  apply (strike_run (js "no longer")); [discriminate | reflexivity].
Defined.

(** [parseText] up to a terminator of one code unit, and a nested call of
    [parseNext] up to such a terminator. *)
Lemma parseText_until (forbidden : list N) (u : N)
    (before run after : list jsstring) :
  covers forbidden SCANNED = true ->
  existsb (N.eqb u) forbidden = true ->
  N.eqb u 92 = false ->
  forallb (startsClear forbidden) run = true ->
  parseText (before ++ run ++ [u] :: after) [u] (length before)
  = (concat run, length before + length run).
Proof.
  intros Hcov Hu Hbs Hrun.
  assert (current (before ++ run ++ [u] :: after) (length before + length run)
          = Some [u]) as Hcur.
  { rewrite app_assoc, <- length_app. apply current_at. }
  apply (parseText_run forbidden [u] run before ([u] :: after) [u]);
    try assumption; try discriminate.
  - simpl. now rewrite Hbs.
  - now apply matches_current.
Qed.

Lemma parseNext_until (forbidden : list N) (u : N)
    (before run after : list jsstring) (fuel : nat) :
  covers forbidden MARKUP = true ->
  existsb (N.eqb u) forbidden = true ->
  N.eqb u 92 = false ->
  forallb (startsClear forbidden) run = true ->
  parseNext (before ++ run ++ [u] :: after) (length run + S fuel) [u]
            (length before)
  = (Return (finish [] (concat run)), length before + length run).
Proof.
  intros Hcov Hu Hbs Hrun.
  assert (current (before ++ run ++ [u] :: after) (length before + length run)
          = Some [u]) as Hcur.
  { rewrite app_assoc, <- length_app. apply current_at. }
  apply (parseNext_run forbidden [u] run before ([u] :: after) fuel [u]);
    try assumption; try discriminate.
  - simpl. now rewrite Hbs.
  - now apply matches_current.
Qed.

(** [match] where a candidate without surrogates starts the rest of the
    input. *)
Lemma match_at (before rest : list jsstring) (s : jsstring) :
  wf_chars (before ++ rest) ->
  noSurrogate s = true ->
  startsWith (concat rest) s = true ->
  match_ (before ++ rest) [s] (length before)
  = (Return tt, length before + length s).
Proof.
  intros Hwf Hs Hstart. apply match_of_matches.
  now rewrite matches_at.
Qed.

(** X5.  A text that is not empty and has no backtick, no backslash and no
    newline, between two backticks, is a code node whose content is the
    text, trimmed; markup characters in the text are content. *)
Theorem code_span (s : jsstring) :
  s <> [] ->
  avoids (96%N :: SCANNED) s = true ->
  parse (js "`" ++ s ++ js "`") = Return (Code (trim s)).
Proof.
  intros Hne Hs.
  pose proof (spread_heads _ s Hs) as Hrun.
  pose proof (spread_nonempty s Hne) as Hrne.
  assert (spread (js "`" ++ s ++ js "`")
          = ([[96%N]] : list jsstring) ++ spread s ++ [[96%N]]) as Hchars.
  { change (js "`" ++ s ++ js "`") with ([] ++ js "`" ++ s ++ [96%N]).
    rewrite (spread_middle [] (js "`") (s ++ [96%N])) by (discriminate || reflexivity).
    now rewrite spread_app_before. }
  pose proof (spread_wf (js "`" ++ s ++ js "`")) as Hwf.
  apply (parse_single_node _ [96%N]); rewrite Hchars in *;
    try reflexivity; try assumption.
  set (run := spread s) in *.
  set (chars := ([[96%N]] : list jsstring) ++ run ++ [[96%N]]) in *.
  assert (length chars = length run + 2) as Hlen
    by (unfold chars; rewrite !length_app; simpl; lia).
  assert (forall t, startsWith (concat chars) (96%N :: 96%N :: t) = false) as Hopen.
  { intros t. unfold chars. cbn [concat app]. rewrite concat_app, startsWith_cons.
    cbn [andb N.eqb Pos.eqb].
    now apply (startsWith_run (96%N :: SCANNED)). }
  unfold parseCurrent, parseCurrent_, bind, get, ret, call.
  assert (lookAhead chars 1 0 = Some [96%N]) as -> by reflexivity.
  change (strictEq (Some [96%N]) (js "*")) with false.
  change (strictEq (Some [96%N]) (js "_")) with false.
  change (strictEq (Some [96%N]) (js "~")) with false.
  change (strictEq (Some [96%N]) (js "`")) with true. cbn [orb].
  rewrite (matches_start chars (js "```") Hwf eq_refl).
  change (js "```") with [96%N; 96%N; 96%N]. rewrite Hopen. cbv beta.
  rewrite (matches_start chars (js "``") Hwf eq_refl).
  change (js "``") with [96%N; 96%N]. rewrite Hopen.
  change (js "`") with [96%N].
  rewrite (match_of_matches chars [96%N] 0) by now apply matches_current.
  cbn [length Nat.add].
  assert (parseText chars [96%N] 1 = (concat run, 1 + length run)) as ->.
  { apply (parseText_until (96%N :: SCANNED) 96 [[96%N]] run []);
      try reflexivity; assumption. }
  assert (matches chars [[96%N; 96%N; 96%N] : jsstring] (1 + length run) = false) as ->.
  { unfold chars. rewrite app_assoc.
    replace (1 + length run) with (length (([[96%N]] : list jsstring) ++ run))
      by (rewrite length_app; reflexivity).
    rewrite matches_at; [reflexivity | | reflexivity].
    rewrite <- app_assoc. exact Hwf. }
  rewrite (match_of_matches chars [96%N] (1 + length run)).
  - assert (concat run = s) as -> by apply spread_run_text.
    f_equal. rewrite Hlen. simpl. lia.
  - apply matches_current. unfold chars. rewrite app_assoc.
    replace (1 + length run) with (length (([[96%N]] : list jsstring) ++ run))
      by (rewrite length_app; reflexivity).
    apply current_at.
Qed.

Lemma code_span_witness :
  js " x * y " <> []
  /\ avoids (96%N :: SCANNED) (js " x * y ") = true
  /\ parse (js "`" ++ js " x * y " ++ js "`") = Return (Code (trim (js " x * y "))).
Proof.
  split; [discriminate|]. split; [reflexivity|].
  apply (code_span (js " x * y ")); [discriminate | reflexivity].
Defined.

(** The code points of a label or an alternative text, of a target, and of
    the brackets around them. *)
Lemma bracketed (opening first second : jsstring) :
  noSurrogate opening = true ->
  let chars := spread opening ++ spread first
               ++ [93%N] :: [40%N] :: spread second ++ [[41%N]] in
  spread (opening ++ first ++ js "](" ++ second ++ js ")") = chars
  /\ wf_chars chars
  /\ length chars
     = length (spread first) + S (length (spread second) + length (spread opening) + 2)
  /\ chars = (spread opening ++ spread first ++ [[93%N]; [40%N]])
             ++ spread second ++ [[41%N]]
  /\ length (spread opening ++ spread first ++ [[93%N]; [40%N]])
     = length (spread opening) + length (spread first) + 2.
Proof.
  intros Hopen chars.
  assert (spread (opening ++ first ++ js "](" ++ second ++ js ")") = chars) as Hchars.
  { rewrite spread_app_plain by assumption.
    rewrite (spread_middle first (js "](") (second ++ js ")"))
      by (discriminate || reflexivity).
    change (js ")") with [41%N]. now rewrite spread_app_before. }
  repeat split.
  - exact Hchars.
  - rewrite <- Hchars. apply spread_wf.
  - unfold chars. rewrite !length_app. simpl. rewrite length_app. simpl. lia.
  - unfold chars. rewrite <- !app_assoc. reflexivity.
  - rewrite !length_app. simpl. lia.
Qed.

(** X6.  A label without markup and without a closing bracket, followed by
    a target without a closing parenthesis, a backslash or a newline, in the
    brackets of a link, is a link node with the target as it is and the
    text of the label. *)
Theorem link_plain (label href : jsstring) :
  label <> [] ->
  avoids (93%N :: MARKUP) label = true ->
  avoids (41%N :: SCANNED) href = true ->
  parse (js "[" ++ label ++ js "](" ++ href ++ js ")")
  = Return (Link href (Text label)).
Proof.
  intros Hne Hlabel Hhref.
  pose proof (spread_heads _ label Hlabel) as Hrun.
  pose proof (spread_heads _ href Hhref) as Hrun'.
  destruct (bracketed (js "[") label href eq_refl)
    as (Hchars & Hwf & Hlen & Hsplit & Hlen').
  change (spread (js "[")) with ([[91%N]] : list jsstring) in *.
  cbn [length] in Hlen, Hlen'.
  apply (parse_single_node _ [91%N]); rewrite ?Hchars;
    try reflexivity; try assumption.
  set (L := spread label) in *. set (H := spread href) in *.
  set (chars := ([[91%N]] : list jsstring) ++ L
                ++ [93%N] :: [40%N] :: H ++ [[41%N]]) in *.
  unfold parseCurrent, parseCurrent_, bind, get, ret, call, advance.
  assert (lookAhead chars 1 0 = Some [91%N]) as -> by reflexivity.
  change (strictEq (Some [91%N]) (js "*")) with false.
  change (strictEq (Some [91%N]) (js "_")) with false.
  change (strictEq (Some [91%N]) (js "~")) with false.
  change (strictEq (Some [91%N]) (js "`")) with false.
  change (strictEq (Some [91%N]) (js "!")) with false.
  change (strictEq (Some [91%N]) (js "[")) with true. cbn [orb Nat.add].
  rewrite Hlen.
  assert (parseNext chars (length L + S (length H + 1 + 2)) (js "]") 1
          = (Return (Text label), 1 + length L)) as ->.
  { rewrite <- (finish_text label Hne), <- (spread_run_text label). fold L.
    apply (parseNext_until (93%N :: MARKUP) 93 [[91%N]] L
             ([40%N] :: H ++ [[41%N]]));
      try reflexivity; assumption. }
  assert (match_ chars [js "]("] (1 + length L)
          = (Return tt, 1 + length L + 2)) as ->.
  { unfold chars. rewrite app_assoc.
    replace (1 + length L) with (length (([[91%N]] : list jsstring) ++ L))
      by (rewrite length_app; reflexivity).
    apply (match_at _ _ (js "](")); [|reflexivity|reflexivity].
    rewrite <- app_assoc. exact Hwf. }
  assert (parseText chars (js ")") (1 + length L + 2)
          = (href, 1 + length L + 2 + length H)) as ->.
  { rewrite <- (spread_run_text href). fold H.
    rewrite Hsplit, <- Hlen'.
    apply (parseText_until (41%N :: SCANNED) 41 _ H []);
      try reflexivity; assumption. }
  rewrite (match_of_matches chars (js ")")).
  - f_equal. simpl. lia.
  - apply matches_current. rewrite Hsplit.
    rewrite <- Hlen', <- length_app, app_assoc.
    apply current_at.
Qed.

Lemma link_plain_witness :
  js "the source" <> []
  /\ avoids (93%N :: MARKUP) (js "the source") = true
  /\ avoids (41%N :: SCANNED) (js "https://example.org/a_b") = true
  /\ parse (js "[" ++ js "the source" ++ js "](" ++ js "https://example.org/a_b"
            ++ js ")")
     = Return (Link (js "https://example.org/a_b") (Text (js "the source"))).
Proof.
  split; [discriminate|]. split; [reflexivity|]. split; [reflexivity|].
  apply (link_plain (js "the source") (js "https://example.org/a_b"));
    [discriminate | reflexivity | reflexivity].
Defined.

(** X7.  An alternative text without a closing bracket, followed by a
    source without a closing parenthesis, neither with a backslash or a
    newline, in the brackets of an image, is an image node with the two
    strings as they are: markup characters in them are not parsed, and
    either may be empty. *)
Theorem image_plain (alt src : jsstring) :
  avoids (93%N :: SCANNED) alt = true ->
  avoids (41%N :: SCANNED) src = true ->
  parse (js "![" ++ alt ++ js "](" ++ src ++ js ")") = Return (Image src alt).
Proof.
  intros Halt Hsrc.
  pose proof (spread_heads _ alt Halt) as Hrun.
  pose proof (spread_heads _ src Hsrc) as Hrun'.
  destruct (bracketed (js "![") alt src eq_refl)
    as (Hchars & Hwf & Hlen & Hsplit & Hlen').
  change (spread (js "![")) with ([[33%N]; [91%N]] : list jsstring) in *.
  cbn [length] in Hlen, Hlen'.
  apply (parse_single_node _ [33%N]); rewrite ?Hchars;
    try reflexivity; try assumption.
  set (A := spread alt) in *. set (S' := spread src) in *.
  set (chars := ([[33%N]; [91%N]] : list jsstring) ++ A
                ++ [93%N] :: [40%N] :: S' ++ [[41%N]]) in *.
  unfold parseCurrent, parseCurrent_, bind, get, ret, call, advance.
  assert (lookAhead chars 1 0 = Some [33%N]) as -> by reflexivity.
  change (strictEq (Some [33%N]) (js "*")) with false.
  change (strictEq (Some [33%N]) (js "_")) with false.
  change (strictEq (Some [33%N]) (js "~")) with false.
  change (strictEq (Some [33%N]) (js "`")) with false.
  change (strictEq (Some [33%N]) (js "!")) with true. cbn [orb Nat.add].
  rewrite (match_of_matches chars (js "[") 1) by now apply matches_current.
  change (1 + length (js "[")) with 2.
  assert (parseText chars (js "]") 2 = (alt, 2 + length A)) as ->.
  { rewrite <- (spread_run_text alt). fold A.
    apply (parseText_until (93%N :: SCANNED) 93 [[33%N]; [91%N]] A
             ([40%N] :: S' ++ [[41%N]]));
      try reflexivity; assumption. }
  assert (match_ chars [js "]("] (2 + length A)
          = (Return tt, 2 + length A + 2)) as ->.
  { unfold chars. rewrite app_assoc.
    replace (2 + length A)
      with (length (([[33%N]; [91%N]] : list jsstring) ++ A))
      by (rewrite length_app; reflexivity).
    apply (match_at _ _ (js "](")); [|reflexivity|reflexivity].
    rewrite <- app_assoc. exact Hwf. }
  assert (parseText chars (js ")") (2 + length A + 2)
          = (src, 2 + length A + 2 + length S')) as ->.
  { rewrite <- (spread_run_text src). fold S'.
    rewrite Hsplit, <- Hlen'.
    apply (parseText_until (41%N :: SCANNED) 41 _ S' []);
      try reflexivity; assumption. }
  rewrite (match_of_matches chars (js ")")).
  - f_equal. rewrite Hlen. simpl. lia.
  - apply matches_current. rewrite Hsplit.
    rewrite <- Hlen', <- length_app, app_assoc.
    apply current_at.
Qed.

Lemma image_plain_witness :
  avoids (93%N :: SCANNED) (js "a *red* kite") = true
  /\ avoids (41%N :: SCANNED) (js "img/kite.png") = true
  /\ parse (js "![" ++ js "a *red* kite" ++ js "](" ++ js "img/kite.png" ++ js ")")
     = Return (Image (js "img/kite.png") (js "a *red* kite")).
Proof.
  split; [reflexivity|]. split; [reflexivity|].
  apply (image_plain (js "a *red* kite") (js "img/kite.png")); reflexivity.
Defined.

(* ================================================================= *)
(** ** Escapes *)

Lemma escaped_head (cps : list jsstring) :
  concat (map (fun c => BACKSLASH ++ c) cps) = []
  \/ exists t, concat (map (fun c => BACKSLASH ++ c) cps) = 92%N :: t.
Proof. destruct cps as [|c cps]; [now left | right]. simpl. eauto. Qed.

Lemma spread_escaped (cps : list jsstring) :
  wf_chars cps ->
  spread (concat (map (fun c => BACKSLASH ++ c) cps))
  = flat_map (fun c => [BACKSLASH; c]) cps.
Proof.
  unfold wf_chars. induction cps as [|c cps IH]; intros Hwf; [reflexivity|].
  cbn [forallb] in Hwf. apply andb_true_iff in Hwf as [Hc Hwf].
  specialize (IH Hwf).
  cbn [map concat flat_map].
  change (BACKSLASH ++ c) with (92%N :: c). cbn [app].
  rewrite spread_cons_plain by reflexivity. f_equal.
  destruct c as [|u [|l [|x c]]]; try discriminate.
  - cbn [app].
    destruct (escaped_head cps) as [E | (t & E)]; rewrite E in *.
    + now rewrite <- IH.
    + rewrite spread_cons2.
      replace (isLowSurrogate 92) with false by reflexivity.
      rewrite andb_false_r. now rewrite IH.
  - cbn [app]. rewrite spread_cons2. simpl in Hc. rewrite Hc. now rewrite IH.
Qed.

(** [parseText] takes a sequence of escaped code points whole, whatever the
    code points are. *)
Lemma parseText_loop_escaped (end_ : jsstring) (cps : list jsstring) :
  forall before after extra text,
    parseText_loop (before ++ flat_map (fun c => [BACKSLASH; c]) cps ++ after)
                   (length cps + extra) end_ text (length before)
    = parseText_loop (before ++ flat_map (fun c => [BACKSLASH; c]) cps ++ after)
                     extra end_ (text ++ concat cps)
                     (length before + 2 * length cps).
Proof.
  induction cps as [|c cps IH]; intros before after extra text.
  - simpl. now rewrite app_nil_r, Nat.add_0_r.
  - cbn [flat_map length Nat.add].
    set (chars := before ++ ([BACKSLASH; c] ++ flat_map (fun c0 => [BACKSLASH; c0]) cps)
                  ++ after).
    assert (chars = (before ++ [BACKSLASH; c])
                    ++ flat_map (fun c0 => [BACKSLASH; c0]) cps ++ after) as Hsplit
      by (unfold chars; now rewrite <- !app_assoc).
    assert (current chars (length before) = Some BACKSLASH) as Hcur
      by (unfold chars; cbn [app]; apply current_at).
    assert (current chars (length before + 1) = Some c) as Hnext.
    { unfold chars. cbn [app].
      change (before ++ BACKSLASH :: c :: flat_map (fun c0 => [BACKSLASH; c0]) cps ++ after)
        with (before ++ [BACKSLASH] ++ c :: flat_map (fun c0 => [BACKSLASH; c0]) cps ++ after).
      rewrite app_assoc.
      replace (length before + 1) with (length (before ++ [BACKSLASH]))
        by (rewrite length_app; reflexivity).
      apply current_at. }
    rewrite parseText_loop_escape;
      [| assumption
       | unfold chars; rewrite !length_app; simpl; lia].
    rewrite Hnext. cbn [str_of].
    specialize (IH (before ++ [BACKSLASH; c]) after extra (text ++ c)).
    rewrite <- Hsplit in IH. rewrite length_app in IH. cbn [length] in IH.
    cbn [concat]. rewrite app_assoc.
    replace (length before + 2 * S (length cps))
      with (length before + 2 + 2 * length cps) by lia.
    exact IH.
Qed.

(** X8.  Every string that is not empty can be written so that [parse]
    returns it as one text node: with a backslash before each of its code
    points, whatever they are. *)
Theorem escaped_text_is_text (s : jsstring) :
  s <> [] ->
  parse (escapeAll s) = Return (Text s).
Proof.
  intros Hne. unfold parse, parseNext, escapeAll.
  rewrite (spread_escaped (spread s) (spread_wf s)).
  set (cps := spread s).
  set (chars := flat_map (fun c => [BACKSLASH; c]) cps).
  assert (length chars = 2 * length cps) as Hlen.
  { unfold chars. clear. induction cps as [|c cps IH]; [reflexivity|].
    cbn [flat_map]. rewrite length_app, IH. simpl. lia. }
  assert (cps <> []) as Hcps by now apply spread_nonempty.
  assert (0 < length cps) as Hpos by (destruct cps; [contradiction | simpl; lia]).
  assert (parseText chars [] 0 = (s, length chars)) as Hscan.
  { unfold parseText.
    pose proof (parseText_loop_escaped [] cps [] [] (length cps) []) as H.
    rewrite app_nil_r in H. cbn [app length Nat.add] in H. fold chars in H.
    rewrite Nat.sub_0_r, Hlen.
    replace (2 * length cps) with (length cps + length cps) by lia.
    rewrite H. rewrite parseText_loop_done
      by (apply done_true; rewrite Hlen; lia).
    unfold cps. rewrite spread_run_text. f_equal. lia. }
  rewrite parseNext_loop_S. unfold iteration.
  assert (done chars 0 = false) as -> by (apply done_false; lia).
  rewrite Hscan. apply str_eqb_neq in Hne. rewrite Hne. cbn [negb app].
  destruct (length chars) as [|n] eqn:E; [lia|].
  rewrite parseNext_loop_done by (rewrite <- E; apply done_end).
  cbn [fst]. rewrite finish_text; [reflexivity|].
  now apply str_eqb_neq.
Qed.

Lemma escaped_text_is_text_witness :
  js "*not* [a](link)" <> []
  /\ parse (escapeAll (js "*not* [a](link)")) = Return (Text (js "*not* [a](link)")).
Proof.
  split; [discriminate|].
  apply (escaped_text_is_text (js "*not* [a](link)")). discriminate.
Defined.

(* ================================================================= *)
(** ** Blank lines *)

Lemma spread_plain (a : jsstring) :
  noSurrogate a = true -> spread a = map (fun u => [u]) a.
Proof.
  unfold noSurrogate. induction a as [|u a IH]; intros Ha; [reflexivity|].
  cbn [forallb] in Ha. apply andb_true_iff in Ha as [Hu Ha].
  apply negb_true_iff in Hu. unfold isSurrogate in Hu.
  apply orb_false_iff in Hu as [Hu _].
  rewrite spread_cons_plain by assumption. cbn [map]. now rewrite IH.
Qed.

Lemma isNewlines_unit (u : N) :
  (N.eqb u 13 || N.eqb u 10) = true -> u = 13%N \/ u = 10%N.
Proof.
  intros H. apply orb_true_iff in H as [H | H]; apply N.eqb_eq in H; auto.
Qed.

Lemma isNewlines_plain (nl : jsstring) :
  isNewlines nl = true -> noSurrogate nl = true.
Proof.
  unfold isNewlines, noSurrogate. rewrite !forallb_forall. intros H u Hu.
  destruct (isNewlines_unit u (H u Hu)) as [-> | ->]; reflexivity.
Qed.

(** Two newline characters, whichever they are, start a blank line. *)
Lemma new_paragraph_start (a b : N) (t : jsstring) :
  (N.eqb a 13 || N.eqb a 10) = true ->
  (N.eqb b 13 || N.eqb b 10) = true ->
  existsb (startsWith (a :: b :: t)) NEW_PARAGRAPH = true.
Proof.
  intros Ha Hb. apply existsb_exists. exists [a; b]. split.
  - destruct (isNewlines_unit a Ha) as [-> | ->];
      destruct (isNewlines_unit b Hb) as [-> | ->]; cbv; tauto.
  - simpl. now rewrite !N.eqb_refl.
Qed.

(** The loop over the newlines goes over a run of newline characters and
    stops after it. *)
Lemma skipNewlines_loop_run (nl : jsstring) :
  forall before after extra,
    isNewlines nl = true ->
    skipNewlines_loop (before ++ map (fun u => [u]) nl ++ after)
                      (length nl + extra) (length before)
    = skipNewlines_loop (before ++ map (fun u => [u]) nl ++ after) extra
                        (length before + length nl).
Proof.
  unfold isNewlines.
  induction nl as [|u nl IH]; intros before after extra Hnl.
  - simpl. now rewrite Nat.add_0_r.
  - cbn [forallb] in Hnl. apply andb_true_iff in Hnl as [Hu Hnl].
    cbn [map length Nat.add skipNewlines_loop].
    assert (current (before ++ ([u] :: map (fun u0 => [u0]) nl) ++ after)
                    (length before) = Some [u]) as Hcur
      by (cbn [app]; apply current_at).
    rewrite Hcur.
    assert (existsb (strictEq (Some [u])) NEWLINE = true) as ->
      by (destruct (isNewlines_unit u Hu) as [-> | ->]; reflexivity).
    specialize (IH (before ++ [[u]]) after extra Hnl).
    rewrite <- !app_assoc in IH. cbn [app] in IH.
    rewrite length_app in IH. cbn [length] in IH.
    replace (length before + S (length nl))
      with (length before + 1 + length nl) by lia.
    exact IH.
Qed.

Lemma skipNewlines_run (before after : list jsstring) (nl : jsstring) :
  isNewlines nl = true ->
  match after with
  | [] => true
  | c :: _ => startsClear [13; 10]%N c
  end = true ->
  skipNewlines (before ++ map (fun u => [u]) nl ++ after) (length before)
  = length before + length nl.
Proof.
  intros Hnl Hafter. unfold skipNewlines.
  assert (length (before ++ map (fun u => [u]) nl ++ after) - length before
          = length nl + length after) as ->
    by (unfold jsstring; rewrite !length_app, length_map; lia).
  rewrite skipNewlines_loop_run by assumption.
  destruct after as [|c after]; [reflexivity|].
  cbn [length skipNewlines_loop].
  match goal with
  | |- context [current ?cs ?k] => assert (current cs k = Some c) as ->
  end.
  { match goal with
    | |- context [map ?f nl] => rewrite <- (length_map f nl)
    end.
    apply current_after. }
  destruct c as [|x c]; [discriminate|].
  match goal with
  | |- context [existsb ?f NEWLINE] =>
      assert (existsb f NEWLINE = false) as ->; [|reflexivity]
  end.
  cbn. rewrite (startsClear_neq _ x c 13%N Hafter eq_refl).
  now rewrite (startsClear_neq _ x c 10%N Hafter eq_refl).
Qed.

(** At top level the iteration at a run of two or more newline characters
    promotes the children to paragraphs and goes on after the run. *)
Lemma blank_line_step (before after : list jsstring) (nl : jsstring)
    (fuel : nat) (root : list MarkdownNode) (text : jsstring) :
  let chars := before ++ map (fun u => [u]) nl ++ after in
  wf_chars chars ->
  2 <= length nl ->
  isNewlines nl = true ->
  match after with
  | [] => true
  | c :: _ => startsClear [13; 10]%N c
  end = true ->
  parseNext_loop chars (S fuel) [] root text (length before)
  = parseNext_loop chars fuel [] (fst (promote root text)) (snd (promote root text))
                   (length before + length nl).
Proof.
  intros chars Hwf Hlen Hnl Hafter.
  rewrite parseNext_loop_S.
  rewrite top_level_promotes; [|assumption|].
  - unfold chars. rewrite skipNewlines_run by assumption.
    now destruct (promote root text).
  - rewrite (matches_literal chars Hwf NEW_PARAGRAPH) by reflexivity.
    destruct nl as [|a [|b nl]]; simpl in Hlen; try lia.
    unfold isNewlines in Hnl. cbn [forallb] in Hnl.
    apply andb_true_iff in Hnl as [Ha Hnl].
    apply andb_true_iff in Hnl as [Hb _].
    pose proof (new_paragraph_start a b
                  (concat (map (fun u => [u]) nl ++ after)) Ha Hb) as Hstart.
    apply existsb_exists in Hstart as (p & Hin & Hp).
    apply existsb_exists. exists p. split; [assumption|].
    unfold chars. now rewrite literallyAt_middle.
Qed.

Lemma parseNext_loop_run_at (forbidden : list N) (end_ : jsstring)
    (chars before run after : list jsstring) (i fuel0 fuel : nat)
    (root : list MarkdownNode) (text : jsstring) :
  chars = before ++ run ++ after ->
  i = length before ->
  fuel0 = length run + fuel ->
  covers forbidden MARKUP = true ->
  endCovered forbidden end_ = true ->
  forallb (startsClear forbidden) run = true ->
  parseNext_loop chars fuel0 end_ root text i
  = parseNext_loop chars fuel end_ root (text ++ concat run) (i + length run).
Proof.
  intros -> -> -> Hcov Hend Hrun. now apply (parseNext_loop_run forbidden).
Qed.

Lemma blank_line_step_at (chars before after : list jsstring) (nl : jsstring)
    (i fuel : nat) (root : list MarkdownNode) (text : jsstring) :
  chars = before ++ map (fun u => [u]) nl ++ after ->
  i = length before ->
  wf_chars chars ->
  2 <= length nl ->
  isNewlines nl = true ->
  match after with
  | [] => true
  | c :: _ => startsClear [13; 10]%N c
  end = true ->
  parseNext_loop chars (S fuel) [] root text i
  = parseNext_loop chars fuel [] (fst (promote root text)) (snd (promote root text))
                   (i + length nl).
Proof. intros -> ->. apply blank_line_step. Qed.

Lemma run_after_newlines (s : jsstring) :
  avoids MARKUP s = true ->
  match spread s with
  | [] => true
  | c :: _ => startsClear [13; 10]%N c
  end = true.
Proof.
  intros Hs. pose proof (spread_heads MARKUP s Hs) as Hrun.
  destruct (spread s) as [|c run]; [reflexivity|].
  cbn [forallb] in Hrun. apply andb_true_iff in Hrun as [Hc _].
  now apply (startsClear_covers MARKUP).
Qed.

(** The code points of two texts with a run of newlines between them. *)
Lemma spread_around_newlines (s1 nl s2 : jsstring) :
  nl <> [] ->
  isNewlines nl = true ->
  spread (s1 ++ nl ++ s2) = spread s1 ++ map (fun u => [u]) nl ++ spread s2.
Proof.
  intros Hne Hnl. pose proof (isNewlines_plain nl Hnl) as Hplain.
  now rewrite spread_middle, (spread_plain nl).
Qed.

(** X9.  Two texts without markup with two or more newline characters
    between them, whichever they are, are two paragraphs, each with one of
    the texts: the newlines are in neither. *)
Theorem blank_line_splits (s1 nl s2 : jsstring) :
  s1 <> [] ->
  s2 <> [] ->
  avoids MARKUP s1 = true ->
  avoids MARKUP s2 = true ->
  2 <= length nl ->
  isNewlines nl = true ->
  parse (s1 ++ nl ++ s2)
  = Return (Fragment [Paragraph [Text s1]; Paragraph [Text s2]]).
Proof.
  intros Hne1 Hne2 Hs1 Hs2 Hlen Hnl.
  assert (nl <> []) as Hnlne by (destruct nl; [simpl in Hlen; lia | discriminate]).
  pose proof (spread_wf (s1 ++ nl ++ s2)) as Hwf.
  unfold parse, parseNext.
  rewrite (spread_around_newlines s1 nl s2 Hnlne Hnl) in *.
  pose proof (spread_heads MARKUP s1 Hs1) as Hrun1.
  pose proof (spread_heads MARKUP s2 Hs2) as Hrun2.
  pose proof (run_after_newlines s2 Hs2) as Hafter.
  pose proof (spread_run_text s1) as Htext1.
  pose proof (spread_run_text s2) as Htext2.
  set (R1 := spread s1) in *. set (R2 := spread s2) in *.
  match goal with
  | |- context [map ?f nl] => set (NL := map f nl) in *
  end.
  set (chars := R1 ++ NL ++ R2) in *.
  assert (length NL = length nl) as HNL by apply length_map.
  assert (length chars = length R1 + (length nl + length R2)) as Hchars
    by (unfold chars; rewrite !length_app, HNL; reflexivity).
  rewrite Hchars.
  rewrite (parseNext_loop_run_at MARKUP [] chars [] R1 (NL ++ R2) 0 _
             (S (length nl + length R2)));
    try reflexivity; try assumption; [|lia].
  rewrite Htext1. cbn [app Nat.add].
  rewrite (blank_line_step_at chars R1 R2 nl (length R1) (length nl + length R2));
    try reflexivity; try assumption.
  rewrite promote_nil. apply str_eqb_neq in Hne1. rewrite Hne1. cbn [negb fst snd].
  rewrite (parseNext_loop_run_at MARKUP [] chars (R1 ++ NL) R2 [] _ _ (length nl));
    try reflexivity; try assumption.
  - rewrite Htext2. cbn [app].
    destruct (length nl) as [|k] eqn:E; [lia|].
    rewrite parseNext_loop_done
      by (apply done_true; rewrite Hchars; lia).
    cbn [fst]. unfold finish, flush. apply str_eqb_neq in Hne2. rewrite Hne2.
    reflexivity.
  - unfold chars. now rewrite app_nil_r, app_assoc.
  - unfold jsstring in *. rewrite length_app. lia.
  - lia.
Qed.

Lemma blank_line_splits_witness :
  js "one" <> []
  /\ js "two" <> []
  /\ avoids MARKUP (js "one") = true
  /\ avoids MARKUP (js "two") = true
  /\ 2 <= length (LF ++ CR ++ LF ++ LF)
  /\ isNewlines (LF ++ CR ++ LF ++ LF) = true
  /\ parse (js "one" ++ (LF ++ CR ++ LF ++ LF) ++ js "two")
     = Return (Fragment [Paragraph [Text (js "one")]; Paragraph [Text (js "two")]]).
Proof.
  split; [discriminate|]. split; [discriminate|].
  split; [reflexivity|]. split; [reflexivity|].
  split; [simpl; lia|]. split; [reflexivity|].
  apply (blank_line_splits (js "one") (LF ++ CR ++ LF ++ LF) (js "two"));
    try discriminate; try reflexivity. simpl. lia.
Defined.

(** X10.  Two or more newline characters before a text without markup are
    dropped: the result is the text node alone, in no paragraph. *)
Theorem blank_lines_before (nl s : jsstring) :
  s <> [] ->
  avoids MARKUP s = true ->
  2 <= length nl ->
  isNewlines nl = true ->
  parse (nl ++ s) = Return (Text s).
Proof.
  intros Hne Hs Hlen Hnl.
  assert (nl <> []) as Hnlne by (destruct nl; [simpl in Hlen; lia | discriminate]).
  pose proof (spread_wf (nl ++ s)) as Hwf.
  unfold parse, parseNext.
  change (nl ++ s) with ([] ++ nl ++ s) in *.
  rewrite (spread_around_newlines [] nl s Hnlne Hnl) in *.
  pose proof (spread_heads MARKUP s Hs) as Hrun.
  pose proof (run_after_newlines s Hs) as Hafter.
  pose proof (spread_run_text s) as Htext.
  set (R := spread s) in *.
  match goal with
  | |- context [map ?f nl] => set (NL := map f nl) in *
  end.
  change (spread []) with ([] : list jsstring) in *. cbn [app] in *.
  match goal with
  | |- context [parseNext_loop ?cs _ _ _ _ _] => set (chars := cs) in *
  end.
  assert (length NL = length nl) as HNL by apply length_map.
  assert (@length jsstring chars = length nl + length R) as Hchars
    by (unfold chars, jsstring in *; rewrite length_app; lia).
  rewrite Hchars.
  rewrite (blank_line_step_at chars [] R nl 0 (length nl + length R));
    try reflexivity; try assumption.
  rewrite promote_nil. cbn [str_eqb negb fst snd Nat.add].
  rewrite (parseNext_loop_run_at MARKUP [] chars NL R [] _ _ (length nl));
    try reflexivity; try assumption.
  - rewrite Htext. cbn [app].
    destruct (length nl) as [|k] eqn:E; [lia|].
    rewrite parseNext_loop_done
      by (apply done_true; rewrite Hchars; lia).
    cbn [fst]. now rewrite finish_text.
  - unfold chars. now rewrite app_nil_r.
  - unfold jsstring in *. lia.
  - lia.
Qed.

Lemma blank_lines_before_witness :
  js "text" <> []
  /\ avoids MARKUP (js "text") = true
  /\ 2 <= length (CR ++ LF ++ CR ++ LF)
  /\ isNewlines (CR ++ LF ++ CR ++ LF) = true
  /\ parse ((CR ++ LF ++ CR ++ LF) ++ js "text") = Return (Text (js "text")).
Proof.
  split; [discriminate|]. split; [reflexivity|].
  split; [simpl; lia|]. split; [reflexivity|].
  apply (blank_lines_before (CR ++ LF ++ CR ++ LF) (js "text"));
    try discriminate; try reflexivity. simpl. lia.
Defined.

(** X11.  Two or more newline characters after a text without markup leave
    one paragraph with the text: the paragraph that the blank line opens
    stays empty and is removed, and the paragraph that is left is returned
    as the root. *)
Theorem blank_lines_after (s nl : jsstring) :
  s <> [] ->
  avoids MARKUP s = true ->
  2 <= length nl ->
  isNewlines nl = true ->
  parse (s ++ nl) = Return (Paragraph [Text s]).
Proof.
  intros Hne Hs Hlen Hnl.
  assert (nl <> []) as Hnlne by (destruct nl; [simpl in Hlen; lia | discriminate]).
  replace (s ++ nl) with (s ++ nl ++ []) by now rewrite app_nil_r.
  pose proof (spread_wf (s ++ nl ++ [])) as Hwf.
  unfold parse, parseNext.
  rewrite (spread_around_newlines s nl [] Hnlne Hnl) in *.
  pose proof (spread_heads MARKUP s Hs) as Hrun.
  pose proof (spread_run_text s) as Htext.
  set (R := spread s) in *.
  match goal with
  | |- context [map ?f nl] => set (NL := map f nl) in *
  end.
  change (spread []) with ([] : list jsstring) in *.
  match goal with
  | |- context [parseNext_loop ?cs _ _ _ _ _] => set (chars := cs) in *
  end.
  assert (length NL = length nl) as HNL by apply length_map.
  assert (@length jsstring chars = length R + length nl) as Hchars
    by (unfold chars, jsstring in *; rewrite !length_app; simpl; lia).
  rewrite Hchars.
  rewrite (parseNext_loop_run_at MARKUP [] chars [] R (NL ++ []) 0 _
             (S (length nl)));
    try reflexivity; try assumption; [|lia].
  rewrite Htext. cbn [app Nat.add].
  rewrite (blank_line_step_at chars R [] nl (length R) (length nl));
    try reflexivity; try assumption.
  rewrite promote_nil. apply str_eqb_neq in Hne. rewrite Hne. cbn [negb fst snd].
  destruct (length nl) as [|k] eqn:E; [lia|].
  rewrite parseNext_loop_done
    by (apply done_true; rewrite Hchars; lia).
  reflexivity.
Qed.

Lemma blank_lines_after_witness :
  js "text" <> []
  /\ avoids MARKUP (js "text") = true
  /\ 2 <= length (LF ++ LF ++ LF)
  /\ isNewlines (LF ++ LF ++ LF) = true
  /\ parse (js "text" ++ (LF ++ LF ++ LF)) = Return (Paragraph [Text (js "text")]).
Proof.
  split; [discriminate|]. split; [reflexivity|].
  split; [simpl; lia|]. split; [reflexivity|].
  apply (blank_lines_after (js "text") (LF ++ LF ++ LF));
    try discriminate; try reflexivity. simpl. lia.
Defined.

(* ================================================================= *)
(** ** The cursor stays in the input *)

Section Bounds.

Variable chars : list jsstring.

Lemma getSlice_empty (i : nat) : getSlice chars i i = [].
Proof. unfold getSlice. now rewrite Nat.sub_diag. Qed.

Lemma getSlice_step (i j : nat) (c : jsstring) :
  current chars i = Some c -> i < j ->
  getSlice chars i j = c ++ getSlice chars (i + 1) j.
Proof.
  intros Hcur Hlt. unfold getSlice, current in *.
  rewrite (skipn_of_nth_error _ _ _ Hcur).
  replace (j - i) with (S (j - (i + 1))) by lia.
  replace (i + 1) with (S i) by lia. reflexivity.
Qed.

Lemma current_in_range (i : nat) :
  done chars i = false -> exists c, current chars i = Some c.
Proof.
  intros Hdone. apply done_false in Hdone. unfold current.
  destruct (nth_error chars i) as [c|] eqn:E; [now exists c|].
  apply nth_error_None in E. lia.
Qed.

(** Where [parseText] stops: not before the index it starts from, not
    after the end of the input, and either at the end of the input or at a
    code point where no escape starts and that is the terminator or a
    newline (any code point, when the terminator is empty). *)
Lemma parseText_loop_post (fuel : nat) :
  forall end_ text i,
    length chars - i <= fuel ->
    i <= length chars ->
    let j := snd (parseText_loop chars fuel end_ text i) in
    j <= length chars
    /\ (done chars j = true
        \/ ((strictEq (current chars j) BACKSLASH && (j + 1 <? length chars))
            = false
            /\ (str_eqb end_ [] || matches chars [end_] j
                || matches chars NEWLINE j) = true)).
Proof.
  induction fuel as [|fuel IH]; intros end_ text i Hfuel Hi; cbn [parseText_loop].
  - cbn [snd]. split; [assumption|]. left. apply done_true. lia.
  - destruct (done chars i) eqn:Hdone; cbn [snd].
    { split; [assumption | now left]. }
    apply done_false in Hdone.
    destruct (strictEq (current chars i) BACKSLASH && (i + 1 <? length chars))
      eqn:Hesc.
    + apply andb_true_iff in Hesc as [_ Hnext]. apply Nat.ltb_lt in Hnext.
      apply IH; lia.
    + destruct (str_eqb end_ [] || matches chars [end_] i
                || matches chars NEWLINE i) eqn:Hstop; cbn [snd].
      * split; [assumption | right; now split].
      * apply IH; lia.
Qed.

Hypothesis no_backslash :
  forallb (fun c => negb (str_eqb c BACKSLASH)) chars = true.

Lemma parseText_loop_slice (fuel : nat) :
  forall end_ text i,
    parseText_loop chars fuel end_ text i
    = (text ++ getSlice chars i (snd (parseText_loop chars fuel end_ text i)),
       snd (parseText_loop chars fuel end_ text i)).
Proof.
  induction fuel as [|fuel IH]; intros end_ text i; cbn [parseText_loop].
  - cbn [snd]. now rewrite getSlice_empty, app_nil_r.
  - destruct (done chars i) eqn:Hdone; cbn [snd];
      [now rewrite getSlice_empty, app_nil_r|].
    destruct (current_in_range i Hdone) as (c & Hcur).
    assert (strictEq (current chars i) BACKSLASH = false) as ->.
    { rewrite Hcur. simpl. apply negb_true_iff.
      rewrite forallb_forall in no_backslash. apply no_backslash.
      now apply nth_error_In with i. }
    cbn [andb].
    destruct (str_eqb end_ [] || matches chars [end_] i
              || matches chars NEWLINE i); cbn [snd];
      [now rewrite getSlice_empty, app_nil_r|].
    rewrite Hcur. cbn [str_of].
    pose proof (parseText_loop_mono chars fuel end_ (text ++ c) (i + 1)) as Hmono.
    rewrite (IH end_ (text ++ c) (i + 1)). cbn [snd].
    set (j := snd (parseText_loop chars fuel end_ (text ++ c) (i + 1))) in *.
    rewrite (getSlice_step i j c Hcur) by lia.
    now rewrite <- app_assoc.
Qed.

End Bounds.

(** X12.  [parseText] stops inside the input, at its end or at a code
    point where no escape starts and that is the terminator or a newline:
    it consumes neither of them. *)
Theorem parseText_stops (chars : list jsstring) (end_ : jsstring) (i : nat) :
  i <= length chars ->
  end_ <> [] ->
  let j := snd (parseText chars end_ i) in
  i <= j <= length chars
  /\ (j = length chars
      \/ ((strictEq (current chars j) BACKSLASH && (j + 1 <? length chars))
          = false
          /\ (matches chars [end_] j || matches chars NEWLINE j) = true)).
Proof.
  intros Hi Hne j.
  pose proof (parseText_mono chars end_ i) as Hmono. fold j in Hmono.
  destruct (parseText_loop_post chars (length chars - i) end_ [] i (le_n _) Hi)
    as [Hle Hstop].
  fold (parseText chars end_ i) in Hle, Hstop. fold j in Hle, Hstop.
  split; [lia|].
  destruct Hstop as [Hdone | [Hesc Hstop]].
  - left. apply done_true in Hdone. lia.
  - right. split; [assumption|].
    apply str_eqb_neq in Hne. now rewrite Hne in Hstop.
Qed.

Lemma parseText_stops_witness :
  let chars := spread (js "a\)b)c") in
  1 <= length chars
  /\ js ")" <> []
  /\ 1 <= snd (parseText chars (js ")") 1) <= length chars
  /\ (snd (parseText chars (js ")") 1) = length chars
      \/ ((strictEq (current chars (snd (parseText chars (js ")") 1))) BACKSLASH
           && (snd (parseText chars (js ")") 1) + 1 <? length chars)) = false
          /\ (matches chars [js ")"] (snd (parseText chars (js ")") 1))
              || matches chars NEWLINE (snd (parseText chars (js ")") 1)))
             = true)).
Proof.
  split; [simpl; lia|]. split; [discriminate|].
  apply (parseText_stops (spread (js "a\)b)c")) (js ")") 1);
    [simpl; lia | discriminate].
Defined.

(** X13.  In an input without a backslash, the string that [parseText]
    returns is the input between the index where it starts and the index
    where it stops. *)
Theorem parseText_is_slice (chars : list jsstring) (end_ : jsstring) (i : nat) :
  forallb (fun c => negb (str_eqb c BACKSLASH)) chars = true ->
  fst (parseText chars end_ i)
  = getSlice chars i (snd (parseText chars end_ i)).
Proof.
  intros Hno. unfold parseText.
  now rewrite (parseText_loop_slice chars Hno (length chars - i) end_ [] i).
Qed.

Lemma parseText_is_slice_witness :
  let chars := spread (js "[x](a*b c) d") in
  forallb (fun c => negb (str_eqb c BACKSLASH)) chars = true
  /\ fst (parseText chars (js ")") 4)
     = getSlice chars 4 (snd (parseText chars (js ")") 4)).
Proof.
  split; [reflexivity|].
  apply (parseText_is_slice (spread (js "[x](a*b c) d")) (js ")") 4).
  reflexivity.
Defined.

Lemma startsWith_length (s : jsstring) :
  forall l : list jsstring,
    wf_chars l -> noSurrogate s = true ->
    startsWith (concat l) s = true -> length s <= length l.
Proof.
  unfold wf_chars, noSurrogate.
  induction s as [|u s IH]; intros l Hl Hs Hstart; [simpl; lia|].
  cbn [forallb] in Hs. apply andb_true_iff in Hs as [Hu Hs].
  apply negb_true_iff in Hu.
  destruct l as [|c l]; [discriminate|].
  cbn [forallb] in Hl. apply andb_true_iff in Hl as [Hc Hl].
  destruct c as [|x [|y [|z c]]]; try discriminate.
  - cbn [concat app] in Hstart. rewrite startsWith_cons in Hstart.
    apply andb_true_iff in Hstart as [_ Hstart].
    specialize (IH l Hl Hs Hstart). simpl. lia.
  - cbn [concat app] in Hstart. rewrite startsWith_cons in Hstart.
    apply andb_true_iff in Hstart as [Hxu _].
    simpl in Hc. apply andb_true_iff in Hc as [Hx _].
    rewrite (high_not_plain x u Hx Hu) in Hxu. discriminate.
Qed.

Section CursorBounds.

Variable chars : list jsstring.
Hypothesis chars_wf : wf_chars chars.

(** A candidate without surrogates that is at the index ends in the
    input. *)
Lemma lookAhead_bound (s : jsstring) (i : nat) :
  noSurrogate s = true ->
  i <= length chars ->
  strictEq (lookAhead chars (length s) i) s = true ->
  i + length s <= length chars.
Proof.
  intros Hs Hi Hlook.
  rewrite (lookAhead_literal chars s i chars_wf Hs) in Hlook.
  unfold literallyAt in Hlook.
  apply (startsWith_length s _ (wf_chars_skipn chars i chars_wf) Hs) in Hlook.
  rewrite length_skipn in Hlook. lia.
Qed.

Lemma match_one_bound (s : jsstring) (i : nat) (o : outcome unit) (j : nat) :
  noSurrogate s = true ->
  i <= length chars ->
  match_ chars [s] i = (o, j) ->
  j <= length chars.
Proof.
  intros Hs Hi. rewrite match_one.
  destruct (strictEq (lookAhead chars (length s) i) s) eqn:E;
    intros [= <- <-]; [|assumption].
  now apply lookAhead_bound.
Qed.

Lemma parseText_bound (end_ : jsstring) (i : nat) :
  i <= length chars -> snd (parseText chars end_ i) <= length chars.
Proof.
  intros Hi.
  now destruct (parseText_loop_post chars (length chars - i) end_ [] i (le_n _) Hi).
Qed.

Lemma skipNewlines_loop_bound (fuel : nat) :
  forall i, i <= length chars -> skipNewlines_loop chars fuel i <= length chars.
Proof.
  induction fuel as [|fuel IH]; intros i Hi; cbn [skipNewlines_loop];
    [assumption|].
  destruct (existsb (strictEq (current chars i)) NEWLINE) eqn:E; [|assumption].
  apply IH. destruct (done chars i) eqn:Hdone.
  - apply current_done in Hdone. rewrite Hdone in E. discriminate.
  - apply done_false in Hdone. lia.
Qed.

(** With the empty terminator [parseText] returns the empty string only
    where it consumes nothing. *)
Lemma parseText_nothing (i : nat) :
  fst (parseText chars [] i) = [] -> snd (parseText chars [] i) = i.
Proof.
  unfold parseText.
  destruct (length chars - i) as [|fuel]; [reflexivity|].
  cbn [parseText_loop].
  destruct (done chars i); [reflexivity|].
  destruct (strictEq (current chars i) BACKSLASH && (i + 1 <? length chars))
    eqn:Hesc; [|reflexivity].
  apply andb_true_iff in Hesc as [_ Hnext]. apply Nat.ltb_lt in Hnext.
  destruct (current_in_range chars (i + 1)) as (c & Hc);
    [apply done_false; lia|].
  rewrite Hc. cbn [str_of app]. rewrite parseText_loop_acc. cbn [fst].
  pose proof (wf_chars_nth chars (i + 1) c chars_wf Hc) as Hcp.
  destruct c as [|u c]; [discriminate|]. discriminate.
Qed.

(** A node that [parseCurrent] returns ends in the input, when the nested
    calls of [parseNext] end in the input. *)
Lemma parseCurrent_bound (pn : jsstring -> M MarkdownNode) (i : nat)
    (n : MarkdownNode) (i' : nat) :
  i < length chars ->
  (forall e j m j', j <= length chars -> pn e j = (Return m, j') ->
                    j' <= length chars) ->
  parseCurrent_ chars pn i = (Return (Some n), i') ->
  i' <= length chars.
Proof.
  intros Hi Hpn.
  unfold parseCurrent_, bind, get, ret, call, advance. intros H.
  destruct (strictEq (lookAhead chars 1 i) (js "*")
            || strictEq (lookAhead chars 1 i) (js "_")) eqn:Hemph.
  { cbv beta in H.
    pose proof (emphasis_delimiter chars i Hemph) as Hd. cbv zeta in Hd.
    assert (i + length (if matches chars [js "**"] i then js "**"
                        else str_of (lookAhead chars 1 i)) <= length chars) as Hadv.
    { destruct (matches chars [js "**"] i) eqn:Hdouble.
      - unfold matches in Hdouble. cbn [existsb] in Hdouble.
        rewrite orb_false_r in Hdouble.
        apply lookAhead_bound; [reflexivity | lia | assumption].
      - apply orb_true_iff in Hemph.
        destruct Hemph as [Hc | Hc]; apply strictEq_eq in Hc; rewrite Hc;
          simpl; lia. }
    set (delimiter := if matches chars [js "**"] i then js "**"
                      else str_of (lookAhead chars 1 i)) in *.
    assert (noSurrogate delimiter = true) as Hplain
      by (destruct Hd as [-> | [-> | ->]]; reflexivity).
    destruct (pn delimiter (i + length delimiter)) as [[m| |] j] eqn:Hcall;
      try discriminate.
    pose proof (Hpn _ _ _ _ Hadv Hcall) as Hj.
    destruct (match_ chars [delimiter] j) as [[[]| |] j'] eqn:Hm;
      try discriminate.
    injection H as _ <-.
    now apply (match_one_bound delimiter j _ _ Hplain Hj Hm). }
  destruct (strictEq (lookAhead chars 1 i) (js "~")).
  { cbv beta in H.
    destruct (match_ chars [js "~~"] i) as [[[]| |] j0] eqn:Hm0; try discriminate.
    pose proof (match_one_bound (js "~~") i _ _ eq_refl (Nat.lt_le_incl _ _ Hi) Hm0)
      as Hj0.
    destruct (pn (js "~~") j0) as [[m| |] j] eqn:Hcall; try discriminate.
    pose proof (Hpn _ _ _ _ Hj0 Hcall) as Hj.
    destruct (match_ chars [js "~~"] j) as [[[]| |] j'] eqn:Hm; try discriminate.
    injection H as _ <-.
    now apply (match_one_bound (js "~~") j _ _ eq_refl Hj Hm). }
  destruct (strictEq (lookAhead chars 1 i) (js "`")).
  { cbv beta in H.
    destruct (matches chars [js "```"] i); [discriminate|]. cbv beta in H.
    set (delimiter := if matches chars [js "``"] i then js "``" else js "`") in *.
    assert (noSurrogate delimiter = true) as Hplain
      by (unfold delimiter; destruct (matches chars [js "``"] i); reflexivity).
    destruct (match_ chars [delimiter] i) as [[[]| |] j0] eqn:Hm0; try discriminate.
    pose proof (match_one_bound delimiter i _ _ Hplain (Nat.lt_le_incl _ _ Hi) Hm0)
      as Hj0.
    pose proof (parseText_bound delimiter j0 Hj0) as Hj.
    destruct (parseText chars delimiter j0) as [scanned j]. cbn [snd] in Hj.
    destruct (matches chars [js "```"] j); [discriminate|]. cbv beta in H.
    destruct (match_ chars [delimiter] j) as [[[]| |] j'] eqn:Hm; try discriminate.
    injection H as _ <-.
    now apply (match_one_bound delimiter j _ _ Hplain Hj Hm). }
  destruct (strictEq (lookAhead chars 1 i) (js "!")).
  { cbv beta in H.
    destruct (match_ chars [js "["] (i + 1)) as [[[]| |] j0] eqn:Hm0;
      try discriminate.
    assert (i + 1 <= length chars) as Hi1 by lia.
    pose proof (match_one_bound (js "[") _ _ _ eq_refl Hi1 Hm0) as Hj0.
    pose proof (parseText_bound (js "]") j0 Hj0) as Hj1.
    destruct (parseText chars (js "]") j0) as [alt j1]. cbn [snd] in Hj1.
    destruct (match_ chars [js "]("] j1) as [[[]| |] j2] eqn:Hm2; try discriminate.
    pose proof (match_one_bound (js "](") _ _ _ eq_refl Hj1 Hm2) as Hj2.
    pose proof (parseText_bound (js ")") j2 Hj2) as Hj3.
    destruct (parseText chars (js ")") j2) as [src j3]. cbn [snd] in Hj3.
    destruct (match_ chars [js ")"] j3) as [[[]| |] j'] eqn:Hm; try discriminate.
    injection H as _ <-.
    now apply (match_one_bound (js ")") j3 _ _ eq_refl Hj3 Hm). }
  destruct (strictEq (lookAhead chars 1 i) (js "[")); [|discriminate].
  cbv beta in H.
  destruct (pn (js "]") (i + 1)) as [[m| |] j1] eqn:Hcall; try discriminate.
  assert (i + 1 <= length chars) as Hi1 by lia.
  pose proof (Hpn _ _ _ _ Hi1 Hcall) as Hj1.
  destruct (match_ chars [js "]("] j1) as [[[]| |] j2] eqn:Hm2; try discriminate.
  pose proof (match_one_bound (js "](") _ _ _ eq_refl Hj1 Hm2) as Hj2.
  pose proof (parseText_bound (js ")") j2 Hj2) as Hj3.
  destruct (parseText chars (js ")") j2) as [href j3]. cbn [snd] in Hj3.
  destruct (match_ chars [js ")"] j3) as [[[]| |] j'] eqn:Hm; try discriminate.
  injection H as _ <-.
  now apply (match_one_bound (js ")") j3 _ _ eq_refl Hj3 Hm).
Qed.

(** Whatever an iteration does, it leaves the index in the input; and it
    leaves the loop only at the end of the input, or at the terminator or a
    newline of a nested call. *)
Lemma iteration_bound (pc : M (option MarkdownNode)) (end_ : jsstring)
    (root : list MarkdownNode) (text : jsstring) (i : nat) :
  i <= length chars ->
  (forall i1 n j, i1 < length chars -> pc i1 = (Return (Some n), j) ->
                  j <= length chars) ->
  match iteration chars pc end_ root text i with
  | Break j =>
      j <= length chars
      /\ (done chars j = true
          \/ (end_ <> []
              /\ (matches chars [end_] j || matches chars NEWLINE j) = true))
  | Continue _ _ j => j <= length chars
  | Exhausted _ => True
  end.
Proof.
  intros Hi Hpc. unfold iteration.
  destruct (done chars i) eqn:Hdone; [split; [assumption | now left]|].
  apply done_false in Hdone.
  pose proof (parseText_bound [] i Hi) as Hi1.
  pose proof (parseText_nothing i) as Hnone.
  destruct (parseText chars [] i) as [escapedText i1]. cbn [fst snd] in *.
  destruct (negb (str_eqb escapedText [])) eqn:Hesc; [assumption|].
  apply negb_false_iff, str_eqb_eq in Hesc. specialize (Hnone Hesc). subst i1.
  destruct (negb (str_eqb end_ [])
            && (matches chars [end_] i || matches chars NEWLINE i)) eqn:Hstop.
  { split; [assumption | right].
    apply andb_true_iff in Hstop as [Hne Hstop].
    apply negb_true_iff, str_eqb_neq in Hne. now split. }
  destruct (matches chars NEW_PARAGRAPH i).
  { destruct (promote root text). unfold skipNewlines.
    now apply skipNewlines_loop_bound. }
  destruct (pc i) as [[[n|]| |] j] eqn:Hcall; try exact I; try lia.
  now apply (Hpc i n j).
Qed.

Lemma parseNext_loop_bound (fuel : nat) :
  forall end_ root text i root' text' j,
    i <= length chars ->
    parseNext_loop chars fuel end_ root text i = (Return (root', text'), j) ->
    j <= length chars
    /\ (done chars j = true
        \/ (end_ <> []
            /\ (matches chars [end_] j || matches chars NEWLINE j) = true)).
Proof.
  induction fuel as [|fuel IH]; intros end_ root text i root' text' j Hi E;
    [discriminate|].
  rewrite parseNext_loop_S in E.
  assert (forall i1 n j1, i1 < length chars ->
            parseCurrent chars fuel i1 = (Return (Some n), j1) ->
            j1 <= length chars) as Hpc.
  { intros i1 n j1 Hi1. apply parseCurrent_bound; [assumption|].
    intros e j0 m j' Hj0. unfold parseNext.
    destruct (parseNext_loop chars fuel e [] [] j0) as [[[r t]| |] j2] eqn:El;
      try discriminate.
    intros [= _ <-]. now apply (IH e [] [] j0 r t j2). }
  pose proof (iteration_bound (parseCurrent chars fuel) end_ root text i Hi Hpc)
    as Hit.
  destruct (iteration chars (parseCurrent chars fuel) end_ root text i)
    as [j0 | root1 text1 j0 | j0]; [| |discriminate].
  - now injection E as _ _ <-.
  - now apply (IH end_ root1 text1 j0 root' text' j).
Qed.

End CursorBounds.

(** X14.  A call of [parseNext] that starts in the input returns in the
    input, not before the index it started from; it returns at the end of
    the input or, with a terminator, at the terminator or at a newline,
    which it does not consume. *)
Theorem parseNext_stops (chars : list jsstring) (fuel : nat) (end_ : jsstring)
    (i : nat) (node : MarkdownNode) (j : nat) :
  wf_chars chars ->
  i <= length chars ->
  length chars - i < fuel ->
  parseNext chars fuel end_ i = (Return node, j) ->
  i <= j <= length chars
  /\ (j = length chars
      \/ (end_ <> []
          /\ (matches chars [end_] j || matches chars NEWLINE j) = true)).
Proof.
  intros Hwf Hi Hfuel Hcall.
  destruct (parseNext_total chars Hwf fuel end_ i Hfuel) as (n & j' & E & Hle).
  rewrite Hcall in E. injection E as _ <-.
  unfold parseNext in Hcall.
  destruct (parseNext_loop chars fuel end_ [] [] i) as [[[r t]| |] j2] eqn:El;
    try discriminate.
  injection Hcall as _ <-.
  destruct (parseNext_loop_bound chars Hwf fuel end_ [] [] i r t j2 Hi El)
    as [Hj Hstop].
  split; [lia|]. destruct Hstop as [Hdone | Hstop]; [left | now right].
  apply done_true in Hdone. lia.
Qed.

Lemma parseNext_stops_witness :
  let chars := spread (js "[see *this*](there)") in
  wf_chars chars
  /\ 1 <= length chars
  /\ length chars - 1 < 20
  /\ parseNext chars 20 (js "]") 1
     = (Return (Fragment [Text (js "see "); Italic (Text (js "this"))]), 11)
  /\ 1 <= 11 <= length chars
  /\ (11 = length chars
      \/ (js "]" <> []
          /\ (matches chars [js "]"] 11 || matches chars NEWLINE 11) = true)).
Proof.
  split; [reflexivity|]. split; [simpl; lia|]. split; [simpl; lia|].
  split; [reflexivity|].
  apply (parseNext_stops (spread (js "[see *this*](there)")) 20 (js "]") 1
           (Fragment [Text (js "see "); Italic (Text (js "this"))]) 11);
    [reflexivity | simpl; lia | simpl; lia | reflexivity].
Defined.

(** X15.  [parse] reads the whole input: the call of [parseNext] that it
    makes returns with the index at the end of the input. *)
Theorem parse_reads_all (markdown : jsstring) :
  exists node,
    parseNext (spread markdown) (S (length (spread markdown))) [] 0
    = (Return node, length (spread markdown))
    /\ parse markdown = Return node.
Proof.
  pose proof (spread_wf markdown) as Hwf.
  destruct (parseNext_total (spread markdown) Hwf
              (S (length (spread markdown))) [] 0) as (node & j & E & _); [lia|].
  exists node. split; [|unfold parse; now rewrite E].
  unfold parseNext in E |- *.
  destruct (parseNext_loop (spread markdown) (S (length (spread markdown)))
              [] [] [] 0) as [[[r t]| |] j2] eqn:El; try discriminate.
  injection E as <- <-.
  destruct (parseNext_loop_bound (spread markdown) Hwf _ [] [] [] 0 r t j2
              (Nat.le_0_l _) El) as [Hj [Hdone | [Hne _]]].
  - apply done_true in Hdone. f_equal. lia.
  - now contradiction Hne.
Qed.

(* ================================================================= *)
(** ** Invariants of the whole tree *)

Section ElementInvariant.

(** [E] is what holds of every child of a root, [Q] what holds of every
    node that [parseNext] returns. *)
Variable E Q : MarkdownNode -> bool.

Hypothesis E_text : forall text, text <> [] -> E (Text text) = true.
Hypothesis E_paragraph : forall cs, E (Paragraph cs) = forallb E cs.
Hypothesis E_leaf : forall s a, E (Code s) = true /\ E (Image s a) = true.
Hypothesis E_wrap :
  forall m, Q m = true ->
    E (Italic m) = true /\ E (Bold m) = true /\ E (Strike m) = true
    /\ forall h, E (Link h m) = true.
Hypothesis Q_collapse :
  forall cs, forallb E cs = true -> Q (collapse cs) = true.

Lemma elements_push (root nodes : list MarkdownNode) :
  forallb E root = true -> forallb E nodes = true ->
  forallb E (pushToParent root nodes) = true.
Proof.
  intros Hroot Hnodes.
  destruct (snoc_cases root) as [-> | (init & c & ->)]; [assumption|].
  rewrite pushToParent_snoc.
  rewrite forallb_app in Hroot. apply andb_true_iff in Hroot as [Hinit Hc].
  cbn [forallb] in Hc. rewrite andb_true_r in Hc.
  destruct c;
    try (rewrite !forallb_app, Hinit, Hnodes; cbn [forallb]; now rewrite Hc).
  rewrite E_paragraph in Hc.
  rewrite forallb_app, Hinit. cbn [forallb].
  now rewrite E_paragraph, forallb_app, Hc, Hnodes.
Qed.

Lemma elements_pending (text : jsstring) (nodes : list MarkdownNode) :
  forallb E nodes = true ->
  forallb E ((if negb (str_eqb text []) then [Text text] else []) ++ nodes) = true.
Proof.
  intros Hnodes. destruct (negb (str_eqb text [])) eqn:Hne; [|assumption].
  apply negb_true_iff, str_eqb_neq in Hne.
  cbn [app forallb]. now rewrite E_text.
Qed.

Lemma elements_promote (root : list MarkdownNode) (text : jsstring) :
  forallb E root = true -> forallb E (fst (promote root text)) = true.
Proof.
  intros Hroot.
  pose proof (elements_pending text [] eq_refl) as Hpend.
  rewrite app_nil_r in Hpend.
  destruct (snoc_cases root) as [-> | (init & c & ->)].
  - rewrite promote_nil. destruct (negb (str_eqb text [])) eqn:Hne;
      [|reflexivity].
    cbn [fst forallb]. rewrite !E_paragraph. cbn [forallb].
    apply negb_true_iff, str_eqb_neq in Hne. now rewrite E_text.
  - rewrite promote_snoc. cbv zeta. cbn [fst].
    set (pending := if negb (str_eqb text []) then [Text text] else []) in *.
    assert (E (Paragraph ((init ++ [c]) ++ pending)) = true) as Hp
      by (now rewrite E_paragraph, forallb_app, Hroot, Hpend).
    assert (E (Paragraph []) = true) as Hempty by now rewrite E_paragraph.
    rewrite forallb_app in Hroot. apply andb_true_iff in Hroot as [Hinit Hc].
    cbn [forallb] in Hc. rewrite andb_true_r in Hc.
    destruct c; try (cbn [forallb]; now rewrite Hp, Hempty).
    rewrite E_paragraph in Hc.
    rewrite forallb_app, Hinit. cbn [forallb].
    now rewrite E_paragraph, forallb_app, Hc, Hpend, Hempty.
Qed.

Lemma elements_finish (root : list MarkdownNode) (text : jsstring) :
  forallb E root = true -> Q (finish root text) = true.
Proof.
  intros Hroot. unfold finish. apply Q_collapse, forallb_popEmptyParagraph.
  unfold flush. destruct (negb (str_eqb text [])) eqn:Hne; [|assumption].
  apply elements_push; [assumption|].
  apply negb_true_iff, str_eqb_neq in Hne. cbn [forallb]. now rewrite E_text.
Qed.

Variable chars : list jsstring.
Hypothesis chars_wf : wf_chars chars.

(** Every node that [parseNext] returns has the property [Q]. *)
Lemma parseNext_elements (fuel : nat) :
  forall end_ i node j,
    parseNext chars fuel end_ i = (Return node, j) -> Q node = true.
Proof.
  induction fuel as [fuel IH] using lt_wf_ind.
  intros end_ i node j. unfold parseNext.
  destruct (parseNext_loop chars fuel end_ [] [] i) as [[[r t]| |] j2] eqn:El;
    try discriminate.
  intros [= <- _]. apply elements_finish.
  apply (parseNext_loop_invariant chars chars_wf
           (fun root => forallb E root = true) (fun n => E n = true) end_)
    with (fuel := fuel) (root := []) (text := []) (i := i) (text' := t) (j := j2);
    try assumption; try reflexivity.
  - intros _ root text. apply elements_promote.
  - intros root text n Hroot Hn. apply elements_push; [assumption|].
    apply elements_pending. cbn [forallb]. now rewrite Hn.
  - intros f i0 n j0 Hf Hcall. apply parseCurrent_inv in Hcall.
    destruct Hcall as [(_ & [(c & ->) | (s & a & ->)])
                      | (e & j1 & m & j' & _ & _ & Hcall & _ & Hn)].
    + apply (E_leaf c []).
    + apply (E_leaf s a).
    + apply (IH f Hf) in Hcall. destruct (E_wrap m Hcall) as (H1 & H2 & H3 & H4).
      destruct Hn as [-> | [-> | [-> | (h & ->)]]]; auto.
Qed.

End ElementInvariant.

(** X16.  No text node of a tree that [parse] returns is empty, at any
    depth. *)
Theorem no_empty_text (markdown : jsstring) :
  exists node, parse markdown = Return node /\ noEmptyText node = true.
Proof.
  pose proof (spread_wf markdown) as Hwf.
  destruct (parseNext_total (spread markdown) Hwf
              (S (length (spread markdown))) [] 0) as (node & j & E & _); [lia|].
  exists node. split; [unfold parse; now rewrite E|].
  apply (parseNext_elements noEmptyText noEmptyText) with (6 := Hwf) (7 := E);
    try reflexivity.
  - intros text Hne. simpl. now apply negb_true_iff, str_eqb_neq.
  - now split.
  - intros m Hm. now repeat split.
  - intros cs Hcs.
    now destruct (collapse_cases cs) as [(c & -> & ->) | (_ & ->)];
      simpl in *; rewrite ?andb_true_r in *.
Qed.

(** X17.  In a tree that [parse] returns the fragments are collapsed at
    every depth: no fragment has exactly one child, and no child of a
    fragment or of a paragraph is a fragment. *)
Theorem fragments_collapsed (markdown : jsstring) :
  exists node, parse markdown = Return node /\ collapsed node = true.
Proof.
  pose proof (spread_wf markdown) as Hwf.
  destruct (parseNext_total (spread markdown) Hwf
              (S (length (spread markdown))) [] 0) as (node & j & E & _); [lia|].
  exists node. split; [unfold parse; now rewrite E|].
  apply (parseNext_elements (fun c => negb (isFragment c) && collapsed c) collapsed)
    with (6 := Hwf) (7 := E); try reflexivity.
  - now split.
  - intros m Hm. simpl. now rewrite Hm.
  - intros cs Hcs.
    destruct (collapse_cases cs) as [(c & -> & ->) | (Hlen & ->)].
    + simpl in Hcs. rewrite andb_true_r in Hcs.
      now apply andb_true_iff in Hcs.
    + simpl. rewrite Hcs, andb_true_r. apply negb_true_iff.
      now apply Nat.eqb_neq.
Qed.

(* ================================================================= *)
(** ** The cursor at the end of the input, and the two tests *)

(** X18.  At the end of the input nothing is found and nothing moves:
    [matches] is false and [match] throws for candidates that are not
    empty, [parseText] returns the empty string, and [parseNext] returns the
    fragment without children. *)
Theorem at_end_of_input (chars : list jsstring) (lookahead : list jsstring)
    (end_ : jsstring) (fuel : nat) (i : nat) :
  length chars <= i ->
  forallb (fun s => negb (str_eqb s [])) lookahead = true ->
  matches chars lookahead i = false
  /\ match_ chars lookahead i = (Throw, i)
  /\ parseText chars end_ i = ([], i)
  /\ parseNext chars (S fuel) end_ i = (Return (Fragment []), i).
Proof.
  intros Hi Hl.
  assert (done chars i = true) as Hdone by now apply done_true.
  assert (forall s, s <> [] ->
            strictEq (lookAhead chars (length s) i) s = false) as Hlook.
  { intros s Hs. unfold lookAhead. destruct (length s =? 1).
    - now rewrite (current_done chars i Hdone).
    - unfold getSlice. rewrite skipn_all2, firstn_nil by assumption.
      destruct s; [contradiction | reflexivity]. }
  repeat split.
  - unfold matches. induction lookahead as [|s rest IH]; [reflexivity|].
    cbn [forallb existsb] in *. apply andb_true_iff in Hl as [Hs Hrest].
    apply negb_true_iff, str_eqb_neq in Hs. now rewrite (Hlook s Hs), IH.
  - induction lookahead as [|s rest IH]; [reflexivity|].
    cbn [forallb match_] in *. apply andb_true_iff in Hl as [Hs Hrest].
    apply negb_true_iff, str_eqb_neq in Hs. now rewrite (Hlook s Hs), IH.
  - unfold parseText. now apply parseText_loop_done.
  - unfold parseNext. now rewrite parseNext_loop_done.
Qed.

Lemma at_end_of_input_witness :
  let chars := spread (js "[a](b") in
  length chars <= 5
  /\ forallb (fun s => negb (str_eqb s [])) [js ")"] = true
  /\ matches chars [js ")"] 5 = false
  /\ match_ chars [js ")"] 5 = (Throw, 5)
  /\ parseText chars (js ")") 5 = ([], 5)
  /\ parseNext chars (S 0) (js ")") 5 = (Return (Fragment []), 5).
Proof.
  split; [simpl; lia|]. split; [reflexivity|].
  apply (at_end_of_input (spread (js "[a](b")) [js ")"] (js ")") 0 5);
    [simpl; lia | reflexivity].
Defined.

(** X19.  [match] and [matches] agree: [match] returns exactly when
    [matches] is true and throws otherwise; and on candidates without
    surrogates [matches] is true exactly when one of them is found literally
    at the index. *)
Theorem matches_spec (chars : list jsstring) (lookahead : list jsstring) (i : nat) :
  wf_chars chars ->
  forallb noSurrogate lookahead = true ->
  fst (match_ chars lookahead i)
  = (if matches chars lookahead i then Return tt else Throw)
  /\ matches chars lookahead i
     = existsb (fun s => literallyAt chars s i) lookahead.
Proof.
  intros Hwf Hl. split; [|now apply matches_literal].
  clear Hl. unfold matches.
  induction lookahead as [|s rest IH]; [reflexivity|].
  cbn [match_ existsb].
  destruct (strictEq (lookAhead chars (length s) i) s); [reflexivity|].
  exact IH.
Qed.

Lemma matches_spec_witness :
  let chars := spread (js "a" ++ CR ++ LF ++ js "b") in
  wf_chars chars
  /\ forallb noSurrogate NEWLINE = true
  /\ fst (match_ chars NEWLINE 1)
     = (if matches chars NEWLINE 1 then Return tt else Throw)
  /\ matches chars NEWLINE 1
     = existsb (fun s => literallyAt chars s 1) NEWLINE.
Proof.
  split; [reflexivity|]. split; [reflexivity|].
  apply (matches_spec (spread (js "a" ++ CR ++ LF ++ js "b")) NEWLINE 1);
    reflexivity.
Defined.

(** X20.  The array of code points that the parser is built on loses
    nothing of the input: its elements are code points, one code unit or a
    surrogate pair each, and the slice of all of them is the input. *)
Theorem chars_of_input (markdown : jsstring) :
  let chars := spread markdown in
  wf_chars chars
  /\ getSlice chars 0 (length chars) = markdown
  /\ (markdown = [] <-> chars = [])
  /\ length chars <= length markdown.
Proof.
  cbv zeta. split; [apply spread_wf|]. split; [|split].
  - unfold getSlice. rewrite Nat.sub_0_r, firstn_all. apply spread_run_text.
  - split; [now intros -> |].
    intros H. rewrite <- (spread_run_text markdown). now rewrite H.
  - rewrite <- (spread_run_text markdown) at 2.
    pose proof (spread_wf markdown) as Hwf. unfold wf_chars in Hwf.
    induction (spread markdown) as [|c cs IH]; [reflexivity|].
    cbn [forallb] in Hwf. apply andb_true_iff in Hwf as [Hc Hwf].
    cbn [concat length]. rewrite length_app. specialize (IH Hwf).
    destruct c; [discriminate | simpl; lia].
Qed.

(* ================================================================= *)
(** ** Markup that nothing closes *)

Lemma match_at_end (chars : list jsstring) (s : jsstring) :
  s <> [] -> match_ chars [s] (length chars) = (Throw, length chars).
Proof.
  intros Hs. rewrite match_one. unfold lookAhead.
  destruct (length s =? 1).
  - now rewrite (current_done chars _ (done_end chars)).
  - unfold getSlice. rewrite skipn_all, firstn_nil.
    destruct s; [contradiction | reflexivity].
Qed.

Lemma matches_at_end (chars : list jsstring) (s : jsstring) :
  s <> [] -> matches chars [s] (length chars) = false.
Proof.
  intros Hs. pose proof (match_at_end chars s Hs) as H.
  rewrite match_one in H. unfold matches. cbn [existsb].
  now destruct (strictEq (lookAhead chars (length s) (length chars)) s).
Qed.

(** A nested call, and [parseText], over a run of text code points that
    ends the input. *)
Lemma parseNext_to_end (forbidden : list N) (end_ : jsstring)
    (before run : list jsstring) (fuel : nat) :
  covers forbidden MARKUP = true ->
  endCovered forbidden end_ = true ->
  forallb (startsClear forbidden) run = true ->
  parseNext (before ++ run) (length run + S fuel) end_ (length before)
  = (Return (finish [] (concat run)), length (before ++ run)).
Proof.
  intros Hcov Hend Hrun. unfold parseNext.
  rewrite (parseNext_loop_run_at forbidden end_ (before ++ run) before run []
             (length before) _ (S fuel));
    try reflexivity; try assumption; [|now rewrite app_nil_r].
  rewrite <- length_app.
  now rewrite parseNext_loop_done by apply done_end.
Qed.

Lemma parseText_to_end (forbidden : list N) (end_ : jsstring)
    (before run : list jsstring) :
  covers forbidden SCANNED = true ->
  end_ <> [] ->
  endCovered forbidden end_ = true ->
  forallb (startsClear forbidden) run = true ->
  parseText (before ++ run) end_ (length before)
  = (concat run, length (before ++ run)).
Proof.
  intros Hcov Hne Hend Hrun. unfold parseText.
  pose proof (parseText_loop_run forbidden end_ run before [] Hcov Hne Hend Hrun
                0 []) as H.
  rewrite app_nil_r, Nat.add_0_r in H. cbn [app] in H.
  replace (length (before ++ run) - length before) with (length run)
    by (rewrite length_app; lia).
  rewrite H. now rewrite length_app.
Qed.

Lemma startsWith_run_only (forbidden : list N) (run : list jsstring)
    (u : N) (s : jsstring) :
  forallb (startsClear forbidden) run = true ->
  existsb (N.eqb u) forbidden = true ->
  startsWith (concat run) (u :: s) = false.
Proof.
  intros Hrun Hu. destruct run as [|c run]; [reflexivity|].
  rewrite <- (app_nil_r (concat (c :: run))).
  now apply (startsWith_run forbidden).
Qed.

(** When [parseCurrent] fails at the first character and only text follows,
    the character and the text are one text node. *)
Lemma parse_failed_opener (u : N) (s : jsstring) :
  isSurrogate u = false ->
  startsClear SCANNED [u] = true ->
  avoids MARKUP s = true ->
  let chars := ([u] : jsstring) :: spread s in
  (exists j, parseCurrent chars (length chars) 0 = (Throw, j)
             \/ parseCurrent chars (length chars) 0 = (Return None, j)) ->
  parse ([u] ++ s) = Return (Text ([u] ++ s)).
Proof.
  intros Hplain Hclear Hs chars (j & Hfail).
  pose proof (spread_heads MARKUP s Hs) as Hrun.
  assert (spread ([u] ++ s) = chars) as Hchars.
  { unfold chars. cbn [app]. apply spread_cons_plain.
    unfold isSurrogate in Hplain. now apply orb_false_iff in Hplain. }
  unfold parse, parseNext. rewrite Hchars.
  rewrite parseNext_loop_S.
  assert (str_eqb [u] BACKSLASH = false) as Hbs.
  { simpl. now rewrite (startsClear_neq SCANNED u [] 92%N Hclear eq_refl). }
  rewrite (iteration_unescaped chars _ [] [] [] 0 [u] eq_refl Hbs).
  assert (matches chars NEW_PARAGRAPH 0 = false) as ->
    by (apply (matches_clear chars SCANNED NEW_PARAGRAPH 0 [u] eq_refl Hclear);
        reflexivity).
  cbn [str_eqb negb andb].
  assert (parseNext_loop chars (length chars) [] [] ([] ++ [u]) (0 + 1)
          = (Return ([], [u] ++ s), length chars)) as Hrest.
  { rewrite (parseNext_loop_run_at MARKUP [] chars [[u]] (spread s) [] 1 _ 1);
      try reflexivity; try assumption.
    - rewrite spread_run_text.
      now rewrite parseNext_loop_done by (apply done_true; simpl; lia).
    - unfold chars. now rewrite app_nil_r.
    - simpl. lia. }
  destruct Hfail as [-> | ->]; rewrite Hrest; cbn [fst];
    now rewrite finish_text.
Qed.

(** X21.  A character that starts markup, followed by a text without
    markup and without a closing bracket and by nothing else, is text with
    that text: markup that nothing closes is kept as it is written. *)
Theorem unclosed_markup_is_text (u : N) (s : jsstring) :
  existsb (N.eqb u) [42; 95; 126; 96; 33; 91]%N = true ->
  avoids (93%N :: MARKUP) s = true ->
  parse ([u] ++ s) = Return (Text ([u] ++ s)).
Proof.
  intros Hu Hs.
  pose proof (spread_heads _ s Hs) as Hrun.
  assert (avoids MARKUP s = true) as Hs'.
  { unfold avoids in *. rewrite forallb_forall in *. intros x Hx.
    specialize (Hs x Hx). apply negb_true_iff in Hs. apply negb_true_iff.
    cbn [existsb] in Hs. now apply orb_false_iff in Hs. }
  assert (isSurrogate u = false /\ startsClear SCANNED [u] = true)
    as [Hplain Hclear].
  { cbn [existsb] in Hu. rewrite orb_false_r in Hu.
    repeat (apply orb_true_iff in Hu as [Hu | Hu];
            [apply N.eqb_eq in Hu; subst u; now split|]).
    apply N.eqb_eq in Hu. subst u. now split. }
  apply (parse_failed_opener u s Hplain Hclear Hs').
  set (run := spread s) in *.
  set (chars := ([u] : jsstring) :: run).
  assert (wf_chars chars) as Hwf.
  { unfold chars. change (([u] : jsstring) :: run) with ([[u]] ++ run).
    apply wf_chars_app; [reflexivity | apply spread_wf]. }
  assert (length chars = length run + 1) as Hlen by (simpl; lia).
  assert (existsb (N.eqb u) (93%N :: MARKUP) = true) as Hin.
  { cbn [existsb] in Hu. rewrite orb_false_r in Hu.
    repeat (apply orb_true_iff in Hu as [Hu | Hu];
            [apply N.eqb_eq in Hu; now subst u|]).
    apply N.eqb_eq in Hu. now subst u. }
  assert (forall t, startsWith (concat chars) (u :: u :: t) = false) as Hdouble.
  { intros t. unfold chars. cbn [concat app]. rewrite startsWith_cons.
    rewrite (startsWith_run_only (93%N :: MARKUP) run u t Hrun Hin).
    apply andb_false_r. }
  assert (lookAhead chars 1 0 = Some [u]) as Hopen by reflexivity.
  unfold parseCurrent, parseCurrent_, bind, get, ret, call, advance.
  rewrite Hopen, Hlen.
  cbn [existsb] in Hu. rewrite orb_false_r in Hu.
  apply orb_true_iff in Hu as [Hu | Hu].
  { (* an asterisk *)
    apply N.eqb_eq in Hu. subst u. exists (length chars). left.
    change (strictEq (Some [42%N]) (js "*")) with true. cbn [orb].
    rewrite (matches_start chars (js "**") Hwf eq_refl).
    change (js "**") with [42%N; 42%N]. rewrite Hdouble.
    cbn [str_of length Nat.add].
    assert (parseNext chars (length run + 1) [42%N] 1
            = (Return (finish [] (concat run)), length chars)) as ->
      by (apply (parseNext_to_end (93%N :: MARKUP) [42%N] [[42%N]] run 0);
          reflexivity || assumption).
    now rewrite match_at_end. }
  apply orb_true_iff in Hu as [Hu | Hu].
  { (* an underscore *)
    apply N.eqb_eq in Hu. subst u. exists (length chars). left.
    change (strictEq (Some [95%N]) (js "*")) with false.
    change (strictEq (Some [95%N]) (js "_")) with true. cbn [orb].
    rewrite (matches_start chars (js "**") Hwf eq_refl).
    change (startsWith (concat chars) (js "**")) with false.
    cbn [str_of length Nat.add].
    assert (parseNext chars (length run + 1) [95%N] 1
            = (Return (finish [] (concat run)), length chars)) as ->
      by (apply (parseNext_to_end (93%N :: MARKUP) [95%N] [[95%N]] run 0);
          reflexivity || assumption).
    now rewrite match_at_end. }
  apply orb_true_iff in Hu as [Hu | Hu].
  { (* a tilde *)
    apply N.eqb_eq in Hu. subst u. exists 0. left.
    change (strictEq (Some [126%N]) (js "*")) with false.
    change (strictEq (Some [126%N]) (js "_")) with false.
    change (strictEq (Some [126%N]) (js "~")) with true. cbn [orb].
    rewrite match_one.
    rewrite (lookAhead_literal chars (js "~~") 0 Hwf eq_refl).
    unfold literallyAt. cbn [skipn]. change (js "~~") with [126%N; 126%N].
    now rewrite Hdouble. }
  apply orb_true_iff in Hu as [Hu | Hu].
  { (* a backtick *)
    apply N.eqb_eq in Hu. subst u. exists (length chars). left.
    change (strictEq (Some [96%N]) (js "*")) with false.
    change (strictEq (Some [96%N]) (js "_")) with false.
    change (strictEq (Some [96%N]) (js "~")) with false.
    change (strictEq (Some [96%N]) (js "`")) with true. cbn [orb].
    rewrite (matches_start chars (js "```") Hwf eq_refl).
    change (js "```") with [96%N; 96%N; 96%N]. rewrite Hdouble. cbv beta.
    rewrite (matches_start chars (js "``") Hwf eq_refl).
    change (js "``") with [96%N; 96%N]. rewrite Hdouble.
    change (js "`") with [96%N].
    rewrite (match_of_matches chars [96%N] 0) by now apply matches_current.
    cbn [length Nat.add].
    assert (parseText chars [96%N] 1 = (concat run, length chars)) as ->
      by (apply (parseText_to_end (93%N :: MARKUP) [96%N] [[96%N]] run);
          reflexivity || assumption || discriminate).
    rewrite matches_at_end by discriminate.
    now rewrite match_at_end. }
  apply orb_true_iff in Hu as [Hu | Hu].
  { (* an exclamation mark *)
    apply N.eqb_eq in Hu. subst u. exists 1. left.
    change (strictEq (Some [33%N]) (js "*")) with false.
    change (strictEq (Some [33%N]) (js "_")) with false.
    change (strictEq (Some [33%N]) (js "~")) with false.
    change (strictEq (Some [33%N]) (js "`")) with false.
    change (strictEq (Some [33%N]) (js "!")) with true. cbn [orb Nat.add].
    rewrite match_one.
    rewrite (lookAhead_literal chars (js "[") 1 Hwf eq_refl).
    change (literallyAt chars (js "[") 1) with (startsWith (concat run) [91%N]).
    rewrite (startsWith_run_only (93%N :: MARKUP) run 91 [] Hrun eq_refl).
    reflexivity. }
  (* an opening bracket *)
  apply N.eqb_eq in Hu. subst u. exists (length chars). left.
  change (strictEq (Some [91%N]) (js "*")) with false.
  change (strictEq (Some [91%N]) (js "_")) with false.
  change (strictEq (Some [91%N]) (js "~")) with false.
  change (strictEq (Some [91%N]) (js "`")) with false.
  change (strictEq (Some [91%N]) (js "!")) with false.
  change (strictEq (Some [91%N]) (js "[")) with true. cbn [orb Nat.add].
  assert (parseNext chars (length run + 1) (js "]") 1
          = (Return (finish [] (concat run)), length chars)) as ->
    by (apply (parseNext_to_end (93%N :: MARKUP) (js "]") [[91%N]] run 0);
        reflexivity || assumption).
  now rewrite match_at_end.
Qed.

Lemma unclosed_markup_is_text_witness :
  existsb (N.eqb 91) [42; 95; 126; 96; 33; 91]%N = true
  /\ avoids (93%N :: MARKUP) (js "see (below") = true
  /\ parse ([91%N] ++ js "see (below") = Return (Text ([91%N] ++ js "see (below")).
Proof.
  split; [reflexivity|]. split; [reflexivity|].
  apply (unclosed_markup_is_text 91 (js "see (below")); reflexivity.
Defined.

(* ================================================================= *)
(** ** No paragraph is empty *)

Lemma noParagraph_noEmptyParagraph :
  forall n, noParagraph n = true -> noEmptyParagraph n = true.
Proof.
  fix IH 1. intros [cs | cs | t | c | c | c | t | s a | h c]; cbn [noParagraph noEmptyParagraph];
    try reflexivity; try discriminate; try apply IH.
  induction cs as [|c cs IHcs]; [reflexivity|].
  cbn [forallb]. intros H. apply andb_true_iff in H as [Hc Hcs].
  rewrite (IH c Hc). now apply IHcs.
Qed.

Lemma topOk_noEmptyParagraph (root : list MarkdownNode) :
  topOk root ->
  forallb (fun c => negb (isEmptyParagraph c)) root = true ->
  forallb noEmptyParagraph root = true.
Proof.
  intros Htop Hne. apply forallb_forall. intros c Hc.
  rewrite forallb_forall in Hne. specialize (Hne c Hc).
  destruct Htop as [Hflat | Hpar].
  - unfold allFlat in Hflat. rewrite forallb_forall in Hflat.
    now apply noParagraph_noEmptyParagraph, Hflat.
  - unfold allParagraphs in Hpar. rewrite forallb_forall in Hpar.
    specialize (Hpar c Hc). destruct c as [| cs | | | | | | |]; try discriminate.
    destruct cs as [|c0 cs]; [discriminate|].
    cbn [flatParagraph] in Hpar. cbn [noEmptyParagraph length Nat.eqb negb andb].
    apply forallb_forall. intros x Hx. rewrite forallb_forall in Hpar.
    now apply noParagraph_noEmptyParagraph, Hpar.
Qed.

Lemma removelast_snoc2 {A} (l : list A) (a b : A) :
  removelast (l ++ [a; b]) = l ++ [a].
Proof.
  change (l ++ [a; b]) with (l ++ [a] ++ [b]).
  rewrite app_assoc. apply removelast_last.
Qed.

Lemma lastChild_snoc2 (l : list MarkdownNode) (a b : MarkdownNode) :
  lastChild (l ++ [a; b]) = Some b.
Proof.
  change (l ++ [a; b]) with (l ++ [a] ++ [b]).
  rewrite app_assoc. apply lastChild_snoc.
Qed.

Lemma inline_not_empty_paragraph (n : MarkdownNode) :
  isInline n = true -> isEmptyParagraph n = false.
Proof. now destruct n. Qed.

Lemma filled_snoc (init : list MarkdownNode) (c : MarkdownNode) :
  forallb (fun c => negb (isEmptyParagraph c)) init = true ->
  isEmptyParagraph c = false ->
  forallb (fun c => negb (isEmptyParagraph c)) (init ++ [c]) = true.
Proof.
  intros Hinit Hc. rewrite forallb_app, Hinit. cbn [forallb]. now rewrite Hc.
Qed.

Lemma pending_not_empty_paragraph (text : jsstring) :
  forallb (fun c => negb (isEmptyParagraph c))
          (if negb (str_eqb text []) then [Text text] else []) = true.
Proof. now destruct (negb (str_eqb text [])). Qed.

Section EmptyParagraphs.

Variable chars : list jsstring.
Hypothesis chars_wf : wf_chars chars.

Lemma current_not_empty (i : nat) (c : jsstring) :
  current chars i = Some c -> c <> [].
Proof.
  unfold current. intros H. apply nth_error_In in H.
  unfold wf_chars in chars_wf. rewrite forallb_forall in chars_wf.
  specialize (chars_wf c H). now destruct c.
Qed.

(** The promotion at a blank line: the paragraph that was last is not
    empty afterwards, the new last one is, and after the newlines the
    cursor is at none. *)
Lemma promote_filled (root : list MarkdownNode) (text : jsstring) (i : nat) :
  matches chars NEW_PARAGRAPH i = true ->
  paragraphsFilled chars root text i ->
  paragraphsFilled chars (fst (promote root text)) (snd (promote root text))
                   (skipNewlines chars i).
Proof.
  intros Hpar [Hinit Hlast].
  assert (existsb (strictEq (current chars i)) NEWLINE = true) as Hnl
    by (apply current_newline, new_paragraph_current; assumption).
  pose proof (skipNewlines_exit chars i) as Hexit.
  destruct (snoc_cases root) as [-> | (init & c & ->)].
  - rewrite promote_nil. destruct (negb (str_eqb text [])); cbn [fst snd].
    + split; [reflexivity | intros; assumption].
    + split; [reflexivity | discriminate].
  - rewrite promote_snoc. cbv zeta. cbn [fst snd].
    rewrite removelast_last in Hinit.
    specialize (Hlast c (lastChild_snoc init c)).
    pose proof (pending_not_empty_paragraph text) as Hpend.
    unfold paragraphsFilled.
    destruct c as [| cs | | | | | | |];
      try (split; [|intros; assumption];
           now destruct init).
    rewrite removelast_snoc2, lastChild_snoc2.
    split; [|intros; assumption].
    apply filled_snoc; [assumption|].
    destruct cs as [|c0 cs]; [|reflexivity].
    destruct (negb (str_eqb text [])) eqn:E; [reflexivity|].
    apply negb_false_iff, str_eqb_eq in E.
    rewrite (Hlast eq_refl E) in Hnl. discriminate.
Qed.

Lemma push_filled (root : list MarkdownNode) (text text' : jsstring)
    (n : MarkdownNode) (i j : nat) :
  isInline n = true ->
  paragraphsFilled chars root text i ->
  paragraphsFilled chars
    (pushToParent root ((if negb (str_eqb text []) then [Text text] else []) ++ [n]))
    text' j.
Proof.
  intros Hn [Hinit _].
  pose proof (pending_not_empty_paragraph text) as Hpend.
  pose proof (inline_not_empty_paragraph n Hn) as Hne.
  set (pending := if negb (str_eqb text []) then [Text text] else []) in *.
  unfold paragraphsFilled.
  destruct (snoc_cases root) as [-> | (init & c & ->)].
  - rewrite pushToParent_nil. rewrite removelast_last, lastChild_snoc.
    split; [assumption|]. intros c [= <-] Hc. congruence.
  - rewrite pushToParent_snoc. rewrite removelast_last in Hinit.
    destruct c as [| cs | | | | | | |];
      try (rewrite (app_assoc _ pending [n]), removelast_last, lastChild_snoc;
           split; [|intros c' [= <-] Hc; congruence];
           rewrite forallb_app, Hpend, andb_true_r;
           now apply filled_snoc).
    rewrite removelast_last, lastChild_snoc.
    split; [assumption|]. intros c' [= <-] Hc.
    rewrite app_assoc in Hc. now destruct (cs ++ pending).
Qed.

Lemma iteration_filled (pc : M (option MarkdownNode)) (end_ : jsstring)
    (root : list MarkdownNode) (text : jsstring) (i : nat) :
  (forall i1 n j, pc i1 = (Return (Some n), j) -> isInline n = true) ->
  paragraphsFilled chars root text i ->
  match iteration chars pc end_ root text i with
  | Continue root' text' j => paragraphsFilled chars root' text' j
  | _ => True
  end.
Proof.
  intros Hpc Hfilled. unfold iteration.
  destruct (done chars i) eqn:Hdone; [exact I|].
  pose proof (parseText_nothing chars chars_wf i) as Hnone.
  destruct (parseText chars [] i) as [escapedText i1]. cbn [fst snd] in Hnone.
  destruct (negb (str_eqb escapedText [])) eqn:Hesc.
  { apply negb_true_iff, str_eqb_neq in Hesc.
    destruct Hfilled as [Hinit _]. split; [assumption|].
    intros c _ _ E. apply app_eq_nil in E as [_ E]. contradiction. }
  apply negb_false_iff, str_eqb_eq in Hesc. specialize (Hnone Hesc). subst i1.
  destruct (negb (str_eqb end_ [])
            && (matches chars [end_] i || matches chars NEWLINE i)); [exact I|].
  destruct (matches chars NEW_PARAGRAPH i) eqn:Hpar.
  { pose proof (promote_filled root text i Hpar Hfilled) as H.
    now destruct (promote root text). }
  destruct (pc i) as [[[n|]| |] j] eqn:E; try exact I.
  - apply (push_filled root text [] n i j); [|assumption].
    now apply (Hpc i n j).
  - destruct Hfilled as [Hinit _]. split; [assumption|].
    destruct (current_in_range chars i) as (c & Hc); [assumption|].
    rewrite Hc. cbn [str_of]. intros _ _ _ E'.
    apply app_eq_nil in E' as [_ E']. now destruct (current_not_empty i c Hc).
  - destruct Hfilled as [Hinit _]. split; [assumption|].
    destruct (current_in_range chars i) as (c & Hc); [assumption|].
    rewrite Hc. cbn [str_of]. intros _ _ _ E'.
    apply app_eq_nil in E' as [_ E']. now destruct (current_not_empty i c Hc).
Qed.

Lemma parseNext_loop_filled (fuel : nat) :
  forall end_ root text i root' text' j,
    paragraphsFilled chars root text i ->
    parseNext_loop chars fuel end_ root text i = (Return (root', text'), j) ->
    forallb (fun c => negb (isEmptyParagraph c)) (removelast root') = true.
Proof.
  induction fuel as [|fuel IH]; intros end_ root text i root' text' j Hfilled E;
    [discriminate|].
  rewrite parseNext_loop_S in E.
  assert (forall i1 n j1, parseCurrent chars fuel i1 = (Return (Some n), j1) ->
                          isInline n = true) as Hpc
    by (intros i1 n j1 H; now apply (parseCurrent_inline chars chars_wf fuel i1 n j1)).
  pose proof (iteration_filled (parseCurrent chars fuel) end_ root text i
                Hpc Hfilled) as Hit.
  destruct (iteration chars (parseCurrent chars fuel) end_ root text i)
    as [j0 | root1 text1 j0 | j0]; [| |discriminate].
  - injection E as <- _ _. apply Hfilled.
  - now apply (IH end_ root1 text1 j0 root' text' j).
Qed.

End EmptyParagraphs.

(** After the loop: the pending text goes into the last paragraph, and a
    last paragraph that is still empty is popped. *)
Lemma finish_filled (root : list MarkdownNode) (text : jsstring) :
  topOk root ->
  forallb (fun c => negb (isEmptyParagraph c)) (removelast root) = true ->
  noEmptyParagraph (finish root text) = true.
Proof.
  intros Htop Hinit. unfold finish.
  set (cs := popEmptyParagraph (flush root text)).
  assert (topOk cs) as Hcs.
  { apply (flush_topOk _ text) in Htop.
    destruct Htop as [H | H]; [left | right];
      now apply forallb_popEmptyParagraph. }
  assert (forallb (fun c => negb (isEmptyParagraph c)) cs = true) as Hne.
  { unfold cs, flush.
    destruct (snoc_cases root) as [-> | (init & c & ->)].
    - now destruct (negb (str_eqb text [])).
    - rewrite removelast_last in Hinit.
      destruct (negb (str_eqb text [])).
      + rewrite pushToParent_snoc. apply forallb_popEmptyParagraph.
        destruct c as [| cs0 | | | | | | |];
          try (apply filled_snoc; [|reflexivity]; now apply filled_snoc).
        apply filled_snoc; [assumption|]. now destruct cs0.
      + rewrite popEmptyParagraph_snoc.
        destruct c as [| [|c0 cs0] | | | | | | |];
          try assumption; now apply filled_snoc. }
  pose proof (topOk_noEmptyParagraph cs Hcs Hne) as Hall.
  destruct (collapse_cases cs) as [(c & E & ->) | (_ & ->)].
  - rewrite E in Hall. cbn [forallb] in Hall. now rewrite andb_true_r in Hall.
  - exact Hall.
Qed.

(** X22.  No paragraph of a tree that [parse] returns is without children,
    at any depth: a blank line after a blank line opens no second paragraph,
    and a paragraph that is still empty at the end of the input is
    dropped. *)
Theorem no_empty_paragraph (markdown : jsstring) :
  exists node, parse markdown = Return node /\ noEmptyParagraph node = true.
Proof.
  unfold parse.
  pose proof (spread_wf markdown) as Hwf.
  destruct (parseNext_loop_total (spread markdown) Hwf
              (S (length (spread markdown))) [] [] [] 0)
    as (root & text & j & E & _); [lia|].
  unfold parseNext. rewrite E.
  exists (finish root text). split; [reflexivity|].
  apply finish_filled.
  - assert (topOk []) as Hnil by (left; reflexivity).
    apply (parseNext_loop_topOk (spread markdown) Hwf _ _ _ _ _ _ _ _ Hnil E).
  - assert (paragraphsFilled (spread markdown) [] [] 0) as Hstart
      by (split; [reflexivity | discriminate]).
    exact (parseNext_loop_filled (spread markdown) Hwf _ [] [] [] 0 root text j
             Hstart E).
Qed.

(* ================================================================= *)
(** ** Emphasis and the end of the line *)

(** With a terminator the loop is left at a carriage return and at a line
    feed. *)
Lemma parseNext_loop_newline (chars : list jsstring) (fuel : nat)
    (end_ : jsstring) (root : list MarkdownNode) (text : jsstring)
    (i : nat) (nl : N) :
  current chars i = Some [nl] ->
  nl = 13%N \/ nl = 10%N ->
  end_ <> [] ->
  parseNext_loop chars (S fuel) end_ root text i = (Return (root, text), i).
Proof.
  intros Hcur Hnl Hend. rewrite parseNext_loop_S.
  assert (str_eqb [nl] BACKSLASH = false) as Hbs
    by (destruct Hnl as [-> | ->]; reflexivity).
  rewrite (iteration_unescaped chars _ end_ root text i [nl] Hcur Hbs).
  assert (matches chars NEWLINE i = true) as ->.
  { apply current_newline. destruct Hnl as [-> | ->]; [now left | now right]. }
  apply str_eqb_neq in Hend. rewrite Hend, orb_true_r. reflexivity.
Qed.

(** Without a terminator, a code point at which [parseCurrent] builds no
    node becomes pending text. *)
Lemma top_level_text_step (chars : list jsstring) (fuel : nat)
    (root : list MarkdownNode) (text : jsstring) (i : nat) (c : jsstring) :
  current chars i = Some c ->
  str_eqb c BACKSLASH = false ->
  matches chars NEW_PARAGRAPH i = false ->
  (exists j, parseCurrent chars fuel i = (Throw, j)
             \/ parseCurrent chars fuel i = (Return None, j)) ->
  parseNext_loop chars (S fuel) [] root text i
  = parseNext_loop chars fuel [] root (text ++ c) (i + 1).
Proof.
  intros Hcur Hbs Hpar (j & H). rewrite parseNext_loop_S.
  rewrite (iteration_unescaped chars _ [] root text i c Hcur Hbs), Hpar.
  cbn [str_eqb negb andb].
  now destruct H as [-> | ->].
Qed.

(** An asterisk or an underscore whose content runs into a newline: the
    nested call stops at the newline, the delimiter is not there, and
    [parseCurrent] throws. *)
Lemma emphasis_fails_at_newline (chars before run after : list jsstring)
    (u nl : N) (fuel : nat) :
  chars = before ++ [[u]] ++ run ++ [[nl]] ++ after ->
  wf_chars chars ->
  u = 42%N \/ u = 95%N ->
  nl = 13%N \/ nl = 10%N ->
  forallb (startsClear MARKUP) run = true ->
  exists j, parseCurrent chars (length run + S fuel) (length before) = (Throw, j).
Proof.
  intros Hchars Hwf Hu Hnl Hrun.
  assert (current chars (length before) = Some [u]) as Hcur
    by (rewrite Hchars; apply current_at).
  assert (current chars (length before + 1 + length run) = Some [nl]) as Hstop.
  { rewrite Hchars.
    replace (before ++ [[u]] ++ run ++ [[nl]] ++ after)
      with ((before ++ [[u]]) ++ run ++ [nl] :: after)
      by now rewrite <- app_assoc.
    replace (length before + 1) with (length (before ++ [[u]]))
      by (rewrite length_app; reflexivity).
    apply current_after. }
  assert (matches chars [js "**"] (length before) = false) as Hdouble.
  { assert (forallb (startsClear [42%N]) (run ++ [[nl]]) = true) as Hclear.
    { rewrite forallb_app. apply andb_true_iff. split.
      - rewrite forallb_forall in *. intros c Hc.
        now apply (startsClear_covers MARKUP [42%N] c eq_refl), Hrun.
      - destruct Hnl as [-> | ->]; reflexivity. }
    assert (run ++ [[nl]] <> []) as Hne by now destruct run.
    pose proof (startsWith_run [42%N] (run ++ [[nl]]) (concat after) 42 []
                  Hne Hclear eq_refl) as Hsw.
    pose proof (matches_at before ([[u]] ++ run ++ [[nl]] ++ after) (js "**"))
      as Hm.
    rewrite <- Hchars in Hm. rewrite (Hm Hwf eq_refl).
    cbn [concat app]. change (js "**") with [42%N; 42%N].
    rewrite startsWith_cons.
    replace (concat (run ++ [nl] :: after))
      with (concat (run ++ [[nl]]) ++ concat after)
      by (rewrite <- concat_app, <- app_assoc; reflexivity).
    rewrite Hsw. apply andb_false_r. }
  assert (parseNext chars (length run + S fuel) [u] (length before + 1)
          = (Return (finish [] (concat run)), length before + 1 + length run))
    as Hnested.
  { unfold parseNext.
    rewrite (parseNext_loop_run_at MARKUP [u] chars (before ++ [[u]]) run
               ([[nl]] ++ after) (length before + 1) _ (S fuel) [] []);
      try reflexivity; try assumption.
    - rewrite (parseNext_loop_newline chars fuel [u] [] _ _ nl);
        try assumption; try discriminate. reflexivity.
    - rewrite Hchars. now rewrite <- app_assoc.
    - rewrite length_app. reflexivity.
    - destruct Hu as [-> | ->]; reflexivity. }
  assert (match_ chars [[u]] (length before + 1 + length run)
          = (Throw, length before + 1 + length run)) as Hclose.
  { rewrite match_one. cbn [length].
    change (lookAhead chars 1 (length before + 1 + length run))
      with (current chars (length before + 1 + length run)).
    rewrite Hstop.
    destruct Hu as [-> | ->]; destruct Hnl as [-> | ->]; reflexivity. }
  exists (length before + 1 + length run).
  unfold parseCurrent, parseCurrent_, bind, get, ret, call, advance.
  change (lookAhead chars 1 (length before)) with (current chars (length before)).
  rewrite Hcur.
  assert ((strictEq (Some [u]) (js "*") || strictEq (Some [u]) (js "_")) = true)
    as -> by (destruct Hu as [-> | ->]; reflexivity).
  cbv beta.
  match goal with
  | |- context [matches chars ?l (length before)] =>
      assert (matches chars l (length before) = false) as -> by exact Hdouble
  end.
  cbn [str_of length]. rewrite Hnested.
  match goal with
  | |- context [match_ chars ?l ?k] =>
      assert (match_ chars l k = (Throw, k)) as -> by exact Hclose
  end.
  reflexivity.
Qed.

(** An asterisk or an underscore that is the last character: the nested
    call returns at once, there is no delimiter, and [parseCurrent]
    throws. *)
Lemma emphasis_fails_at_end (chars before : list jsstring) (u : N) (fuel : nat) :
  chars = before ++ [[u]] ->
  wf_chars chars ->
  u = 42%N \/ u = 95%N ->
  exists j, parseCurrent chars (S fuel) (length before) = (Throw, j).
Proof.
  intros Hchars Hwf Hu.
  assert (current chars (length before) = Some [u]) as Hcur
    by (rewrite Hchars; apply current_at).
  assert (matches chars [js "**"] (length before) = false) as Hdouble.
  { pose proof (matches_at before [[u]] (js "**")) as Hm.
    rewrite <- Hchars in Hm. rewrite (Hm Hwf eq_refl).
    destruct Hu as [-> | ->]; reflexivity. }
  assert (length before + 1 = length chars) as Hlen
    by (rewrite Hchars, length_app; reflexivity).
  exists (length chars).
  unfold parseCurrent, parseCurrent_, bind, get, ret, call, advance.
  change (lookAhead chars 1 (length before)) with (current chars (length before)).
  rewrite Hcur.
  assert ((strictEq (Some [u]) (js "*") || strictEq (Some [u]) (js "_")) = true)
    as -> by (destruct Hu as [-> | ->]; reflexivity).
  cbv beta.
  match goal with
  | |- context [matches chars ?l (length before)] =>
      assert (matches chars l (length before) = false) as -> by exact Hdouble
  end.
  cbn [str_of length]. rewrite Hlen. unfold parseNext.
  rewrite parseNext_loop_done by apply done_end.
  rewrite match_at_end by discriminate. reflexivity.
Qed.

(** A newline after which there is no other newline starts no blank
    line. *)
Lemma single_newline_no_blank_line (chars before rest : list jsstring) (nl : N) :
  chars = before ++ [[nl]] ++ rest ->
  wf_chars chars ->
  match rest with
  | [] => true
  | c :: _ => startsClear [13; 10]%N c
  end = true ->
  matches chars NEW_PARAGRAPH (length before) = false.
Proof.
  intros -> Hwf Hrest.
  rewrite (matches_literal _ Hwf) by reflexivity.
  destruct (existsb _ NEW_PARAGRAPH) eqn:E; [|reflexivity].
  apply existsb_exists in E as (s & Hin & Hs).
  rewrite literallyAt_middle in Hs. cbn [concat app] in Hs.
  assert (forall b t, existsb (N.eqb b) [13; 10]%N = true ->
            startsWith (concat rest) (b :: t) = false) as Hnext.
  { intros b t Hb. destruct rest as [|c rest]; [reflexivity|].
    cbn [concat]. now apply (startsWith_clear [13; 10]%N). }
  cbv in Hin.
  repeat (destruct Hin as [<- | Hin];
          [rewrite startsWith_cons, Hnext in Hs by reflexivity;
           now rewrite andb_false_r in Hs|]).
  contradiction.
Qed.

Lemma run_then_unit (forbidden : list N) (run : list jsstring) (u : N) :
  forallb (startsClear forbidden) run = true ->
  existsb (N.eqb u) forbidden = false ->
  match run ++ [[u]] with
  | [] => true
  | c :: _ => startsClear forbidden c
  end = true.
Proof.
  intros Hrun Hu. destruct run as [|c run]; cbn [app].
  - cbn [startsClear]. now rewrite Hu.
  - cbn [forallb] in Hrun. now apply andb_true_iff in Hrun.
Qed.

(** X23.  Emphasis does not go over the end of a line.  An asterisk or an
    underscore, a text without markup, a carriage return or a line feed, a
    second such text and the same character again are parsed to one text
    node with all of it: the nested call stops at the newline, where the
    closing character is not found. *)
Theorem emphasis_not_across_newline (u nl : N) (s1 s2 : jsstring) :
  u = 42%N \/ u = 95%N ->
  nl = 13%N \/ nl = 10%N ->
  avoids MARKUP s1 = true ->
  avoids MARKUP s2 = true ->
  parse ([u] ++ s1 ++ [nl] ++ s2 ++ [u])
  = Return (Text ([u] ++ s1 ++ [nl] ++ s2 ++ [u])).
Proof.
  intros Hu Hnl Hs1 Hs2.
  pose proof (spread_heads MARKUP s1 Hs1) as Hrun1.
  pose proof (spread_heads MARKUP s2 Hs2) as Hrun2.
  pose proof (spread_run_text s1) as Htext1.
  pose proof (spread_run_text s2) as Htext2.
  set (run1 := spread s1) in *. set (run2 := spread s2) in *.
  set (chars := [[u]] ++ run1 ++ [[nl]] ++ run2 ++ [[u]]).
  assert (isSurrogate u = false /\ isSurrogate nl = false) as [Hpu Hpnl]
    by (destruct Hu as [-> | ->]; destruct Hnl as [-> | ->]; now split).
  unfold isSurrogate in Hpu, Hpnl.
  apply orb_false_iff in Hpu as [Hhu Hlu]. apply orb_false_iff in Hpnl as [Hhnl Hlnl].
  assert (spread ([u] ++ s1 ++ [nl] ++ s2 ++ [u]) = chars) as Hchars.
  { cbn [app]. rewrite (spread_cons_plain u _ Hhu).
    rewrite (spread_app_before s1 nl _ Hlnl).
    rewrite (spread_cons_plain nl _ Hhnl).
    rewrite (spread_app_before s2 u [] Hlu).
    reflexivity. }
  assert (wf_chars chars) as Hwf by (rewrite <- Hchars; apply spread_wf).
  assert (length chars = length run1 + S (length run2 + 2)) as Hlen
    by (unfold chars; rewrite !length_app; simpl; lia).
  assert (forall c, c = [u] \/ c = [nl] -> str_eqb c BACKSLASH = false) as Hbs
    by (intros c [-> | ->]; destruct Hu as [-> | ->]; destruct Hnl as [-> | ->];
        reflexivity).
  assert (startsClear SCANNED [u] = true) as Hclear
    by (destruct Hu as [-> | ->]; reflexivity).
  (* the opening character *)
  assert (parseNext_loop chars (S (length chars)) [] [] [] 0
          = parseNext_loop chars (length chars) [] [] ([] ++ [u]) (0 + 1)) as HA.
  { apply (top_level_text_step chars (length chars) [] [] 0 [u]).
    - reflexivity.
    - apply Hbs. now left.
    - apply (matches_clear chars SCANNED NEW_PARAGRAPH 0 [u] eq_refl Hclear).
      reflexivity.
    - rewrite Hlen.
      destruct (emphasis_fails_at_newline chars [] run1 (run2 ++ [[u]]) u nl
                  (length run2 + 2) eq_refl Hwf Hu Hnl Hrun1) as (j & Hj).
      exists j. now left. }
  (* the first line *)
  assert (parseNext_loop chars (length chars) [] [] ([] ++ [u]) (0 + 1)
          = parseNext_loop chars (S (length run2 + 2)) [] []
              (([] ++ [u]) ++ concat run1) (0 + 1 + length run1)) as HB.
  { apply (parseNext_loop_run_at MARKUP [] chars [[u]] run1
             ([[nl]] ++ run2 ++ [[u]]) (0 + 1) (length chars)
             (S (length run2 + 2)) [] ([] ++ [u]));
      try reflexivity; assumption. }
  (* the newline *)
  assert (current chars (0 + 1 + length run1) = Some [nl]) as Hcur
    by (apply (current_after [[u]] run1 [nl] (run2 ++ [[u]]))).
  assert (parseNext_loop chars (S (length run2 + 2)) [] []
            (([] ++ [u]) ++ concat run1) (0 + 1 + length run1)
          = parseNext_loop chars (length run2 + 2) [] []
              ((([] ++ [u]) ++ concat run1) ++ [nl]) (0 + 1 + length run1 + 1))
    as HC.
  { apply (top_level_text_step chars (length run2 + 2) [] _ _ [nl] Hcur).
    - apply Hbs. now right.
    - replace (0 + 1 + length run1) with (length ([[u]] ++ run1))
        by (rewrite length_app; reflexivity).
      apply (single_newline_no_blank_line chars ([[u]] ++ run1) (run2 ++ [[u]]) nl);
        [unfold chars; now rewrite <- app_assoc | assumption|].
      apply run_then_unit.
      + rewrite forallb_forall in *. intros c Hc.
        now apply (startsClear_covers MARKUP [13; 10]%N c eq_refl), Hrun2.
      + destruct Hu as [-> | ->]; reflexivity.
    - exists (0 + 1 + length run1). right.
      apply (parseCurrent_clear chars _ _ [nl] Hcur).
      destruct Hnl as [-> | ->]; reflexivity. }
  (* the second line *)
  assert (parseNext_loop chars (length run2 + 2) [] []
            ((([] ++ [u]) ++ concat run1) ++ [nl]) (0 + 1 + length run1 + 1)
          = parseNext_loop chars 2 [] []
              (((([] ++ [u]) ++ concat run1) ++ [nl]) ++ concat run2)
              (0 + 1 + length run1 + 1 + length run2)) as HD.
  { apply (parseNext_loop_run_at MARKUP [] chars ([[u]] ++ run1 ++ [[nl]]) run2
             [[u]] _ _ 2 [] _);
      try reflexivity; try assumption.
    - unfold chars. now rewrite <- !app_assoc.
    - rewrite !length_app. simpl. lia. }
  (* the closing character *)
  assert (0 + 1 + length run1 + 1 + length run2
          = length ([[u]] ++ run1 ++ [[nl]] ++ run2)) as Hlast
    by (rewrite !length_app; simpl; unfold jsstring; lia).
  assert (chars = ([[u]] ++ run1 ++ [[nl]] ++ run2) ++ [[u]]) as Hsplit
    by (unfold chars; now rewrite <- !app_assoc).
  assert (current chars (0 + 1 + length run1 + 1 + length run2) = Some [u])
    as Hcur'.
  { rewrite Hlast. rewrite Hsplit at 1. apply current_at. }
  assert (parseNext_loop chars 2 [] []
            (((([] ++ [u]) ++ concat run1) ++ [nl]) ++ concat run2)
            (0 + 1 + length run1 + 1 + length run2)
          = parseNext_loop chars 1 [] []
              ((((([] ++ [u]) ++ concat run1) ++ [nl]) ++ concat run2) ++ [u])
              (0 + 1 + length run1 + 1 + length run2 + 1)) as HE.
  { apply (top_level_text_step chars 1 [] _ _ [u] Hcur').
    - apply Hbs. now left.
    - apply (matches_clear chars SCANNED NEW_PARAGRAPH _ [u] Hcur' Hclear).
      reflexivity.
    - rewrite Hlast.
      destruct (emphasis_fails_at_end chars _ u 0 Hsplit Hwf Hu) as (j & Hj).
      exists j. now left. }
  assert (parseNext_loop chars (S (length chars)) [] [] [] 0
          = (Return ([], [u] ++ s1 ++ [nl] ++ s2 ++ [u]), length chars)) as Hloop.
  { rewrite HA, HB, HC, HD, HE.
    rewrite parseNext_loop_done
      by (apply done_true; unfold jsstring in *; lia).
    rewrite Htext1, Htext2. cbn [app]. rewrite <- !app_assoc. cbn [app].
    f_equal. unfold jsstring in *. lia. }
  unfold parse, parseNext. rewrite Hchars.
  match goal with
  | |- context [parseNext_loop ?cs ?f ?e ?r ?t ?i] =>
      assert (parseNext_loop cs f e r t i
              = (Return ([], [u] ++ s1 ++ [nl] ++ s2 ++ [u]), length chars))
        as -> by exact Hloop
  end.
  cbn [fst]. now rewrite finish_text.
Qed.

Lemma emphasis_not_across_newline_witness :
  (42%N = 42%N \/ 42%N = 95%N)
  /\ (10%N = 13%N \/ 10%N = 10%N)
  /\ avoids MARKUP (js "one") = true
  /\ avoids MARKUP (js "two") = true
  /\ parse ([42%N] ++ js "one" ++ [10%N] ++ js "two" ++ [42%N])
     = Return (Text ([42%N] ++ js "one" ++ [10%N] ++ js "two" ++ [42%N])).
Proof.
  split; [now left|]. split; [now right|].
  split; [reflexivity|]. split; [reflexivity|].
  apply (emphasis_not_across_newline 42 10 (js "one") (js "two"));
    [now left | now right | reflexivity | reflexivity].
Defined.

(* ================================================================= *)
(** ** Text and nodes side by side *)

(** Without a terminator, a node that [parseCurrent] builds is pushed after
    the pending text, which is reset. *)
Lemma top_level_node_step (chars : list jsstring) (fuel : nat)
    (root : list MarkdownNode) (text : jsstring) (i : nat) (c : jsstring)
    (node : MarkdownNode) (j : nat) :
  current chars i = Some c ->
  str_eqb c BACKSLASH = false ->
  matches chars NEW_PARAGRAPH i = false ->
  parseCurrent chars fuel i = (Return (Some node), j) ->
  parseNext_loop chars (S fuel) [] root text i
  = parseNext_loop chars fuel []
      (pushToParent root
         ((if negb (str_eqb text []) then [Text text] else []) ++ [node]))
      [] j.
Proof.
  intros Hcur Hbs Hpar H. rewrite parseNext_loop_S.
  rewrite (iteration_unescaped chars _ [] root text i c Hcur Hbs), Hpar.
  cbn [str_eqb negb andb]. now rewrite H.
Qed.

(** An asterisk or an underscore, a run of text code points and the same
    character again, anywhere in the input: [parseCurrent] builds an italic
    node and leaves the cursor after the closing character. *)
Lemma italic_at (chars before run after : list jsstring) (u : N) (fuel : nat) :
  chars = before ++ [[u]] ++ run ++ [[u]] ++ after ->
  wf_chars chars ->
  u = 42%N \/ u = 95%N ->
  run <> [] ->
  forallb (startsClear MARKUP) run = true ->
  parseCurrent chars (length run + S fuel) (length before)
  = (Return (Some (Italic (finish [] (concat run)))),
     length before + 1 + length run + 1).
Proof.
  intros Hchars Hwf Hu Hne Hrun.
  assert (existsb (N.eqb u) MARKUP = true /\ N.eqb u 92 = false) as [Hmark Hbs]
    by (destruct Hu as [-> | ->]; now split).
  assert (current chars (length before) = Some [u]) as Hcur
    by (rewrite Hchars; apply current_at).
  assert (chars = (before ++ [[u]]) ++ run ++ [u] :: after) as Hchars'
    by (rewrite Hchars; now rewrite <- app_assoc).
  assert (length (before ++ [[u]]) = length before + 1) as Hlen
    by (rewrite length_app; reflexivity).
  assert (current chars (length before + 1 + length run) = Some [u]) as Hstop.
  { rewrite Hchars', <- Hlen. apply current_after. }
  assert (matches chars [js "**"] (length before) = false) as Hdouble.
  { pose proof (matches_at before ([[u]] ++ run ++ [[u]] ++ after) (js "**"))
      as Hm.
    rewrite <- Hchars in Hm. rewrite (Hm Hwf eq_refl).
    cbn [concat app]. change (js "**") with [42%N; 42%N].
    rewrite startsWith_cons, concat_app.
    rewrite (startsWith_run MARKUP run _ 42 [] Hne Hrun eq_refl).
    apply andb_false_r. }
  assert (parseNext chars (length run + S fuel) [u] (length before + 1)
          = (Return (finish [] (concat run)), length before + 1 + length run))
    as Hnested.
  { rewrite Hchars', <- Hlen.
    now apply (parseNext_until MARKUP u (before ++ [[u]]) run after fuel). }
  assert (match_ chars [[u]] (length before + 1 + length run)
          = (Return tt, length before + 1 + length run + 1)) as Hclose
    by (apply (match_of_matches chars [u]); now apply matches_current).
  unfold parseCurrent, parseCurrent_, bind, get, ret, call, advance.
  change (lookAhead chars 1 (length before)) with (current chars (length before)).
  rewrite Hcur.
  assert ((strictEq (Some [u]) (js "*") || strictEq (Some [u]) (js "_")) = true)
    as -> by (destruct Hu as [-> | ->]; reflexivity).
  cbv beta.
  match goal with
  | |- context [matches chars ?l (length before)] =>
      assert (matches chars l (length before) = false) as -> by exact Hdouble
  end.
  cbn [str_of length]. rewrite Hnested.
  match goal with
  | |- context [match_ chars ?l ?k] =>
      assert (match_ chars l k = (Return tt, k + 1)) as -> by exact Hclose
  end.
  reflexivity.
Qed.

(** X24.  A text, an italic span and a text, each text without markup and
    not empty, are a fragment of three children in the order of the input:
    the text that is pending when a node is built is pushed before the
    node, and the text after it is pushed at the end. *)
Theorem text_around_italic (u : N) (s1 s2 s3 : jsstring) :
  u = 42%N \/ u = 95%N ->
  s1 <> [] -> s2 <> [] -> s3 <> [] ->
  avoids MARKUP s1 = true ->
  avoids MARKUP s2 = true ->
  avoids MARKUP s3 = true ->
  parse (s1 ++ [u] ++ s2 ++ [u] ++ s3)
  = Return (Fragment [Text s1; Italic (Text s2); Text s3]).
Proof.
  intros Hu Hne1 Hne2 Hne3 Hs1 Hs2 Hs3.
  pose proof (spread_heads MARKUP s1 Hs1) as Hrun1.
  pose proof (spread_heads MARKUP s2 Hs2) as Hrun2.
  pose proof (spread_heads MARKUP s3 Hs3) as Hrun3.
  pose proof (spread_nonempty s2 Hne2) as Hrne2.
  pose proof (spread_run_text s1) as Htext1.
  pose proof (spread_run_text s2) as Htext2.
  pose proof (spread_run_text s3) as Htext3.
  set (run1 := spread s1) in *. set (run2 := spread s2) in *.
  set (run3 := spread s3) in *.
  set (chars := run1 ++ [[u]] ++ run2 ++ [[u]] ++ run3).
  assert (isSurrogate u = false /\ startsClear SCANNED [u] = true
          /\ str_eqb [u] BACKSLASH = false) as (Hpu & Hclear & Hbs)
    by (destruct Hu as [-> | ->]; now repeat split).
  unfold isSurrogate in Hpu. apply orb_false_iff in Hpu as [Hhu Hlu].
  assert (spread (s1 ++ [u] ++ s2 ++ [u] ++ s3) = chars) as Hchars.
  { cbn [app]. rewrite (spread_app_before s1 u _ Hlu).
    rewrite (spread_cons_plain u _ Hhu).
    rewrite (spread_app_before s2 u _ Hlu).
    now rewrite (spread_cons_plain u _ Hhu). }
  assert (wf_chars chars) as Hwf by (rewrite <- Hchars; apply spread_wf).
  assert (length chars = length run1 + S (length run2 + S (length run3)))
    as Hlen by (unfold chars; rewrite !length_app; simpl; unfold jsstring; lia).
  assert (current chars (0 + length run1) = Some [u]) as Hcur
    by (apply (current_at run1 [u])).
  (* the first text *)
  assert (parseNext_loop chars (S (length chars)) [] [] [] 0
          = parseNext_loop chars (S (length run2 + S (S (length run3)))) [] []
              ([] ++ concat run1) (0 + length run1)) as HA.
  { apply (parseNext_loop_run_at MARKUP [] chars [] run1
             ([[u]] ++ run2 ++ [[u]] ++ run3) 0 _ _ [] []);
      try reflexivity; try assumption.
    unfold jsstring in *. lia. }
  (* the italic span *)
  assert (parseNext_loop chars (S (length run2 + S (S (length run3)))) [] []
            ([] ++ concat run1) (0 + length run1)
          = parseNext_loop chars (length run2 + S (S (length run3))) []
              [Text s1; Italic (Text s2)] []
              (length run1 + 1 + length run2 + 1)) as HB.
  { rewrite (top_level_node_step chars _ [] _ _ [u]
               (Italic (finish [] (concat run2)))
               (length run1 + 1 + length run2 + 1) Hcur Hbs).
    - rewrite Htext1, Htext2. cbn [app]. apply str_eqb_neq in Hne1.
      rewrite Hne1. cbn [negb app]. rewrite pushToParent_nil.
      apply str_eqb_neq in Hne1. now rewrite finish_text.
    - apply (matches_clear chars SCANNED NEW_PARAGRAPH _ [u] Hcur Hclear).
      reflexivity.
    - apply (italic_at chars run1 run2 run3 u (S (length run3)));
        try reflexivity; assumption. }
  (* the last text *)
  assert (parseNext_loop chars (length run2 + S (S (length run3))) []
            [Text s1; Italic (Text s2)] [] (length run1 + 1 + length run2 + 1)
          = parseNext_loop chars (S (S (length run2))) []
              [Text s1; Italic (Text s2)] ([] ++ concat run3)
              (length run1 + 1 + length run2 + 1 + length run3)) as HC.
  { apply (parseNext_loop_run_at MARKUP [] chars
             (run1 ++ [[u]] ++ run2 ++ [[u]]) run3 [] _ _ _ _ []);
      try reflexivity; try assumption.
    - unfold chars. now rewrite app_nil_r, <- !app_assoc.
    - rewrite !length_app. simpl. unfold jsstring. lia.
    - lia. }
  assert (parseNext_loop chars (S (length chars)) [] [] [] 0
          = (Return ([Text s1; Italic (Text s2)], s3), length chars)) as Hloop.
  { rewrite HA, HB, HC.
    rewrite parseNext_loop_done by (apply done_true; unfold jsstring in *; lia).
    rewrite Htext3. cbn [app]. f_equal. unfold jsstring in *. lia. }
  unfold parse, parseNext. rewrite Hchars.
  match goal with
  | |- context [parseNext_loop ?cs ?f ?e ?r ?t ?i] =>
      assert (parseNext_loop cs f e r t i
              = (Return ([Text s1; Italic (Text s2)], s3), length chars))
        as -> by exact Hloop
  end.
  cbn [fst]. unfold finish, flush. apply str_eqb_neq in Hne3. now rewrite Hne3.
Qed.

Lemma text_around_italic_witness :
  (42%N = 42%N \/ 42%N = 95%N)
  /\ js "a " <> [] /\ js "b" <> [] /\ js " c" <> []
  /\ avoids MARKUP (js "a ") = true
  /\ avoids MARKUP (js "b") = true
  /\ avoids MARKUP (js " c") = true
  /\ parse (js "a " ++ [42%N] ++ js "b" ++ [42%N] ++ js " c")
     = Return (Fragment [Text (js "a "); Italic (Text (js "b")); Text (js " c")]).
Proof.
  split; [now left|]. repeat (split; [discriminate|]).
  repeat (split; [reflexivity|]).
  apply (text_around_italic 42 (js "a ") (js "b") (js " c"));
    try discriminate; try reflexivity. now left.
Defined.

(** X25.  After a blank line a node goes into the paragraph that the blank
    line opened: a text without markup, two or more newline characters and
    an italic span are two paragraphs, the first with the text and the
    second with the italic node. *)
Theorem italic_in_second_paragraph (u : N) (s1 nl s2 : jsstring) :
  u = 42%N \/ u = 95%N ->
  s1 <> [] -> s2 <> [] ->
  avoids MARKUP s1 = true ->
  avoids MARKUP s2 = true ->
  2 <= length nl ->
  isNewlines nl = true ->
  parse (s1 ++ nl ++ [u] ++ s2 ++ [u])
  = Return (Fragment [Paragraph [Text s1]; Paragraph [Italic (Text s2)]]).
Proof.
  intros Hu Hne1 Hne2 Hs1 Hs2 Hk Hnl.
  assert (nl <> []) as Hnlne by (destruct nl; [simpl in Hk; lia | discriminate]).
  pose proof (spread_heads MARKUP s1 Hs1) as Hrun1.
  pose proof (spread_heads MARKUP s2 Hs2) as Hrun2.
  pose proof (spread_nonempty s2 Hne2) as Hrne2.
  pose proof (spread_run_text s1) as Htext1.
  pose proof (spread_run_text s2) as Htext2.
  assert (isSurrogate u = false /\ startsClear SCANNED [u] = true
          /\ str_eqb [u] BACKSLASH = false) as (Hpu & Hclear & Hbs)
    by (destruct Hu as [-> | ->]; now repeat split).
  unfold isSurrogate in Hpu. apply orb_false_iff in Hpu as [Hhu Hlu].
  assert (spread (s1 ++ nl ++ [u] ++ s2 ++ [u])
          = spread s1 ++ map (fun v => [v]) nl ++ [[u]] ++ spread s2 ++ [[u]])
    as Hchars.
  { rewrite (spread_around_newlines s1 nl _ Hnlne Hnl). cbn [app].
    rewrite (spread_cons_plain u _ Hhu).
    now rewrite (spread_app_before s2 u [] Hlu). }
  pose proof (spread_wf (s1 ++ nl ++ [u] ++ s2 ++ [u])) as Hwf.
  rewrite Hchars in Hwf.
  set (run1 := spread s1) in *. set (run2 := spread s2) in *.
  set (NL := map (fun v : N => [v]) nl) in *.
  set (chars := run1 ++ NL ++ [[u]] ++ run2 ++ [[u]]) in *.
  assert (length NL = length nl) as HNL by apply length_map.
  assert (length chars = length run1 + S (length nl + length run2 + 1))
    as Hlen
    by (unfold chars; rewrite !length_app, HNL; simpl; unfold jsstring; lia).
  (* the text *)
  assert (parseNext_loop chars (S (length chars)) [] [] [] 0
          = parseNext_loop chars (S (S (length nl + length run2 + 1))) [] []
              ([] ++ concat run1) (0 + length run1)) as HA.
  { apply (parseNext_loop_run_at MARKUP [] chars [] run1
             (NL ++ [[u]] ++ run2 ++ [[u]]) 0 _ _ [] []);
      try reflexivity; try assumption.
    unfold jsstring in *. lia. }
  (* the blank line *)
  assert (parseNext_loop chars (S (S (length nl + length run2 + 1))) [] []
            ([] ++ concat run1) (0 + length run1)
          = parseNext_loop chars (S (length nl + length run2 + 1)) []
              [Paragraph [Text s1]; Paragraph []] []
              (0 + length run1 + length nl)) as HB.
  { rewrite (blank_line_step_at chars run1 ([[u]] ++ run2 ++ [[u]]) nl
               (0 + length run1) _ [] ([] ++ concat run1));
      try reflexivity; try assumption.
    - rewrite Htext1, promote_nil. cbn [app]. apply str_eqb_neq in Hne1.
      now rewrite Hne1.
    - cbn [app]. destruct Hu as [-> | ->]; reflexivity. }
  (* the italic span *)
  assert (chars = (run1 ++ NL) ++ [[u]] ++ run2 ++ [[u]] ++ []) as Hsplit
    by (unfold chars; now rewrite <- !app_assoc).
  assert (0 + length run1 + length nl = length (run1 ++ NL)) as Hat
    by (rewrite length_app; unfold jsstring in *; lia).
  assert (current chars (0 + length run1 + length nl) = Some [u]) as Hcur.
  { rewrite Hat. rewrite Hsplit at 1. apply current_at. }
  assert (parseNext_loop chars (S (length nl + length run2 + 1)) []
            [Paragraph [Text s1]; Paragraph []] []
            (0 + length run1 + length nl)
          = parseNext_loop chars (length run2 + S (length nl)) []
              [Paragraph [Text s1]; Paragraph [Italic (Text s2)]] []
              (length (run1 ++ NL) + 1 + length run2 + 1)) as HC.
  { replace (length nl + length run2 + 1) with (length run2 + S (length nl))
      by lia.
    rewrite (top_level_node_step chars _ _ _ _ [u]
               (Italic (finish [] (concat run2)))
               (length (run1 ++ NL) + 1 + length run2 + 1) Hcur Hbs).
    - rewrite Htext2. now rewrite finish_text.
    - apply (matches_clear chars SCANNED NEW_PARAGRAPH _ [u] Hcur Hclear).
      reflexivity.
    - rewrite Hat.
      now apply (italic_at chars (run1 ++ NL) run2 [] u (length nl)). }
  assert (parseNext_loop chars (S (length chars)) [] [] [] 0
          = (Return ([Paragraph [Text s1]; Paragraph [Italic (Text s2)]], []),
             length chars)) as Hloop.
  { rewrite HA, HB, HC.
    replace (length run2 + S (length nl)) with (S (length run2 + length nl))
      by lia.
    rewrite parseNext_loop_done
      by (apply done_true; rewrite <- Hat; unfold jsstring in *; lia).
    f_equal. rewrite <- Hat. unfold jsstring in *. lia. }
  unfold parse, parseNext. rewrite Hchars.
  match goal with
  | |- context [parseNext_loop ?cs ?f ?e ?r ?t ?i] =>
      assert (parseNext_loop cs f e r t i
              = (Return ([Paragraph [Text s1]; Paragraph [Italic (Text s2)]], []),
                 length chars))
        as -> by exact Hloop
  end.
  reflexivity.
Qed.

Lemma italic_in_second_paragraph_witness :
  (95%N = 42%N \/ 95%N = 95%N)
  /\ js "one" <> [] /\ js "two" <> []
  /\ avoids MARKUP (js "one") = true
  /\ avoids MARKUP (js "two") = true
  /\ 2 <= length (CR ++ LF)
  /\ isNewlines (CR ++ LF) = true
  /\ parse (js "one" ++ (CR ++ LF) ++ [95%N] ++ js "two" ++ [95%N])
     = Return (Fragment [Paragraph [Text (js "one")];
                         Paragraph [Italic (Text (js "two"))]]).
Proof.
  split; [now right|]. repeat (split; [discriminate|]).
  repeat (split; [reflexivity|]).
  apply (italic_in_second_paragraph 95 (js "one") (CR ++ LF) (js "two"));
    try discriminate; try reflexivity. now right.
Defined.

(* ================================================================= *)
(** ** Code between double backticks *)

Lemma parseText_loop_run_at (forbidden : list N) (end_ : jsstring)
    (chars before run after : list jsstring) (i fuel0 fuel : nat)
    (text : jsstring) :
  chars = before ++ run ++ after ->
  i = length before ->
  fuel0 = length run + fuel ->
  covers forbidden SCANNED = true ->
  end_ <> [] ->
  endCovered forbidden end_ = true ->
  forallb (startsClear forbidden) run = true ->
  parseText_loop chars fuel0 end_ text i
  = parseText_loop chars fuel end_ (text ++ concat run) (i + length run).
Proof.
  intros -> -> -> Hcov Hne Hend Hrun. now apply (parseText_loop_run forbidden).
Qed.

(** One iteration of [parseText] at a code point that is no backslash and
    at which neither the terminator nor a newline is found. *)
Lemma parseText_loop_step (chars : list jsstring) (fuel : nat)
    (end_ text : jsstring) (i : nat) (c : jsstring) :
  current chars i = Some c ->
  str_eqb c BACKSLASH = false ->
  end_ <> [] ->
  matches chars [end_] i = false ->
  matches chars NEWLINE i = false ->
  parseText_loop chars (S fuel) end_ text i
  = parseText_loop chars fuel end_ (text ++ c) (i + 1).
Proof.
  intros Hcur Hc Hne Hend Hnl. cbn [parseText_loop].
  rewrite (current_some_done chars i c Hcur), Hcur. cbn [strictEq str_of].
  apply str_eqb_neq in Hne.
  now rewrite Hc, Hne, Hend, Hnl.
Qed.

(** X26.  Between double backticks a single backtick is content: two
    texts that are not empty and have no backtick, no backslash and no
    newline, with one backtick between them and double backticks around
    them, are a code node whose content is all of it, trimmed. *)
Theorem double_backtick_code (a b : jsstring) :
  a <> [] -> b <> [] ->
  avoids (96%N :: SCANNED) a = true ->
  avoids (96%N :: SCANNED) b = true ->
  parse (js "``" ++ a ++ js "`" ++ b ++ js "``")
  = Return (Code (trim (a ++ js "`" ++ b))).
Proof.
  intros Hnea Hneb Ha Hb.
  pose proof (spread_heads _ a Ha) as HrunA.
  pose proof (spread_heads _ b Hb) as HrunB.
  pose proof (spread_nonempty a Hnea) as HneA.
  pose proof (spread_nonempty b Hneb) as HneB.
  pose proof (spread_run_text a) as HtextA.
  pose proof (spread_run_text b) as HtextB.
  assert (spread (js "``" ++ a ++ js "`" ++ b ++ js "``")
          = [[96%N]; [96%N]] ++ spread a ++ [[96%N]] ++ spread b
            ++ [[96%N]; [96%N]]) as Hchars.
  { change (js "``") with [96%N; 96%N]. change (js "`") with [96%N].
    cbn [app].
    rewrite (spread_cons_plain 96 _ eq_refl), (spread_cons_plain 96 _ eq_refl).
    rewrite (spread_app_before a 96 _ eq_refl), (spread_cons_plain 96 _ eq_refl).
    now rewrite (spread_app_before b 96 _ eq_refl). }
  pose proof (spread_wf (js "``" ++ a ++ js "`" ++ b ++ js "``")) as Hwf.
  apply (parse_single_node _ [96%N]); rewrite Hchars in *;
    try reflexivity.
  set (runA := spread a) in *. set (runB := spread b) in *.
  set (chars := [[96%N]; [96%N]] ++ runA ++ [[96%N]] ++ runB ++ [[96%N]; [96%N]])
    in *.
  set (E := [96%N; 96%N] : jsstring).
  assert (length chars = 2 + (length runA + S (length runB + 2))) as Hlen
    by (unfold chars; rewrite !length_app; simpl; unfold jsstring; lia).
  assert (chars = ([[96%N]; [96%N]] ++ runA) ++ [[96%N]] ++ runB
                  ++ [[96%N]; [96%N]]) as Hsplit1
    by (unfold chars; now rewrite <- !app_assoc).
  assert (chars = ([[96%N]; [96%N]] ++ runA ++ [[96%N]]) ++ runB
                  ++ [[96%N]; [96%N]]) as Hsplit2
    by (unfold chars; now rewrite <- !app_assoc).
  assert (chars = ([[96%N]; [96%N]] ++ runA ++ [[96%N]] ++ runB)
                  ++ [[96%N]; [96%N]]) as Hsplit3
    by (unfold chars; now rewrite <- !app_assoc).
  assert (length ([[96%N]; [96%N]] ++ runA) = 2 + length runA) as Hat1
    by (rewrite length_app; reflexivity).
  assert (length ([[96%N]; [96%N]] ++ runA ++ [[96%N]]) = 2 + length runA + 1)
    as Hat2 by (rewrite !length_app; simpl; unfold jsstring; lia).
  assert (length ([[96%N]; [96%N]] ++ runA ++ [[96%N]] ++ runB)
          = 2 + length runA + 1 + length runB)
    as Hat3 by (rewrite !length_app; simpl; unfold jsstring; lia).
  (* the opening backticks *)
  assert (matches chars [js "```"] 0 = false) as Hfenced.
  { rewrite (matches_start chars (js "```") Hwf eq_refl).
    unfold chars. cbn [concat app]. rewrite concat_app.
    change (js "```") with [96%N; 96%N; 96%N]. rewrite !startsWith_cons.
    rewrite (startsWith_run (96%N :: SCANNED) runA _ 96 [] HneA HrunA eq_refl).
    reflexivity. }
  assert (matches chars [E] 0 = true) as Hopen
    by (rewrite (matches_start chars E Hwf eq_refl); reflexivity).
  (* the content *)
  assert (current chars (2 + length runA) = Some [96%N]) as Hinner.
  { rewrite <- Hat1. rewrite Hsplit1 at 1. apply current_at. }
  assert (current chars (2 + length runA + 1 + length runB) = Some [96%N])
    as Hstop.
  { rewrite <- Hat3. rewrite Hsplit3 at 1. apply current_at. }
  assert (matches chars [E] (2 + length runA) = false) as Hsingle.
  { rewrite <- Hat1. rewrite Hsplit1 at 1.
    rewrite matches_at
      by (reflexivity || exact (eq_ind chars wf_chars Hwf _ Hsplit1)).
    cbn [concat app]. rewrite concat_app. unfold E. rewrite startsWith_cons.
    rewrite (startsWith_run (96%N :: SCANNED) runB _ 96 [] HneB HrunB eq_refl).
    reflexivity. }
  assert (matches chars [E] (2 + length runA + 1 + length runB) = true)
    as Hclose.
  { rewrite <- Hat3. rewrite Hsplit3 at 1.
    rewrite matches_at
      by (reflexivity || exact (eq_ind chars wf_chars Hwf _ Hsplit3)).
    reflexivity. }
  assert (matches chars [js "```"] (2 + length runA + 1 + length runB) = false)
    as Hfenced'.
  { rewrite <- Hat3. rewrite Hsplit3 at 1.
    rewrite matches_at
      by (reflexivity || exact (eq_ind chars wf_chars Hwf _ Hsplit3)).
    reflexivity. }
  assert (parseText chars E 2
          = (a ++ js "`" ++ b, 2 + length runA + 1 + length runB)) as Htext.
  { unfold parseText.
    match goal with
    | |- context [parseText_loop chars ?f _ _ _] =>
        replace f with (length runA + S (length runB + 2))
          by (unfold jsstring in *; lia)
    end.
    rewrite (parseText_loop_run_at (96%N :: SCANNED) E chars [[96%N]; [96%N]]
               runA ([[96%N]] ++ runB ++ [[96%N]; [96%N]]) 2 _
               (S (length runB + 2)) []);
      try reflexivity; try assumption; try discriminate.
    rewrite (parseText_loop_step chars _ E _ _ [96%N] Hinner eq_refl);
      try assumption; try discriminate.
    2: { apply (matches_clear chars SCANNED NEWLINE _ [96%N] Hinner);
         reflexivity. }
    rewrite (parseText_loop_run_at (96%N :: SCANNED) E chars
               ([[96%N]; [96%N]] ++ runA ++ [[96%N]]) runB [[96%N]; [96%N]]
               (2 + length runA + 1) _ 2 _);
      try reflexivity; try assumption; try discriminate.
    2: { symmetry. exact Hat2. }
    rewrite (parseText_loop_end chars 2 E _ _ [96%N] Hstop eq_refl Hclose).
    rewrite HtextA, HtextB. cbn [app]. now rewrite <- app_assoc. }
  unfold parseCurrent, parseCurrent_, bind, get, ret, call.
  assert (lookAhead chars 1 0 = Some [96%N]) as -> by reflexivity.
  change (strictEq (Some [96%N]) (js "*")) with false.
  change (strictEq (Some [96%N]) (js "_")) with false.
  change (strictEq (Some [96%N]) (js "~")) with false.
  change (strictEq (Some [96%N]) (js "`")) with true. cbn [orb].
  match goal with
  | |- context [matches chars ?l 0] =>
      assert (matches chars l 0 = false) as -> by exact Hfenced
  end.
  cbv beta.
  match goal with
  | |- context [matches chars ?l 0] =>
      assert (matches chars l 0 = true) as -> by exact Hopen
  end.
  rewrite (match_of_matches chars (js "``") 0 Hopen).
  change (0 + length (js "``")) with 2.
  match goal with
  | |- context [parseText chars ?e 2] =>
      assert (parseText chars e 2
              = (a ++ js "`" ++ b, 2 + length runA + 1 + length runB))
        as -> by exact Htext
  end.
  match goal with
  | |- context [matches chars ?l (2 + length runA + 1 + length runB)] =>
      assert (matches chars l (2 + length runA + 1 + length runB) = false)
        as -> by exact Hfenced'
  end.
  rewrite (match_of_matches chars (js "``") _ Hclose).
  f_equal. change (length (js "``")) with 2. unfold jsstring in *. lia.
Qed.

Lemma double_backtick_code_witness :
  js "a" <> [] /\ js "b " <> []
  /\ avoids (96%N :: SCANNED) (js "a") = true
  /\ avoids (96%N :: SCANNED) (js "b ") = true
  /\ parse (js "``" ++ js "a" ++ js "`" ++ js "b " ++ js "``")
     = Return (Code (trim (js "a" ++ js "`" ++ js "b "))).
Proof.
  split; [discriminate|]. split; [discriminate|].
  split; [reflexivity|]. split; [reflexivity|].
  apply (double_backtick_code (js "a") (js "b ")); try discriminate; reflexivity.
Defined.

(* ================================================================= *)
(** ** A node inside a node *)

(** With a terminator that is not found at the cursor, away from a newline,
    a node that [parseCurrent] builds is pushed as it is at top level. *)
Lemma nested_node_step (chars : list jsstring) (fuel : nat) (end_ : jsstring)
    (root : list MarkdownNode) (text : jsstring) (i : nat) (c : jsstring)
    (node : MarkdownNode) (j : nat) :
  current chars i = Some c ->
  str_eqb c BACKSLASH = false ->
  matches chars [end_] i = false ->
  matches chars NEWLINE i = false ->
  matches chars NEW_PARAGRAPH i = false ->
  parseCurrent chars fuel i = (Return (Some node), j) ->
  parseNext_loop chars (S fuel) end_ root text i
  = parseNext_loop chars fuel end_
      (pushToParent root
         ((if negb (str_eqb text []) then [Text text] else []) ++ [node]))
      [] j.
Proof.
  intros Hcur Hbs Hend Hnl Hpar H. rewrite parseNext_loop_S.
  rewrite (iteration_unescaped chars _ end_ root text i c Hcur Hbs).
  rewrite Hend, Hnl, Hpar, andb_false_r. now rewrite H.
Qed.

(** X27.  Nodes nest: an italic span between double asterisks is a bold
    node around the italic node.  The nested call for the content of the
    bold node builds the italic node by a call of [parseCurrent] of its
    own, and returns it alone. *)
Theorem italic_in_bold (u : N) (s : jsstring) :
  u = 42%N \/ u = 95%N ->
  s <> [] ->
  avoids MARKUP s = true ->
  parse (js "**" ++ [u] ++ s ++ [u] ++ js "**")
  = Return (Bold (Italic (Text s))).
Proof.
  intros Hu Hne Hs.
  pose proof (spread_heads MARKUP s Hs) as Hrun.
  pose proof (spread_nonempty s Hne) as Hrne.
  pose proof (spread_run_text s) as Htext.
  assert (isSurrogate u = false /\ startsClear SCANNED [u] = true
          /\ str_eqb [u] BACKSLASH = false) as (Hpu & Hclear & Hbs)
    by (destruct Hu as [-> | ->]; now repeat split).
  unfold isSurrogate in Hpu. apply orb_false_iff in Hpu as [Hhu Hlu].
  assert (spread (js "**" ++ [u] ++ s ++ [u] ++ js "**")
          = [[42%N]; [42%N]] ++ [[u]] ++ spread s ++ [[u]]
            ++ [[42%N]; [42%N]]) as Hchars.
  { change (js "**") with [42%N; 42%N]. cbn [app].
    rewrite (spread_cons_plain 42 _ eq_refl), (spread_cons_plain 42 _ eq_refl).
    rewrite (spread_cons_plain u _ Hhu).
    rewrite (spread_app_before s u _ Hlu).
    now rewrite (spread_cons_plain u _ Hhu). }
  pose proof (spread_wf (js "**" ++ [u] ++ s ++ [u] ++ js "**")) as Hwf.
  apply (parse_single_node _ [42%N]); rewrite Hchars in *;
    try reflexivity.
  set (run := spread s) in *.
  set (chars := [[42%N]; [42%N]] ++ [[u]] ++ run ++ [[u]] ++ [[42%N]; [42%N]])
    in *.
  set (E := [42%N; 42%N] : jsstring).
  assert (length chars = S (length run + 5)) as Hlen
    by (unfold chars; rewrite !length_app; simpl; unfold jsstring; lia).
  assert (chars = ([[42%N]; [42%N]] ++ [[u]] ++ run ++ [[u]])
                  ++ [[42%N]; [42%N]]) as Hsplit
    by (unfold chars; now rewrite <- !app_assoc).
  assert (length ([[42%N]; [42%N]] ++ [[u]] ++ run ++ [[u]])
          = 2 + 1 + length run + 1) as Hat
    by (rewrite !length_app; simpl; unfold jsstring; lia).
  assert (current chars 2 = Some [u]) as Hcur by reflexivity.
  assert (current chars (2 + 1 + length run + 1) = Some [42%N]) as Hstop.
  { rewrite <- Hat. rewrite Hsplit at 1. apply current_at. }
  assert (matches chars [E] 0 = true) as Hopen
    by (rewrite (matches_start chars E Hwf eq_refl); reflexivity).
  assert (matches chars [E] 2 = false) as Hinner.
  { pose proof (matches_at [[42%N]; [42%N]]
                  ([[u]] ++ run ++ [[u]] ++ [[42%N]; [42%N]]) E Hwf eq_refl)
      as Hm.
    change (matches chars [E] 2 = false).
    etransitivity; [exact Hm|].
    cbn [concat app]. rewrite concat_app. unfold E. rewrite startsWith_cons.
    rewrite (startsWith_run MARKUP run _ 42 [] Hrne Hrun eq_refl).
    apply andb_false_r. }
  assert (matches chars [E] (2 + 1 + length run + 1) = true) as Hclose.
  { rewrite <- Hat. rewrite Hsplit at 1.
    rewrite matches_at
      by (reflexivity || exact (eq_ind chars wf_chars Hwf _ Hsplit)).
    reflexivity. }
  assert (parseNext chars (length chars) E 2
          = (Return (Italic (Text s)), 2 + 1 + length run + 1)) as Hnested.
  { unfold parseNext.
    match goal with
    | |- context [parseNext_loop chars ?f _ _ _ _] =>
        replace f with (S (length run + S 4)) by (unfold jsstring in *; lia)
    end.
    rewrite (nested_node_step chars _ E [] [] 2 [u]
               (Italic (finish [] (concat run))) (2 + 1 + length run + 1)
               Hcur Hbs Hinner).
    - replace (length run + S 4) with (S (length run + 4)) by lia.
      rewrite (parseNext_loop_end chars _ E _ _ _ [42%N] Hstop eq_refl)
        by (discriminate || exact Hclose).
      rewrite Htext, (finish_text s Hne). reflexivity.
    - apply (matches_clear chars SCANNED NEWLINE 2 [u] Hcur Hclear).
      reflexivity.
    - apply (matches_clear chars SCANNED NEW_PARAGRAPH 2 [u] Hcur Hclear).
      reflexivity.
    - now apply (italic_at chars [[42%N]; [42%N]] run [[42%N]; [42%N]] u 4). }
  unfold parseCurrent, parseCurrent_, bind, get, ret, call, advance.
  assert (lookAhead chars 1 0 = Some [42%N]) as -> by reflexivity.
  change (strictEq (Some [42%N]) (js "*")) with true. cbn [orb].
  match goal with
  | |- context [matches chars ?l 0] =>
      assert (matches chars l 0 = true) as -> by exact Hopen
  end.
  change (0 + length (js "**")) with 2.
  match goal with
  | |- context [parseNext chars ?f ?e 2] =>
      assert (parseNext chars f e 2
              = (Return (Italic (Text s)), 2 + 1 + length run + 1))
        as -> by exact Hnested
  end.
  rewrite (match_of_matches chars (js "**") _ Hclose).
  change (length (js "**")) with 2. change (2 =? 1) with false. cbv iota.
  f_equal. unfold jsstring in *. lia.
Qed.

Lemma italic_in_bold_witness :
  (95%N = 42%N \/ 95%N = 95%N)
  /\ js "both" <> []
  /\ avoids MARKUP (js "both") = true
  /\ parse (js "**" ++ [95%N] ++ js "both" ++ [95%N] ++ js "**")
     = Return (Bold (Italic (Text (js "both")))).
Proof.
  split; [now right|]. split; [discriminate|]. split; [reflexivity|].
  apply (italic_in_bold 95 (js "both")); [now right | discriminate | reflexivity].
Defined.

(* ================================================================= *)
(** ** The outermost return *)

Lemma popEmptyParagraph_spec (children : list MarkdownNode) :
  popEmptyParagraph children = withoutTrailingEmptyParagraph children.
Proof.
  destruct (snoc_cases children) as [-> | (init & c & ->)]; [reflexivity|].
  rewrite popEmptyParagraph_snoc. unfold withoutTrailingEmptyParagraph.
  rewrite rev_app_distr. cbn [rev app].
  destruct c as [| [|c0 cs] | | | | | | |]; try reflexivity.
  now rewrite rev_involutive.
Qed.

Lemma collapse_spec (children : list MarkdownNode) :
  collapse children = collapsedRoot children.
Proof. now destruct children as [|c [|c' cs]]. Qed.

Lemma noEmptyParagraph_end (n : MarkdownNode) :
  noEmptyParagraph n = true -> endsWithEmptyParagraph n = false.
Proof.
  destruct n as [cs | [|c cs] | | | | | | |]; try reflexivity; try discriminate.
  cbn [noEmptyParagraph endsWithEmptyParagraph]. intros H.
  destruct (snoc_cases cs) as [-> | (init & c & ->)]; [reflexivity|].
  rewrite rev_app_distr. cbn [rev app].
  rewrite forallb_app in H. apply andb_true_iff in H as [_ H].
  cbn [forallb] in H. rewrite andb_true_r in H.
  now destruct c as [| [|c0 cs0] | | | | | | |].
Qed.

(** C6.  When the loop of the outermost [parseNext] is left and the pending
    text is flushed, a last child that is an empty paragraph is removed; if
    exactly one child is left then, [parse] returns that child, and
    otherwise it returns the fragment of the children that are left.  So
    [parse] never returns a fragment of one child, and never a root that
    ends with an empty paragraph.  [parse("hello")] is the bare text node
    and [parse("")] the fragment without children; [parse("a\n\n")] is the
    paragraph of ["a"] alone, the empty paragraph after it removed, and
    [parse("a\n\nb\n\n")] is the fragment of the two paragraphs that are
    left. *)
Theorem collapsing (markdown : jsstring) :
  (exists root text j,
      parseNext_loop (spread markdown) (S (length (spread markdown))) [] [] [] 0
      = (Return (root, text), j)
      /\ parse markdown
         = Return (collapsedRoot
                     (withoutTrailingEmptyParagraph (flush root text))))
  /\ match parse markdown with
     | Return (Fragment children) => length children <> 1
     | _ => True
     end
  /\ match parse markdown with
     | Return node => endsWithEmptyParagraph node = false
     | _ => True
     end
  /\ parse (js "hello") = Return (Text (js "hello"))
  /\ parse (js "") = Return (Fragment [])
  /\ parse (js "a" ++ LF ++ LF) = Return (Paragraph [Text (js "a")])
  /\ parse (js "a" ++ LF ++ LF ++ js "b" ++ LF ++ LF)
     = Return (Fragment [Paragraph [Text (js "a")]; Paragraph [Text (js "b")]]).
Proof.
  pose proof (spread_wf markdown) as Hwf.
  destruct (parseNext_loop_total (spread markdown) Hwf
              (S (length (spread markdown))) [] [] [] 0)
    as (root & text & j & E & _); [lia|].
  assert (parse markdown = Return (finish root text)) as Hparse
    by (unfold parse, parseNext; now rewrite E).
  assert (topOk []) as Hnil by (left; reflexivity).
  assert (noFragment []) as Hnil' by reflexivity.
  assert (paragraphsFilled (spread markdown) [] [] 0) as Hstart
    by (split; [reflexivity | discriminate]).
  split; [|split; [|split; [|repeat split; reflexivity]]].
  - exists root, text, j. split; [assumption|].
    rewrite Hparse. unfold finish.
    now rewrite popEmptyParagraph_spec, collapse_spec.
  - rewrite Hparse.
    pose proof (finish_noFragment root text
                  (parseNext_loop_noFragment (spread markdown) Hwf _ _ _ _ _ _ _ _
                     Hnil' E)) as Hfin.
    destruct (finish root text); try exact I. now apply Hfin.
  - rewrite Hparse. apply noEmptyParagraph_end, finish_filled.
    + exact (parseNext_loop_topOk (spread markdown) Hwf _ _ _ _ _ _ _ _ Hnil E).
    + exact (parseNext_loop_filled (spread markdown) Hwf _ [] [] [] 0 root text j
               Hstart E).
Qed.

(* ================================================================= *)
(** ** The line break of two characters *)


